(** * OSCR combat analysis: map/difficulty detection and player statistics

    A shallow embedding of [OSCR/combat.py] and of [extract_bytes] from
    [OSCR/iofunc.py], with the properties of the specification stated
    and settled against it.

    Conventions of the embedding:
    - Python [int] values (entity counts, required death counts) are [Z].
    - Python [float] and numpy [float64] values are exact rationals [Q];
      rounding error of the binary representation is outside the model.
      Python's [/] raises [ZeroDivisionError] on a zero divisor, which is
      modelled by [py_truediv] returning [None].  The one comparison that
      decides a result, [low < med] of the hull check, is repeated in the
      module [Binary64] with the kernel's binary64 numbers, where products
      round as they do in the code.
    - A file system is a map from the paths of the files that can be read
      to their content, together with the predicate [writable] of the
      paths that can be opened for writing.
    - A [dict] that is only looked up is a [gmap]; a [dict] whose
      iteration order is observable is an association list in insertion
      order.
    - Mutation of [self] is explicit state passing on the record [Combat];
      a raised exception is a value of [outcome]. *)

From Stdlib Require Import QArith Qround Qabs Lqa ZArith Bool.
From stdpp Require Import gmap strings list fin_maps.

Local Open Scope Z_scope.

(** ** Data model *)

(** Modelled from the spec: [CritterMeta] is declared in
    [OSCR/datamodels.py], which is not among the sources.  Per canonical
    entity name it holds the number of instances seen and the
    per-instance hull-damage samples; [add_critter] accumulates one more
    instance. *)
Record CritterMeta := mkCritterMeta {
  cm_name : string;
  cm_count : Z;
  cm_hull_values : list Q
}.

Definition add_critter (cm : CritterMeta) (hull_value : Q) : CritterMeta :=
  {| cm_name := cm_name cm;
     cm_count := cm_count cm + 1;
     cm_hull_values := cm_hull_values cm ++ [hull_value] |}.

(** Modelled from the spec: [DetectionInfo] is declared in
    [OSCR/datamodels.py].  The positional arguments are, in order,
    success, category, entities, expected value, actual value and step;
    [map] and [difficulty] are keyword arguments.  An argument that a call
    site does not pass is [None] here (the constructor's default). *)
Record DetectionInfo := mkDetectionInfo {
  di_success : bool;
  di_type : option string;
  di_identificators : option (list string);
  di_target_value : option Q;
  di_retrieved_value : option Q;
  di_step : option string;
  di_map : option string;
  di_difficulty : option string
}.

(** [detection_meta.difficulty = diffic] *)
Definition set_di_difficulty (d : DetectionInfo) (diffic : string) : DetectionInfo :=
  {| di_success := di_success d;
     di_type := di_type d;
     di_identificators := di_identificators d;
     di_target_value := di_target_value d;
     di_retrieved_value := di_retrieved_value d;
     di_step := di_step d;
     di_map := di_map d;
     di_difficulty := Some diffic |}.

(** Modelled from the spec: the truth value of a [DetectionInfo] object
    (its [__bool__], in [OSCR/datamodels.py]) is its [success] field. *)
Definition di_bool (d : DetectionInfo) : bool := di_success d.

(** ** Death-count check *)

(** The test made on one present entity:
    [required_death_count == count] when the requirement is positive,
    [count != 0] otherwise. *)
Definition deaths_valid (required_death_count count : Z) : bool :=
  if 0 <? required_death_count
  then required_death_count =? count
  else negb (count =? 0).

(** One iteration of the [for] loop of [check_difficulty_deaths]:
    [Some r] is an early [return r], [None] lets the loop go on. *)
Definition deaths_step (combat_meta : gmap string CritterMeta)
    (entity_name : string) (required_death_count : Z) : option DetectionInfo :=
  match combat_meta !! entity_name with
  | None =>
      Some (mkDetectionInfo false (Some "difficulty") (Some [entity_name])
              None None (Some "existence") None None)
  | Some entity_metadata =>
      if deaths_valid required_death_count (cm_count entity_metadata)
      then None
      else Some (mkDetectionInfo false (Some "difficulty") (Some [entity_name])
                   (Some (inject_Z required_death_count))
                   (Some (inject_Z (cm_count entity_metadata)))
                   (Some "deaths") None None)
  end.

Fixpoint deaths_loop (combat_meta : gmap string CritterMeta)
    (items : list (string * Z)) : option DetectionInfo :=
  match items with
  | [] => None
  | (entity_name, required_death_count) :: rest =>
      match deaths_step combat_meta entity_name required_death_count with
      | Some r => Some r
      | None => deaths_loop combat_meta rest
      end
  end.

Definition check_difficulty_deaths (difficulty_data : list (string * Z))
    (combat_meta : gmap string CritterMeta) : DetectionInfo :=
  match deaths_loop combat_meta difficulty_data with
  | Some r => r
  | None =>
      mkDetectionInfo true (Some "difficulty") (Some (difficulty_data.*1))
        None None (Some "deaths") None None
  end.

(** An entity of a level passes the death check when it is present in the
    metadata and its count satisfies the requirement. *)
Definition deaths_entity_passes (combat_meta : gmap string CritterMeta)
    (item : string * Z) : Prop :=
  ∃ entity_metadata, combat_meta !! item.1 = Some entity_metadata
    ∧ deaths_valid item.2 (cm_count entity_metadata) = true.

(** ** Hull-damage check *)

(** [numpy.percentile(values, 50)] with numpy's default linear
    interpolation: the samples are sorted, the virtual index
    [(n - 1) * 0.5] is split into its floor and its fractional part
    [gamma], and the result interpolates between the two neighbouring
    order statistics.  The result is [None] on an empty sample list,
    which [damage_valid] reads as a failed comparison; numpy raises an
    [IndexError] there, as [Binary64.percentile_50] does.  The aggregates
    that [detect_map] builds have a sample each. *)
Fixpoint insert_sorted (x : Q) (l : list Q) : list Q :=
  match l with
  | [] => [x]
  | y :: rest => if Qle_bool x y then x :: l else y :: insert_sorted x rest
  end.

Definition sort_samples (l : list Q) : list Q := foldr insert_sorted [] l.

Definition percentile_50 (values : list Q) : option Q :=
  let sorted := sort_samples values in
  let n := Z.of_nat (length sorted) in
  if n =? 0 then None
  else
    let virtual_index := (inject_Z (n - 1) * (1 # 2))%Q in
    let lo := Qfloor virtual_index in
    let gamma := (virtual_index - inject_Z lo)%Q in
    let hi := Z.min (lo + 1) (n - 1) in
    match sorted !! Z.to_nat lo, sorted !! Z.to_nat hi with
    | Some a, Some b => Some (a + (b - a) * gamma)%Q
    | _, _ => None
    end.

(** [var = 0.20]: only the lower variance is looked at. *)
Definition var : Q := 0.20%Q.

(** Strict comparison of two numbers. *)
Definition Qltb (x y : Q) : bool :=
  match (x ?= y)%Q with
  | Lt => true
  | _ => false
  end.

(** [low < med], false when there is no median. *)
Definition damage_valid (low : Q) (med : option Q) : bool :=
  match med with
  | Some m => Qltb low m
  | None => false
  end.

Definition damage_step (combat_meta : gmap string CritterMeta)
    (entity_name : string) (hull_value : Q) : option DetectionInfo :=
  match combat_meta !! entity_name with
  | None =>
      Some (mkDetectionInfo false (Some "difficulty") None None None
              (Some "damage") None None)
  | Some entity_metadata =>
      let med := percentile_50 (cm_hull_values entity_metadata) in
      let low := (hull_value * (1 - var))%Q in
      if damage_valid low med
      then None
      else Some (mkDetectionInfo false (Some "difficulty") (Some [entity_name])
                   (Some low) med (Some "damage") None None)
  end.

Fixpoint damage_loop (combat_meta : gmap string CritterMeta)
    (items : list (string * Q)) : option DetectionInfo :=
  match items with
  | [] => None
  | (entity_name, hull_value) :: rest =>
      match damage_step combat_meta entity_name hull_value with
      | Some r => Some r
      | None => damage_loop combat_meta rest
      end
  end.

Definition check_difficulty_damage (difficulty_data : list (string * Q))
    (combat_meta : gmap string CritterMeta) : DetectionInfo :=
  match damage_loop combat_meta difficulty_data with
  | Some r => r
  | None =>
      mkDetectionInfo true (Some "difficulty") (Some (difficulty_data.*1))
        None None (Some "damage") None None
  end.

(** An entity of a level passes the hull check when it is present and the
    median of its samples lies strictly above the lowered threshold. *)
Definition damage_entity_passes (combat_meta : gmap string CritterMeta)
    (item : string * Q) : Prop :=
  ∃ entity_metadata med,
    combat_meta !! item.1 = Some entity_metadata
    ∧ percentile_50 (cm_hull_values entity_metadata) = Some med
    ∧ (item.2 * 0.8 < med)%Q.

(** ** Exceptions *)

Inductive exn : Type :=
  | TypeError
  | AttributeError
  | ZeroDivisionError
  | KeyError
  | ValueError
  | IndexError
  | FileNotFoundError
  | OSError.

(** What a call does: it returns a value or raises. *)
Inductive outcome (A : Type) : Type :=
  | Returned (a : A)
  | Raised (e : exn).
Arguments Returned {A} a.
Arguments Raised {A} e.

Definition raises {A : Type} (o : outcome A) : bool :=
  match o with
  | Returned _ => false
  | Raised _ => true
  end.

(** The value of a call that returned. *)
Definition option_of {A : Type} (o : outcome A) : option A :=
  match o with
  | Returned a => Some a
  | Raised _ => None
  end.

(** ** Entity aggregate trees *)

(** A non-player row of a tree, with the two positions [detect_map] reads:
    the raw entity identifier [data[0][2]] and the value [data[2]]. *)
Record NpcItem := mkNpcItem {
  npc_id : string;
  npc_data2 : Q
}.

(** A player row.  [data[0]] is the identity tuple, of which position 0 is
    the name and position 1 the handle; the numeric positions are read
    through [pi_data], so that [pi_data r 19] is [data[19]]. *)
Record PlayerItem := mkPlayerItem {
  pi_name_handle_id : string * string * string;
  pi_data : nat → Q
}.

Definition pi_name (r : PlayerItem) : string := (pi_name_handle_id r).1.1.
Definition pi_handle (r : PlayerItem) : string := (pi_name_handle_id r).1.2.

(** A tree: the children of its player node and of its non-player node. *)
Record TreeModel := mkTreeModel {
  tm_player_children : list PlayerItem;
  tm_npc_children : list NpcItem
}.

(** Modelled from the spec: [OverviewTableRow] is declared in
    [OSCR/datamodels.py].  Numeric fields start at zero, the optional
    ones unset and the three graph sequences empty. *)
Record OverviewTableRow := mkOverviewTableRow {
  name : string;
  handle : string;
  DPS : Q;
  combat_time : Q;
  combat_time_share : Q;
  total_damage : Q;
  debuff : Q;
  max_one_hit : Q;
  crit_chance : Q;
  total_attacks : Q;
  hull_attacks : Q;
  crit_num : Q;
  misses : Q;
  deaths : Q;
  total_damage_taken : Q;
  total_hull_damage_taken : Q;
  total_shield_damage_taken : Q;
  attacks_in_num : Q;
  total_heals : Q;
  heal_crit_chance : Q;
  heal_crit_num : Q;
  heal_num : Q;
  heal_share : Q;
  attacks_in_share : Q;
  taken_damage_share : Q;
  damage_share : Q;
  base_damage : Q;
  combat_interval : option (Q * Q);
  events : option (list string);
  build : option string;
  graph_time : list Q;
  DMG_graph_data : list Q;
  DPS_graph_data : list (option Q)
}.

(** [self.meta] *)
Record Meta := mkMeta {
  log_duration : option Q;
  player_duration : option Q;
  detection_info : option (list DetectionInfo)
}.

(** An entry of [self.critters], as [analyze_critters] reads it. *)
Record Critter := mkCritter {
  critter_deaths : Z;
  critter_total_hull_damage_taken : Q
}.

(** The combat record, field by field as [Combat.__init__] creates it.  A
    [datetime] is its number of seconds on the time line. *)
Module Combat.
Record t := mk {
  log_data : list string;
  id : Z;
  map : option string;
  difficulty : option string;
  start_time : option Q;
  end_time : option Q;
  file_pos : option Z * option Z;
  log_file : string;
  meta : Meta;
  players : gmap string OverviewTableRow;
  critters : gmap string Critter;
  critter_meta : gmap string CritterMeta;
  graph_resolution : Q;
  overview_graphs : gmap string (list Q);
  damage_out : option TreeModel;
  damage_in : option TreeModel;
  heals_out : option TreeModel;
  heals_in : option TreeModel
}.
End Combat.

(** [Combat(graph_resolution, id, log_file)] *)
Definition Combat_init (graph_resolution : Q) (id : Z) (log_file : string) : Combat.t :=
  {| Combat.log_data := [];
     Combat.id := id;
     Combat.map := None;
     Combat.difficulty := None;
     Combat.start_time := None;
     Combat.end_time := None;
     Combat.file_pos := (None, None);
     Combat.log_file := log_file;
     Combat.meta := mkMeta None None None;
     Combat.players := ∅;
     Combat.critters := ∅;
     Combat.critter_meta := ∅;
     Combat.graph_resolution := graph_resolution;
     Combat.overview_graphs := ∅;
     Combat.damage_out := None;
     Combat.damage_in := None;
     Combat.heals_out := None;
     Combat.heals_in := None |}.

(** Assignments to the attributes of [self] that the modelled methods
    write. *)
Definition set_map (self : Combat.t) (v : option string) : Combat.t :=
  Combat.mk (Combat.log_data self) (Combat.id self) v (Combat.difficulty self)
    (Combat.start_time self) (Combat.end_time self) (Combat.file_pos self)
    (Combat.log_file self) (Combat.meta self) (Combat.players self)
    (Combat.critters self) (Combat.critter_meta self)
    (Combat.graph_resolution self) (Combat.overview_graphs self)
    (Combat.damage_out self) (Combat.damage_in self) (Combat.heals_out self)
    (Combat.heals_in self).

Definition set_difficulty (self : Combat.t) (v : option string) : Combat.t :=
  Combat.mk (Combat.log_data self) (Combat.id self) (Combat.map self) v
    (Combat.start_time self) (Combat.end_time self) (Combat.file_pos self)
    (Combat.log_file self) (Combat.meta self) (Combat.players self)
    (Combat.critters self) (Combat.critter_meta self)
    (Combat.graph_resolution self) (Combat.overview_graphs self)
    (Combat.damage_out self) (Combat.damage_in self) (Combat.heals_out self)
    (Combat.heals_in self).

(** [self.meta['detection_info'] = v] *)
Definition set_detection_info (self : Combat.t) (v : list DetectionInfo) : Combat.t :=
  Combat.mk (Combat.log_data self) (Combat.id self) (Combat.map self)
    (Combat.difficulty self)
    (Combat.start_time self) (Combat.end_time self) (Combat.file_pos self)
    (Combat.log_file self)
    (mkMeta (log_duration (Combat.meta self)) (player_duration (Combat.meta self))
       (Some v))
    (Combat.players self)
    (Combat.critters self) (Combat.critter_meta self)
    (Combat.graph_resolution self) (Combat.overview_graphs self)
    (Combat.damage_out self) (Combat.damage_in self) (Combat.heals_out self)
    (Combat.heals_in self).

Definition set_players (self : Combat.t) (v : gmap string OverviewTableRow) : Combat.t :=
  Combat.mk (Combat.log_data self) (Combat.id self) (Combat.map self)
    (Combat.difficulty self)
    (Combat.start_time self) (Combat.end_time self) (Combat.file_pos self)
    (Combat.log_file self) (Combat.meta self) v
    (Combat.critters self) (Combat.critter_meta self)
    (Combat.graph_resolution self) (Combat.overview_graphs self)
    (Combat.damage_out self) (Combat.damage_in self) (Combat.heals_out self)
    (Combat.heals_in self).

(** The fields of the record other than [map], [difficulty] and
    [meta['detection_info']] agree in [before] and [after]. *)
Definition same_outside_detection (before after : Combat.t) : Prop :=
  Combat.log_data after = Combat.log_data before
  ∧ Combat.id after = Combat.id before
  ∧ Combat.start_time after = Combat.start_time before
  ∧ Combat.end_time after = Combat.end_time before
  ∧ Combat.file_pos after = Combat.file_pos before
  ∧ Combat.log_file after = Combat.log_file before
  ∧ log_duration (Combat.meta after) = log_duration (Combat.meta before)
  ∧ player_duration (Combat.meta after) = player_duration (Combat.meta before)
  ∧ Combat.players after = Combat.players before
  ∧ Combat.critters after = Combat.critters before
  ∧ Combat.critter_meta after = Combat.critter_meta before
  ∧ Combat.graph_resolution after = Combat.graph_resolution before
  ∧ Combat.overview_graphs after = Combat.overview_graphs before
  ∧ Combat.damage_out after = Combat.damage_out before
  ∧ Combat.damage_in after = Combat.damage_in before
  ∧ Combat.heals_out after = Combat.heals_out before
  ∧ Combat.heals_in after = Combat.heals_in before.

(** ** Map and difficulty detection *)

(** An entry of [Detection.MAP_IDENTIFIERS_EXISTENCE]: the keys ['map']
    and ['difficulty']. *)
Record MapData := mkMapData {
  md_map : string;
  md_difficulty : option string
}.

(** The entry fixes the difficulty: ['difficulty'] is not ['Any']. *)
Definition fixed_difficulty (map_data : MapData) : Prop :=
  md_difficulty map_data ≠ Some "Any".

(** A call of one of the two difficulty checks, recorded to tell which
    checks a run of [detect_map] makes. *)
Inductive check_call : Type :=
  | DeathsCheck (diffic : string)
  | DamageCheck (diffic : string).

(** The identification loop of [detect_map] either returns from inside
    (a fixed difficulty was found at [identificator]) or runs to its end,
    leaving the map and the loop variable of the last iteration. *)
Inductive scan_result : Type :=
  | ScanFixed (identificator : string) (map_data : MapData)
  | ScanDone (map : string) (identificator : string)
  | ScanKeyError.

(** A run of [detect_map]: the record afterwards, whether the call
    returned, the local dictionary [critters] and the checks made. *)
Record DetectRun := mkDetectRun {
  run_self : Combat.t;
  run_outcome : outcome unit;
  run_critters : gmap string CritterMeta;
  run_checks : list check_call
}.

Section Detection.

(** [utilities.get_entity_name] and the tables of [detection.Detection]
    are not among the sources; the detection is stated for any of them. *)
Variable get_entity_name : string → string.
Variable MAP_IDENTIFIERS_EXISTENCE : gmap string MapData.
Variable MAP_DIFFICULTY_ENTITY_DEATH_COUNTS :
  gmap string (list (string * list (string * Z))).
Variable MAP_DIFFICULTY_ENTITY_HULL_COUNTS :
  gmap string (list (string * list (string * Q))).

(** The order in which Python iterates over the set
    [critters.keys() & MAP_IDENTIFIERS_EXISTENCE.keys()]: some
    enumeration of its elements. *)
Variable set_iteration : gset string → list string.

(** One iteration of the loop over [self.damage_in._npc._children]. *)
Definition critters_step (critters : gmap string CritterMeta)
    (entity : NpcItem) : gmap string CritterMeta :=
  let entity_name := get_entity_name (npc_id entity) in
  match critters !! entity_name with
  | Some cm => <[entity_name := add_critter cm (npc_data2 entity)]> critters
  | None =>
      <[entity_name := mkCritterMeta entity_name 1 [npc_data2 entity]]> critters
  end.

Definition build_critters (children : list NpcItem) : gmap string CritterMeta :=
  foldl critters_step ∅ children.

(** The rows of [children] whose canonical name is [n], in tree order,
    and the aggregate they amount to: the number of instances and their
    hull-damage samples. *)
Definition instances_of (n : string) (children : list NpcItem) : list NpcItem :=
  filter (λ entity, get_entity_name (npc_id entity) = n) children.

Definition aggregate_of (n : string) (children : list NpcItem) : option CritterMeta :=
  match instances_of n children with
  | [] => None
  | rows => Some (mkCritterMeta n (Z.of_nat (length rows)) (npc_data2 <$> rows))
  end.

(** The loop [for identificator in map_identificators], started with the
    current value of [self.map]. *)
Fixpoint scan_identificators (identificators : list string)
    (map : string) (last : string) : scan_result :=
  match identificators with
  | [] => ScanDone map last
  | identificator :: rest =>
      match MAP_IDENTIFIERS_EXISTENCE !! identificator with
      | None => ScanKeyError
      | Some map_data =>
          if decide (md_difficulty map_data ≠ Some "Any")
          then ScanFixed identificator map_data
          else scan_identificators rest (md_map map_data) identificator
      end
  end.

(** One iteration of a difficulty stage: run the check of the level,
    let a passing level set the difficulty, tag the result with the
    level and append it.  The state is the difficulty, the list
    [detection_info] and the record of the checks made. *)
Definition stage_step {A : Type}
    (check : list (string * A) → gmap string CritterMeta → DetectionInfo)
    (call : string → check_call)
    (critters : gmap string CritterMeta)
    (st : option string * list DetectionInfo * list check_call)
    (level : string * list (string * A))
    : option string * list DetectionInfo * list check_call :=
  let '(difficulty, detection_info, checks) := st in
  let '(diffic, meta) := level in
  let detection_meta := check meta critters in
  let difficulty := if di_bool detection_meta then Some diffic else difficulty in
  (difficulty,
   detection_info ++ [set_di_difficulty detection_meta diffic],
   checks ++ [call diffic]).

Definition run_stage {A : Type}
    (check : list (string * A) → gmap string CritterMeta → DetectionInfo)
    (call : string → check_call)
    (critters : gmap string CritterMeta)
    (levels : list (string * list (string * A)))
    (st : option string * list DetectionInfo * list check_call)
    : option string * list DetectionInfo * list check_call :=
  foldl (stage_step check call critters) st levels.

Definition detect_map (self : Combat.t) : DetectRun :=
  let self := set_map self (Some "") in
  match Combat.damage_in self with
  | None => mkDetectRun self (Raised AttributeError) ∅ []
  | Some damage_in =>
      let critters := build_critters (tm_npc_children damage_in) in
      let map_identificators : gset string :=
        dom critters ∩ dom MAP_IDENTIFIERS_EXISTENCE in
      if decide (size map_identificators < 1)%nat then
        let self := set_map self (Some "Combat") in
        let self := set_difficulty self None in
        let self := set_detection_info self
          [mkDetectionInfo false None None None None (Some "existence")
             None None] in
        mkDetectRun self (Returned tt) critters []
      else
        match scan_identificators (set_iteration map_identificators) "" "" with
        | ScanKeyError => mkDetectRun self (Raised KeyError) critters []
        | ScanFixed identificator map_data =>
            let self := set_map self (Some (md_map map_data)) in
            let self := set_difficulty self (md_difficulty map_data) in
            let self := set_detection_info self
              [mkDetectionInfo true (Some "both") (Some [identificator])
                 None None (Some "existence") (Combat.map self)
                 (Combat.difficulty self)] in
            mkDetectRun self (Returned tt) critters []
        | ScanDone map identificator =>
            let self := set_map self (Some map) in
            let detection_info :=
              [mkDetectionInfo true (Some "map") (Some [identificator])
                 None None (Some "existence") (Combat.map self) None] in
            let st := (Combat.difficulty self, detection_info, []) in
            let st :=
              run_stage check_difficulty_deaths DeathsCheck critters
                (default [] (MAP_DIFFICULTY_ENTITY_DEATH_COUNTS !! map)) st in
            let st :=
              run_stage check_difficulty_damage DamageCheck critters
                (default [] (MAP_DIFFICULTY_ENTITY_HULL_COUNTS !! map)) st in
            let '(difficulty, detection_info, checks) := st in
            let self := set_difficulty self difficulty in
            let self := set_detection_info self detection_info in
            mkDetectRun self (Returned tt) critters checks
        end
  end.

End Detection.

(** ** Numbers and arrays *)

Section Numeric.
Local Open Scope Q_scope.

(** Python's [x / y]: [ZeroDivisionError] on a zero divisor. *)
Definition py_truediv (x y : Q) : option Q :=
  if Qeq_bool y 0 then None else Some (x / y).

(** [try: v = f(x / y)] with [except ZeroDivisionError: v = 0.0]. *)
Definition try_div (x y : Q) (f : Q → Q) : Q :=
  match py_truediv x y with
  | Some q => f q
  | None => 0
  end.

(** Division of two elements of numpy arrays: no exception on a zero
    divisor but [inf] or [nan], which is [None] here. *)
Definition np_truediv (x y : Q) : option Q :=
  if Qeq_bool y 0 then None else Some (x / y).

(** [round(x, 1)]: to one decimal place, ties to the even neighbour. *)
Definition round_half_even (x : Q) : Z :=
  let f := Qfloor x in
  let r := x - inject_Z f in
  match Qcompare r (1 # 2) with
  | Lt => f
  | Gt => (f + 1)%Z
  | Eq => if Z.even f then f else (f + 1)%Z
  end.

Definition py_round1 (x : Q) : Q := inject_Z (round_half_even (x * 10)) / 10.

(** [l[start:stop]] with Python's treatment of indices that are
    negative or beyond the end. *)
Definition slice_index (n i : Z) : Z :=
  if (i <? 0)%Z then Z.max (i + n) 0 else Z.min i n.

Definition py_slice {A : Type} (l : list A) (start stop : Z) : list A :=
  let n := Z.of_nat (length l) in
  let lo := slice_index n start in
  let hi := slice_index n stop in
  take (Z.to_nat (hi - lo)) (drop (Z.to_nat lo) l).

(** [numpy.linspace(start, stop, num)]: [num] evenly spaced points, the
    first at [start] and, when there are at least two, the last at
    [stop]. *)
Definition linspace (start stop : Q) (num : nat) : list Q :=
  match num with
  | O => []
  | S O => [start]
  | S div =>
      (λ i : nat, start + inject_Z (Z.of_nat i) * ((stop - start) / inject_Z (Z.of_nat div)))
        <$> seq 0 num
  end.

(** [a.cumsum()] *)
Fixpoint cumsum_from (acc : Q) (l : list Q) : list Q :=
  match l with
  | [] => []
  | x :: rest => (acc + x) :: cumsum_from (acc + x) rest
  end.

Definition cumsum (l : list Q) : list Q := cumsum_from 0 l.

(** [xs / ys] on one-dimensional arrays: element by element when the
    lengths agree, one side stretched when its length is 1, and a
    [ValueError] otherwise. *)
Definition np_divide (xs ys : list Q) : outcome (list (option Q)) :=
  if decide (length xs = length ys) then Returned (zip_with np_truediv xs ys)
  else match xs, ys with
       | [x], _ => Returned ((λ y, np_truediv x y) <$> ys)
       | _, [y] => Returned ((λ x, np_truediv x y) <$> xs)
       | _, _ => Raised ValueError
       end.

(** [k in event] on strings. *)
Fixpoint py_in (k event : string) : bool :=
  String.prefix k event
  || match event with
     | EmptyString => false
     | String _ rest => py_in k rest
     end.

End Numeric.

(** ** Player statistics, first pass *)

Section Overview.
Local Open Scope Q_scope.

(** [OverviewTableRow(name, handle)] *)
Definition new_row (name handle : string) : OverviewTableRow :=
  mkOverviewTableRow name handle 0 0 0 0 0 0 0 0 0 0 0 0 0 0 0 0 0 0 0 0 0 0 0 0 0
    None None None [] [] [].

(** The three assignments of [create_overview_graphs] to [player]. *)
Definition set_graphs (player : OverviewTableRow)
    (new_graph_time new_DMG_graph_data : list Q)
    (new_DPS_graph_data : list (option Q)) : OverviewTableRow :=
  {| name := name player;
     handle := handle player;
     DPS := DPS player;
     combat_time := combat_time player;
     combat_time_share := combat_time_share player;
     total_damage := total_damage player;
     debuff := debuff player;
     max_one_hit := max_one_hit player;
     crit_chance := crit_chance player;
     total_attacks := total_attacks player;
     hull_attacks := hull_attacks player;
     crit_num := crit_num player;
     misses := misses player;
     deaths := deaths player;
     total_damage_taken := total_damage_taken player;
     total_hull_damage_taken := total_hull_damage_taken player;
     total_shield_damage_taken := total_shield_damage_taken player;
     attacks_in_num := attacks_in_num player;
     total_heals := total_heals player;
     heal_crit_chance := heal_crit_chance player;
     heal_crit_num := heal_crit_num player;
     heal_num := heal_num player;
     heal_share := heal_share player;
     attacks_in_share := attacks_in_share player;
     taken_damage_share := taken_damage_share player;
     damage_share := damage_share player;
     base_damage := base_damage player;
     combat_interval := combat_interval player;
     events := events player;
     build := build player;
     graph_time := new_graph_time;
     DMG_graph_data := new_DMG_graph_data;
     DPS_graph_data := new_DPS_graph_data |}.

Definition create_overview_graphs (self : Combat.t) (player : OverviewTableRow)
    (combat_interval : Z * Z) : outcome OverviewTableRow :=
  match Combat.overview_graphs self !! handle player with
  | None => Raised KeyError
  | Some graph =>
      let dmg_graph := py_slice graph combat_interval.1 (combat_interval.2 + 1) in
      let first_graph_time :=
        Combat.graph_resolution self * inject_Z (combat_interval.1 + 1) in
      let last_graph_time :=
        Combat.graph_resolution self * inject_Z (combat_interval.2 + 1) in
      let graph_time := linspace first_graph_time last_graph_time (length dmg_graph) in
      let combat_time_array :=
        (λ t, t - Combat.graph_resolution self * inject_Z combat_interval.1)
          <$> graph_time in
      Returned (set_graphs player graph_time dmg_graph
                  (zip_with np_truediv (cumsum dmg_graph) combat_time_array))
  end.

(** [get_player_item]: the first player row of [model] whose identity
    equals [name_and_handle]. *)
Definition get_player_item (model : TreeModel)
    (name_and_handle : string * string * string) : option PlayerItem :=
  List.find (λ player, bool_decide (pi_name_handle_id player = name_and_handle))
    (tm_player_children model).

(** A position of the matching row of another tree, zero when there is
    no such row. *)
Definition row_field (row : option PlayerItem) (i : nat) : Q :=
  match row with
  | Some r => pi_data r i
  | None => 0
  end.

(** The running totals of the first loop of [create_overview]. *)
Record Totals := mkTotals {
  totals_damage_out : Q;
  totals_attacks_in : Q;
  totals_damage_in : Q;
  totals_heals : Q
}.

(** The body of the first loop for a row whose combat duration is
    positive: the player built from the row and from the matching rows
    of the damage-received and heal-dealt trees. *)
Definition overview_player (self : Combat.t) (combat_duration : Q)
    (overview_graph_intervals : gmap string (Z * Z)) (player_item : PlayerItem)
    : outcome OverviewTableRow :=
  let dmg_out_data := pi_data player_item in
  let player_combat_duration := dmg_out_data 19%nat in
  let player_name_handle_id := pi_name_handle_id player_item in
  match py_truediv player_combat_duration combat_duration with
  | None => Raised ZeroDivisionError
  | Some share =>
      match Combat.damage_in self, Combat.heals_out self with
      | None, _ | _, None => Raised AttributeError
      | Some damage_in, Some heals_out =>
          let dmg_in_data := get_player_item damage_in player_name_handle_id in
          let heal_out_data := get_player_item heals_out player_name_handle_id in
          let player :=
            {| name := pi_name player_item;
               handle := pi_handle player_item;
               DPS := dmg_out_data 1%nat;
               combat_time := player_combat_duration;
               combat_time_share := share;
               total_damage := dmg_out_data 2%nat;
               debuff := dmg_out_data 3%nat;
               max_one_hit := dmg_out_data 4%nat;
               crit_chance := dmg_out_data 5%nat;
               total_attacks := dmg_out_data 9%nat;
               hull_attacks := dmg_out_data 20%nat;
               crit_num := dmg_out_data 11%nat;
               misses := dmg_out_data 10%nat;
               deaths := row_field dmg_in_data 8;
               total_damage_taken := row_field dmg_in_data 2;
               total_hull_damage_taken := row_field dmg_in_data 15;
               total_shield_damage_taken := row_field dmg_in_data 13;
               attacks_in_num := row_field dmg_in_data 9;
               total_heals := row_field heal_out_data 2;
               heal_crit_chance := row_field heal_out_data 8;
               heal_crit_num := row_field heal_out_data 10;
               heal_num := row_field heal_out_data 9;
               heal_share := 0;
               attacks_in_share := 0;
               taken_damage_share := 0;
               damage_share := 0;
               base_damage := 0;
               combat_interval := None;
               events := None;
               build := None;
               graph_time := [];
               DMG_graph_data := [];
               DPS_graph_data := [] |} in
          match overview_graph_intervals !! handle player with
          | Some interval => create_overview_graphs self player interval
          | None => Returned player
          end
      end
  end.

Definition add_totals (totals : Totals) (player : OverviewTableRow) : Totals :=
  {| totals_damage_out := totals_damage_out totals + total_damage player;
     totals_attacks_in := totals_attacks_in totals + attacks_in_num player;
     totals_damage_in := totals_damage_in totals + total_damage_taken player;
     totals_heals := totals_heals totals + total_heals player |}.

(** The first loop, over the player rows of the damage-dealt tree.  A
    raise leaves [self.players] as the iterations before it made it. *)
Fixpoint overview_loop (self : Combat.t) (combat_duration : Q)
    (overview_graph_intervals : gmap string (Z * Z)) (rows : list PlayerItem)
    (players : gmap string OverviewTableRow) (totals : Totals)
    : gmap string OverviewTableRow * Totals * outcome unit :=
  match rows with
  | [] => (players, totals, Returned tt)
  | player_item :: rest =>
      if Qle_bool (pi_data player_item 19%nat) 0
      then overview_loop self combat_duration overview_graph_intervals rest
             players totals
      else
        match overview_player self combat_duration overview_graph_intervals
                player_item with
        | Raised e => (players, totals, Raised e)
        | Returned player =>
            overview_loop self combat_duration overview_graph_intervals rest
              (<[pi_name player_item +:+ pi_handle player_item := player]> players)
              (add_totals totals player)
        end
  end.

(** The body of the second loop: the four shares, each [0.0] on a
    [ZeroDivisionError]. *)
Definition overview_shares (totals : Totals) (player : OverviewTableRow)
    : OverviewTableRow :=
  {| name := name player;
     handle := handle player;
     DPS := DPS player;
     combat_time := combat_time player;
     combat_time_share := combat_time_share player;
     total_damage := total_damage player;
     debuff := debuff player;
     max_one_hit := max_one_hit player;
     crit_chance := crit_chance player;
     total_attacks := total_attacks player;
     hull_attacks := hull_attacks player;
     crit_num := crit_num player;
     misses := misses player;
     deaths := deaths player;
     total_damage_taken := total_damage_taken player;
     total_hull_damage_taken := total_hull_damage_taken player;
     total_shield_damage_taken := total_shield_damage_taken player;
     attacks_in_num := attacks_in_num player;
     total_heals := total_heals player;
     heal_crit_chance := heal_crit_chance player;
     heal_crit_num := heal_crit_num player;
     heal_num := heal_num player;
     heal_share := try_div (total_heals player) (totals_heals totals) (λ q, q);
     attacks_in_share := try_div (attacks_in_num player) (totals_attacks_in totals) (λ q, q);
     taken_damage_share := try_div (total_damage_taken player) (totals_damage_in totals) (λ q, q);
     damage_share := try_div (total_damage player) (totals_damage_out totals) (λ q, q);
     base_damage := base_damage player;
     combat_interval := combat_interval player;
     events := events player;
     build := build player;
     graph_time := graph_time player;
     DMG_graph_data := DMG_graph_data player;
     DPS_graph_data := DPS_graph_data player |}.

Definition create_overview (self : Combat.t)
    (overview_graph_intervals : gmap string (Z * Z)) : Combat.t * outcome unit :=
  match Combat.end_time self, Combat.start_time self with
  | Some end_time, Some start_time =>
      let combat_duration := end_time - start_time in
      match Combat.damage_out self with
      | None => (self, Raised AttributeError)
      | Some damage_out =>
          match overview_loop self combat_duration overview_graph_intervals
                  (tm_player_children damage_out) (Combat.players self)
                  (mkTotals 0 0 0 0) with
          | (players, totals, Returned _) =>
              (set_players self (overview_shares totals <$> players), Returned tt)
          | (players, _, Raised e) => (set_players self players, Raised e)
          end
      end
  | _, _ => (self, Raised TypeError)
  end.

(** The totals the first loop ends with: the denominators of the four
    shares of the first pass. *)
Definition overview_totals (self : Combat.t)
    (overview_graph_intervals : gmap string (Z * Z)) : Totals :=
  match Combat.end_time self, Combat.start_time self, Combat.damage_out self with
  | Some end_time, Some start_time, Some damage_out =>
      (overview_loop self (end_time - start_time) overview_graph_intervals
         (tm_player_children damage_out) (Combat.players self)
         (mkTotals 0 0 0 0)).1.2
  | _, _, _ => mkTotals 0 0 0 0
  end.

(** The key under which the first pass stores the player of a row. *)
Definition player_key (player_item : PlayerItem) : string :=
  pi_name player_item +:+ pi_handle player_item.

(** The three graph sequences of a player have the same length. *)
Definition graphs_aligned (player : OverviewTableRow) : Prop :=
  length (graph_time player) = length (DMG_graph_data player)
  ∧ length (DMG_graph_data player) = length (DPS_graph_data player).

End Overview.

(** ** Player statistics, second pass *)

Section AnalyzePlayers.
Local Open Scope Q_scope.

(** [Detection.BUILD_DETECTION_ABILITIES], in declaration order; the
    table is not among the sources. *)
Variable BUILD_DETECTION_ABILITIES : list (string * string).

(** The filter at the head of [analyze_players]:
    [player.combat_interval is not None and player.events is not None]. *)
Definition has_combat_time (player : OverviewTableRow) : bool :=
  bool_decide (combat_interval player ≠ None) && bool_decide (events player ≠ None).

(** The sum of a field over [self.players.values()]. *)
Definition sum_over (f : OverviewTableRow → Q)
    (players : gmap string OverviewTableRow) : Q :=
  map_fold (λ _ player acc, acc + f player) 0 players.

(** The loop over the build table: every marker that occurs in some
    event assigns its label, so the last such marker decides. *)
Definition detect_build (player_events : list string) (build : option string)
    : option string :=
  foldl (λ build kv,
           if existsb (py_in kv.1) player_events then Some kv.2 else build)
    build BUILD_DETECTION_ABILITIES.

(** The second pass's totals. *)
Definition analyze_totals (players : gmap string OverviewTableRow) : Totals :=
  {| totals_damage_out := sum_over total_damage players;
     totals_attacks_in := sum_over attacks_in_num players;
     totals_damage_in := sum_over total_damage_taken players;
     totals_heals := sum_over total_heals players |}.

(** The body of the last loop of [analyze_players]. *)
Definition analyze_player (totals : Totals) (player : OverviewTableRow)
    : outcome OverviewTableRow :=
  match combat_interval player, events player with
  | Some interval, Some player_events =>
      let combat_time := interval.2 - interval.1 in
      let successful_attacks := hull_attacks player - misses player in
      let debuff :=
        try_div (total_damage player) (base_damage player) (λ q, (q - 1) * 100) in
      let DPS := try_div (total_damage player) combat_time (λ q, q) in
      let crit_chance :=
        if Qltb 0 successful_attacks
        then crit_num player / successful_attacks * 100
        else 0 in
      let heal_crit_chance :=
        try_div (heal_crit_num player) (heal_num player) (λ q, q * 100) in
      let damage_share :=
        try_div (total_damage player) (totals_damage_out totals) (λ q, q * 100) in
      let taken_damage_share :=
        try_div (total_damage_taken player) (totals_damage_in totals)
          (λ q, q * 100) in
      let attacks_in_share :=
        try_div (attacks_in_num player) (totals_attacks_in totals)
          (λ q, q * 100) in
      let heal_share :=
        try_div (total_heals player) (totals_heals totals) (λ q, q * 100) in
      let build := detect_build player_events (build player) in
      let graph_time := py_round1 <$> graph_time player in
      let DPS_data := cumsum (DMG_graph_data player) in
      match np_divide DPS_data graph_time with
      | Raised e => Raised e
      | Returned DPS_graph_data =>
          Returned
            {| name := name player;
               handle := handle player;
               DPS := DPS;
               combat_time := combat_time;
               combat_time_share := combat_time_share player;
               total_damage := total_damage player;
               debuff := debuff;
               max_one_hit := max_one_hit player;
               crit_chance := crit_chance;
               total_attacks := total_attacks player;
               hull_attacks := hull_attacks player;
               crit_num := crit_num player;
               misses := misses player;
               deaths := deaths player;
               total_damage_taken := total_damage_taken player;
               total_hull_damage_taken := total_hull_damage_taken player;
               total_shield_damage_taken := total_shield_damage_taken player;
               attacks_in_num := attacks_in_num player;
               total_heals := total_heals player;
               heal_crit_chance := heal_crit_chance;
               heal_crit_num := heal_crit_num player;
               heal_num := heal_num player;
               heal_share := heal_share;
               attacks_in_share := attacks_in_share;
               taken_damage_share := taken_damage_share;
               damage_share := damage_share;
               base_damage := base_damage player;
               combat_interval := combat_interval player;
               events := events player;
               build := build;
               graph_time := graph_time;
               DMG_graph_data := DMG_graph_data player;
               DPS_graph_data := DPS_graph_data |}
      end
  | _, _ => Raised TypeError
  end.

(** What the last loop leaves for one player, when its body returns. *)
Definition analyzed (totals : Totals) (player : OverviewTableRow)
    : option OverviewTableRow :=
  match analyze_player totals player with
  | Returned player' => Some player'
  | Raised _ => None
  end.

(** [analyze_players].  The record after a raise from the last loop,
    in which the players before the raising one are already updated,
    is not described: the call is then only known to have raised. *)
Definition analyze_players (self : Combat.t) : outcome Combat.t :=
  let players := filter (λ kv, has_combat_time kv.2 = true) (Combat.players self) in
  let totals := analyze_totals players in
  match map_fold (λ _ player (acc : option exn),
                    match analyze_player totals player with
                    | Raised e => Some e
                    | Returned _ => acc
                    end) None players with
  | Some e => Raised e
  | None => Returned (set_players self (omap (analyzed totals) players))
  end.

End AnalyzePlayers.

(** ** Ordering of combats *)

(** The right operand of [>]: a combat, or an object of another class. *)
Inductive pyobject : Type :=
  | CombatObject (c : Combat.t)
  | OtherObject (class_name : string).

(** The property [date_time]: the end time. *)
Definition date_time (self : Combat.t) : option Q := Combat.end_time self.

(** [isinstance(v, datetime)] on the value of an end-time field. *)
Definition is_datetime (v : option Q) : bool :=
  match v with
  | Some _ => true
  | None => false
  end.

(** [x > y] with a [datetime] on the left: a [TypeError] unless the right
    operand is a [datetime] too. *)
Definition datetime_gt (x : Q) (y : option Q) : outcome (option bool) :=
  match y with
  | Some y => Returned (Some (Qltb y x))
  | None => Raised TypeError
  end.

(** [Combat.__gt__].  The returned [None] is the value of a call that
    falls off the end of the method.  The first two conditions test
    [self.date_time] on both sides of their [and], as the source does. *)
Definition Combat_gt (self : Combat.t) (other : pyobject) : outcome (option bool) :=
  match other with
  | OtherObject _ => Raised TypeError
  | CombatObject other =>
      if is_datetime (date_time self) && is_datetime (date_time self) then
        match date_time self with
        | Some t => datetime_gt t (date_time other)
        | None => Raised TypeError
        end
      else if negb (is_datetime (date_time self)) && is_datetime (date_time self) then
        Returned (Some false)
      else if is_datetime (date_time self) && negb (is_datetime (date_time other)) then
        Returned (Some true)
      else Returned None
  end.

(** ** Extraction of a byte range *)

Section ExtractBytes.

(** [os.path.isabs], which depends on the platform. *)
Variable isabs : string → bool.

(** The paths that [open(path, 'wb')] can open: the directory exists, the
    process may create or truncate the file, and the path is no
    directory.  For the others it raises an [OSError], of the subclass
    that tells the reason; [Raised OSError] stands for any of them. *)
Variable writable : string → bool.

(** [source_file.seek(start_pos)] followed by
    [source_file.read(end_pos - start_pos)] on the content of a file
    opened in binary mode: a negative position is refused, a length of
    [-1] reads to the end, a smaller one is refused.  A position or a
    length too large for the platform (one that does not fit the C types
    of [seek] and [read], or a [read] of more bytes than memory holds)
    makes the calls raise as well; this model has no such limit, so what
    is proved of a returning call is stated for byte ranges within the
    file. *)
Definition seek_read (content : list Byte.byte) (start_pos size : Z)
    : outcome (list Byte.byte) :=
  if start_pos <? 0 then Raised OSError
  else if size <? -1 then Raised ValueError
  else if size =? -1 then Returned (drop (Z.to_nat start_pos) content)
  else Returned (take (Z.to_nat size) (drop (Z.to_nat start_pos) content)).

(** [extract_bytes] on a file system that maps the paths of the existing
    files to their content.  The source is read and closed before the
    target is opened; a target that cannot be opened for writing leaves
    the file system as it was. *)
Definition extract_bytes (fs : gmap string (list Byte.byte))
    (source_path target_path : string) (start_pos end_pos : Z)
    : gmap string (list Byte.byte) * outcome unit :=
  if negb (isabs source_path) then (fs, Raised AttributeError)
  else if negb (isabs target_path) then (fs, Raised AttributeError)
  else
    match fs !! source_path with
    | None => (fs, Raised FileNotFoundError)
    | Some content =>
        match seek_read content start_pos (end_pos - start_pos) with
        | Raised e => (fs, Raised e)
        | Returned extracted_bytes =>
            if writable target_path
            then (<[target_path := extracted_bytes]> fs, Returned tt)
            else (fs, Raised OSError)
        end
    end.

End ExtractBytes.

(** [os.path.isabs] of a POSIX platform: the path starts with a slash. *)
Definition posix_isabs (path : string) : bool := String.prefix "/" path.

(** A platform on which the files of the directory [/logs] can be
    written, and no others. *)
Definition logs_writable (path : string) : bool := String.prefix "/logs/" path.

(** ** Sample data

    A stand-in for the naming utility (the text of an identifier up to its
    first blank), small reference tables and three combats, used to run
    the model. *)

Definition sample_entity_name (entity_id : string) : string :=
  match String.index 0 " " entity_id with
  | Some n => String.substring 0 n entity_id
  | None => entity_id
  end.

Definition sample_existence : gmap string MapData :=
  {[ "Cube" := mkMapData "Infected Space" (Some "Any");
     "Queen" := mkMapData "Hive Space" (Some "Elite") ]}.

Definition sample_death_counts : gmap string (list (string * list (string * Z))) :=
  {[ "Infected Space" := [("Normal", [("Cube", 1)]); ("Elite", [("Cube", 2)])] ]}.

Definition sample_hull_counts : gmap string (list (string * list (string * Q))) :=
  {[ "Infected Space" := [("Elite", [("Cube", 1000%Q)])] ]}.

Definition sample_combat (npcs : list NpcItem) : Combat.t :=
  {| Combat.log_data := [];
     Combat.id := 1;
     Combat.map := None;
     Combat.difficulty := None;
     Combat.start_time := Some 0%Q;
     Combat.end_time := Some 60%Q;
     Combat.file_pos := (None, None);
     Combat.log_file := "";
     Combat.meta := mkMeta None None None;
     Combat.players := ∅;
     Combat.critters := ∅;
     Combat.critter_meta := ∅;
     Combat.graph_resolution := 0.2%Q;
     Combat.overview_graphs := ∅;
     Combat.damage_out := Some (mkTreeModel [] []);
     Combat.damage_in := Some (mkTreeModel [] npcs);
     Combat.heals_out := Some (mkTreeModel [] []);
     Combat.heals_in := Some (mkTreeModel [] []) |}.

Definition sample_detect : Combat.t → DetectRun :=
  detect_map sample_entity_name sample_existence sample_death_counts
    sample_hull_counts elements.

(** Three combats: only an unknown probe; two cubes and a probe; a queen
    among cubes. *)
Definition probe_combat : Combat.t :=
  sample_combat [mkNpcItem "Probe 1" 3%Q].

Definition cube_combat : Combat.t :=
  sample_combat [mkNpcItem "Cube 1" 900%Q; mkNpcItem "Cube 2" 950%Q;
                 mkNpcItem "Probe 1" 3%Q].

Definition queen_combat : Combat.t :=
  sample_combat [mkNpcItem "Cube 1" 900%Q; mkNpcItem "Queen 1" 5000%Q].

(** A player row of the damage-dealt tree (total damage 600 at position 2,
    combat duration 30 at position 19, the other positions 0), the same
    player's global damage series, and a combat holding them together
    with one player already analysed upstream. *)
Definition ann_row : PlayerItem :=
  mkPlayerItem ("Ann", "@ann", "P[1@2 Ann@ann]")
    (λ i, match i with
          | 2%nat => 600%Q
          | 19%nat => 30%Q
          | _ => 0%Q
          end).

Definition idle_row : PlayerItem :=
  mkPlayerItem ("Bob", "@bob", "P[3@4 Bob@bob]") (λ _, 0%Q).

Definition ann_series : list Q := [10; 20; 30; 40; 50; 60; 70]%Q.

Definition ann_player : OverviewTableRow :=
  mkOverviewTableRow "Ann" "@ann" 0 0 0 600 0 0 0 0 0 0 0 0 0 0 0 0 0 0 0 0 0 0 0 0 0
    (Some (0, 0)%Q) (Some []) None [0.2; 0.4]%Q [10; 20]%Q [Some 50; Some 75]%Q.

Definition busy_combat : Combat.t :=
  {| Combat.log_data := [];
     Combat.id := 2;
     Combat.map := None;
     Combat.difficulty := None;
     Combat.start_time := Some 0%Q;
     Combat.end_time := Some 60%Q;
     Combat.file_pos := (None, None);
     Combat.log_file := "";
     Combat.meta := mkMeta None None None;
     Combat.players := {[ "Ann@ann" := ann_player ]};
     Combat.critters := ∅;
     Combat.critter_meta := ∅;
     Combat.graph_resolution := 0.2%Q;
     Combat.overview_graphs := {[ "@ann" := ann_series ]};
     Combat.damage_out := Some (mkTreeModel [idle_row; ann_row] []);
     Combat.damage_in := Some (mkTreeModel [] []);
     Combat.heals_out := Some (mkTreeModel [] []);
     Combat.heals_in := Some (mkTreeModel [] []) |}.

Definition busy_intervals : gmap string (Z * Z) := {[ "@ann" := (2, 5) ]}.

(** A player with a combat interval and an event list that exists but is
    empty, and [busy_combat] with that player as its only one. *)
Definition quiet_player : OverviewTableRow :=
  mkOverviewTableRow "Cy" "@cy" 0 0 0 0 0 0 0 0 0 0 0 0 0 0 0 0 0 0 0 0 0 0 0 0 0
    (Some (3, 3)%Q) (Some []) None [] [] [].

Definition quiet_combat : Combat.t :=
  set_players busy_combat {[ "Cy@cy" := quiet_player ]}.

(** A player whose graph has one point, at time [0.04], which the second
    pass rounds to [0.0], and [busy_combat] with that player as its only
    one. *)
Definition early_player : OverviewTableRow :=
  set_graphs ann_player [1 # 25]%Q [5]%Q [Some 125]%Q.

Definition early_combat : Combat.t :=
  set_players busy_combat {[ "Ann@ann" := early_player ]}.

(** A combat that has ended and one whose end time was never set. *)
Definition dated_combat : Combat.t := busy_combat.

Definition undated_combat : Combat.t := Combat_init 0.2%Q 3 "".

(** [busy_combat] with its end time at its start time. *)
Definition instant_combat : Combat.t :=
  {| Combat.log_data := Combat.log_data busy_combat;
     Combat.id := Combat.id busy_combat;
     Combat.map := Combat.map busy_combat;
     Combat.difficulty := Combat.difficulty busy_combat;
     Combat.start_time := Some 0%Q;
     Combat.end_time := Some 0%Q;
     Combat.file_pos := Combat.file_pos busy_combat;
     Combat.log_file := Combat.log_file busy_combat;
     Combat.meta := Combat.meta busy_combat;
     Combat.players := ∅;
     Combat.critters := Combat.critters busy_combat;
     Combat.critter_meta := Combat.critter_meta busy_combat;
     Combat.graph_resolution := Combat.graph_resolution busy_combat;
     Combat.overview_graphs := Combat.overview_graphs busy_combat;
     Combat.damage_out := Combat.damage_out busy_combat;
     Combat.damage_in := Combat.damage_in busy_combat;
     Combat.heals_out := Combat.heals_out busy_combat;
     Combat.heals_in := Combat.heals_in busy_combat |}.

(** ** Further definitions

    Notions in which the properties of the remaining code are stated, and
    the embedding of the functions not modelled above. *)

(** The level a difficulty stage settles on: the last level, in table
    order, whose check succeeds. *)
Definition last_passing {A : Type}
    (check : list (string * A) → gmap string CritterMeta → DetectionInfo)
    (critters : gmap string CritterMeta)
    (levels : list (string * list (string * A))) : option string :=
  fst <$> last (filter (λ level, di_success (check level.2 critters) = true) levels).

(** The results a difficulty stage appends: one per level, tagged with
    the level. *)
Definition level_results {A : Type}
    (check : list (string * A) → gmap string CritterMeta → DetectionInfo)
    (critters : gmap string CritterMeta)
    (levels : list (string * list (string * A))) : list DetectionInfo :=
  (λ level, set_di_difficulty (check level.2 critters) level.1) <$> levels.

(** [x] if it is set, else [y]. *)
Definition or_else {A : Type} (x y : option A) : option A :=
  match x with
  | Some _ => x
  | None => y
  end.

(** A list of numbers in ascending order. *)
Inductive ascending : list Q → Prop :=
  | ascending_nil : ascending []
  | ascending_cons x l : Forall (Qle x) l → ascending l → ascending (x :: l).

(** ** Detection from the last log line *)

Section AnalyzeLastLine.

(** [Detection.detect_line], which is not among the sources: the map and
    the difficulty it reads off a log line, each possibly [None]. *)
Variable detect_line : string → option string * option string.

(** The map is known: it is neither [None] nor the placeholder
    ["Combat"]. *)
Definition map_known (self : Combat.t) : bool :=
  bool_decide (Combat.map self ≠ None)
  && bool_decide (Combat.map self ≠ Some "Combat").

(** [analyze_last_line].  The result [None] stands for the [IndexError]
    that [self.log_data[0]] raises on an empty log. *)
Definition analyze_last_line (self : Combat.t) : option Combat.t :=
  if map_known self && bool_decide (Combat.difficulty self ≠ None) then Some self
  else
    match Combat.log_data self with
    | [] => None
    | line :: _ =>
        let '(_map, _difficulty) := detect_line line in
        let self :=
          if bool_decide (Combat.map self = None)
             || bool_decide (Combat.map self = Some "Combat")
          then set_map self _map
          else self in
        let self :=
          if bool_decide (Combat.difficulty self = None)
          then set_difficulty self _difficulty
          else self in
        Some self
    end.

End AnalyzeLastLine.

(** The record [analyze_players] leaves for [busy_combat]. *)
Definition busy_combat_analyzed : Combat.t :=
  match analyze_players [("Torpedo", "Torpedo boat")] busy_combat with
  | Returned self' => self'
  | Raised _ => busy_combat
  end.

(** The marker [k] occurs in one of the events: some event is
    [a + k + b]. *)
Definition occurs_in (k : string) (player_events : list string) : Prop :=
  ∃ event a b, event ∈ player_events ∧ event = a +:+ k +:+ b.

(** ** Timestamps *)

From Stdlib Require Import Ascii.

(** [s.replace(old, new, count)] for one-character [old] and [new]: the
    first [count] occurrences are replaced. *)
Fixpoint replace_char (old new : Ascii.ascii) (count : nat) (s : string) : string :=
  match s with
  | EmptyString => EmptyString
  | String c rest =>
      match count with
      | O => s
      | S n =>
          if Ascii.eqb c old
          then String new (replace_char old new n rest)
          else String c (replace_char old new count rest)
      end
  end.

(** [s.split(sep)[0]] for a one-character [sep]: the text before the
    first separator, all of [s] when there is none. *)
Fixpoint before_char (sep : Ascii.ascii) (s : string) : string :=
  match s with
  | EmptyString => EmptyString
  | String c rest =>
      if Ascii.eqb c sep then EmptyString else String c (before_char sep rest)
  end.

Definition format_timestamp (timestamp : string) : string :=
  before_char "."%char (replace_char ":"%char "_"%char 1 (replace_char ":"%char "-"%char 2 timestamp)).

(** The character [c] does not occur in [s]. *)
Fixpoint char_free (c : Ascii.ascii) (s : string) : bool :=
  match s with
  | EmptyString => true
  | String c' rest => negb (Ascii.eqb c' c) && char_free c rest
  end.

(** ** Composition and repair of log files *)

Section LogFiles.

(** The text of [int(time())], the name of the temporary file. *)
Variable stamp : string.

(** The paths that can be opened for writing, as for [extract_bytes]. *)
Variable writable : string → bool.

(** [f'{templog_folder_path}\\{int(time())}'] *)
Definition tempfile_path (templog_folder_path : string) : string :=
  templog_folder_path +:+ "\" +:+ stamp.

(** The loop of [compose_logfile] over the intervals: the bytes written
    to the temporary file when it ends, and how it ends. *)
Fixpoint compose_loop (content : list Byte.byte) (intervals : list (Z * Z))
    (written : list Byte.byte) : list Byte.byte * outcome unit :=
  match intervals with
  | [] => (written, Returned tt)
  | (start_pos, end_pos) :: rest =>
      match seek_read content start_pos (end_pos - start_pos) with
      | Raised e => (written, Raised e)
      | Returned extracted_bytes =>
          compose_loop content rest (written ++ extracted_bytes)
      end
  end.

(** [compose_logfile].  The source is opened first, then the temporary
    file, which raises when that path cannot be written.  Opening the
    temporary file for writing creates or empties it; what the source
    file then yields is its content after that, so the content it had
    unless the two paths are the same.  The file is closed, with what was
    written, also when a read raises.  [shutil.copyfile] raises an
    [OSError] when the temporary file is the target (its
    [SameFileError]) and when the target cannot be opened for writing. *)
Definition compose_logfile (fs : gmap string (list Byte.byte))
    (source_path target_path : string) (intervals : list (Z * Z))
    (templog_folder_path : string) : gmap string (list Byte.byte) * outcome unit :=
  let tempfile_path := tempfile_path templog_folder_path in
  match fs !! source_path with
  | None => (fs, Raised FileNotFoundError)
  | Some _ =>
      if negb (writable tempfile_path) then (fs, Raised OSError)
      else
        let fs := <[tempfile_path := []]> fs in
        let content := default [] (fs !! source_path) in
        let '(written, result) := compose_loop content intervals [] in
        let fs := <[tempfile_path := written]> fs in
        match result with
        | Raised e => (fs, Raised e)
        | Returned _ =>
            if decide (tempfile_path = target_path) then (fs, Raised OSError)
            else if writable target_path
                 then (<[target_path := written]> fs, Returned tt)
                 else (fs, Raised OSError)
        end
  end.

(** The lines a file opened in binary mode is iterated by: each ends with
    its newline byte, except possibly the last. *)
Fixpoint lines_of (content : list Byte.byte) : list (list Byte.byte) :=
  match content with
  | [] => []
  | b :: rest =>
      if Byte.eqb b Byte.x0a then [b] :: lines_of rest
      else match lines_of rest with
           | [] => [[b]]
           | line :: lines => (b :: line) :: lines
           end
  end.

(** The bytes that [bytes.strip()] removes. *)
Definition is_space (b : Byte.byte) : bool :=
  Byte.eqb b Byte.x20 || Byte.eqb b Byte.x09
  || Byte.eqb b Byte.x0a || Byte.eqb b Byte.x0d
  || Byte.eqb b Byte.x0b || Byte.eqb b Byte.x0c.

(** [line.strip() == b''] *)
Definition is_blank (line : list Byte.byte) : bool := forallb is_space line.

Fixpoint starts_with (p l : list Byte.byte) : bool :=
  match p, l with
  | [], _ => true
  | _ :: _, [] => false
  | x :: p', y :: l' => Byte.eqb x y && starts_with p' l'
  end.

(** [p in l] on bytes. *)
Fixpoint contains_bytes (p l : list Byte.byte) : bool :=
  starts_with p l
  || match l with
     | [] => false
     | _ :: l' => contains_bytes p l'
     end.

(** [l.replace(old, new)] for a non-empty [old], from the left and
    without overlap: [skip] bytes of a replaced occurrence are still to be
    passed over. *)
Fixpoint replace_from (old new l : list Byte.byte) (skip : nat) : list Byte.byte :=
  match l with
  | [] => []
  | x :: rest =>
      match skip with
      | S n => replace_from old new rest n
      | O =>
          if starts_with old l
          then new ++ replace_from old new rest (length old - 1)
          else x :: replace_from old new rest 0
      end
  end.

(** [l.replace(old, new)]; an empty [old] matches before every byte and
    at the end. *)
Definition bytes_replace (old new l : list Byte.byte) : list Byte.byte :=
  match old with
  | [] => new ++ flat_map (λ x, x :: new) l
  | _ :: _ => replace_from old new l 0
  end.

(** [patches] *)
Definition patches : list (list Byte.byte * list Byte.byte) :=
  [(String.list_byte_of_string "Rehona, Sister of the Qowat Milat",
    String.list_byte_of_string "Rehona - Sister of the Qowat Milat")].

(** What the loop of [repair_logfile] writes for one line. *)
Definition repair_line (line : list Byte.byte) : list Byte.byte :=
  if is_blank line then []
  else
    flat_map (λ patch : list Byte.byte * list Byte.byte,
                if contains_bytes patch.1 line
                then bytes_replace patch.1 patch.2 line
                else line) patches.

(** [repair_logfile], with the temporary file as in [compose_logfile]. *)
Definition repair_logfile (fs : gmap string (list Byte.byte))
    (path templog_folder_path : string) : gmap string (list Byte.byte) * outcome unit :=
  let tempfile_path := tempfile_path templog_folder_path in
  match fs !! path with
  | None => (fs, Raised FileNotFoundError)
  | Some _ =>
      if negb (writable tempfile_path) then (fs, Raised OSError)
      else
        let fs := <[tempfile_path := []]> fs in
        let content := default [] (fs !! path) in
        let written := flat_map repair_line (lines_of content) in
        let fs := <[tempfile_path := written]> fs in
        if decide (tempfile_path = path) then (fs, Raised OSError)
        else if writable path
             then (<[path := written]> fs, Returned tt)
             else (fs, Raised OSError)
  end.

End LogFiles.

(** A small file system with one log. *)
Definition sample_log : list Byte.byte :=
  String.list_byte_of_string "line one
Rehona, Sister of the Qowat Milat hits

last line".

Definition sample_fs : gmap string (list Byte.byte) :=
  {[ "/logs/combat.log" := sample_log ]}.

(** A log with two blank lines, one empty and one of two spaces, and
    without the broken string; a file system that holds it. *)
Definition spaced_log : list Byte.byte :=
  String.list_byte_of_string "first

  
second
".

Definition spaced_fs : gmap string (list Byte.byte) :=
  {[ "/logs/spaced.log" := spaced_log ]}.

(** The bytes of [content] in the range from [interval.1] up to, not
    including, [interval.2]. *)
Definition byte_range (content : list Byte.byte) (interval : Z * Z) : list Byte.byte :=
  take (Z.to_nat (interval.2 - interval.1)) (drop (Z.to_nat interval.1) content).

(** The interval is one [compose_logfile] can read: it starts at a
    position that is not negative and does not end before it starts. *)
Definition readable (interval : Z * Z) : Prop :=
  (0 ≤ interval.1)%Z ∧ (interval.1 ≤ interval.2)%Z.

(** The interval is a byte range of [content]: it starts at a position
    of the file and ends at a later one, at most the end of the file. *)
Definition within (content : list Byte.byte) (interval : Z * Z) : Prop :=
  (0 ≤ interval.1)%Z ∧ (interval.1 ≤ interval.2)%Z
  ∧ (interval.2 ≤ Z.of_nat (length content))%Z.

(** The newline byte. *)
Definition newline : Byte.byte := Byte.x0a.

(** The broken string of the one patch of [repair_logfile]. *)
Definition broken_string : list Byte.byte :=
  String.list_byte_of_string "Rehona, Sister of the Qowat Milat".

(** ** The hull check in binary64

    [check_difficulty_damage] once more, with the numbers of the code:
    the thresholds and the hull samples are binary64 values, the kernel's
    [float], so that the product [hull_value * (1 - var)] rounds as it
    does in Python and the comparison [low < med] decides as it does
    there.  The thresholds of the reference table are taken as the
    binary64 values Python multiplies with. *)

From Stdlib Require Import Floats.

(** Decimal constants such as [0.20] stand for the nearest binary64
    number, as they do in Python. *)
Set Warnings "-inexact-float".

Module Binary64.

(** [CritterMeta] with binary64 samples. *)
Record CritterMeta := mkCritterMeta {
  cm_name : string;
  cm_count : Z;
  cm_hull_values : list float
}.

(** [DetectionInfo] with binary64 values; an argument that a call site
    does not pass is [None]. *)
Record DetectionInfo := mkDetectionInfo {
  di_success : bool;
  di_type : option string;
  di_identificators : option (list string);
  di_target_value : option float;
  di_retrieved_value : option float;
  di_step : option string;
  di_map : option string;
  di_difficulty : option string
}.

(** Ascending order of samples none of which is a [nan]. *)
Fixpoint insert_sorted (x : float) (l : list float) : list float :=
  match l with
  | [] => [x]
  | y :: rest => if (x <=? y)%float then x :: l else y :: insert_sorted x rest
  end.

Definition sort_samples (l : list float) : list float := foldr insert_sorted [] l.

(** numpy's linear interpolation between two neighbours [a] and [b] at
    the fraction [t]: [a + (b - a) * t], and [b - (b - a) * (1 - t)] from
    [t = 0.5] on, each operation rounded. *)
Definition lerp (a b t : float) : float :=
  let diff_b_a := (b - a)%float in
  if (0.5 <=? t)%float then (b - diff_b_a * (1 - t))%float
  else (a + diff_b_a * t)%float.

(** [numpy.percentile(values, 50)] on a list of floats, with numpy's
    default linear method (that of numpy 1.22 and later).  An empty list
    raises an [IndexError].  A list
    with a [nan] gives [nan].  Otherwise the samples are put in order;
    the virtual index [(n - 1) * 0.5] is a whole number for an odd [n]
    and lies halfway between two indices for an even one, so the
    neighbours are the entries at its floor and the one after, and the
    fraction [gamma] is [0] or [0.5]; a virtual index that reaches the
    last index, which happens for [n = 1], takes the last entry for both
    neighbours and the fraction [1]. *)
Definition percentile_50 (values : list float) : outcome float :=
  match values with
  | [] => Raised IndexError
  | _ :: _ =>
      if existsb is_nan values then Returned nan
      else
        let arr := sort_samples values in
        let n := Z.of_nat (length arr) in
        let above_bounds := (n - 1 <=? (n - 1) / 2)%Z in
        let previous_index := if above_bounds then (n - 1)%Z else ((n - 1) / 2)%Z in
        let next_index := if above_bounds then (n - 1)%Z else ((n - 1) / 2 + 1)%Z in
        let gamma :=
          if above_bounds then 1%float
          else if Z.even (n - 1) then 0%float else 0.5%float in
        match arr !! Z.to_nat previous_index, arr !! Z.to_nat next_index with
        | Some previous, Some next => Returned (lerp previous next gamma)
        | _, _ => Raised IndexError
        end
  end.

(** [var = 0.20] *)
Definition var : float := 0.20%float.

(** What one iteration of the [for] loop does: it goes on to the next
    entity, returns a result, or raises. *)
Inductive step : Type :=
  | Continue
  | Return (r : DetectionInfo)
  | Raise (e : exn).

Definition damage_step (combat_meta : gmap string CritterMeta)
    (entity_name : string) (hull_value : float) : step :=
  match combat_meta !! entity_name with
  | None =>
      Return (mkDetectionInfo false (Some "difficulty") None None None
                (Some "damage") None None)
  | Some entity_metadata =>
      match percentile_50 (cm_hull_values entity_metadata) with
      | Raised e => Raise e
      | Returned med =>
          let low := (hull_value * (1 - var))%float in
          let valid := (low <? med)%float in
          if negb valid
          then Return (mkDetectionInfo false (Some "difficulty") (Some [entity_name])
                         (Some low) (Some med) (Some "damage") None None)
          else Continue
      end
  end.

Fixpoint damage_loop (combat_meta : gmap string CritterMeta)
    (items : list (string * float)) : step :=
  match items with
  | [] => Continue
  | (entity_name, hull_value) :: rest =>
      match damage_step combat_meta entity_name hull_value with
      | Continue => damage_loop combat_meta rest
      | ended => ended
      end
  end.

Definition check_difficulty_damage (difficulty_data : list (string * float))
    (combat_meta : gmap string CritterMeta) : outcome DetectionInfo :=
  match damage_loop combat_meta difficulty_data with
  | Continue =>
      Returned (mkDetectionInfo true (Some "difficulty") (Some (difficulty_data.*1))
                  None None (Some "damage") None None)
  | Return r => Returned r
  | Raise e => Raised e
  end.

(** An entity of a level passes the hull check when it is present, its
    samples have a 50th percentile, and the lowered threshold, the
    rounded product of the threshold and [1 - var], is below it. *)
Definition damage_entity_passes (combat_meta : gmap string CritterMeta)
    (item : string * float) : Prop :=
  ∃ entity_metadata med,
    combat_meta !! item.1 = Some entity_metadata
    ∧ percentile_50 (cm_hull_values entity_metadata) = Returned med
    ∧ (item.2 * (1 - var) <? med)%float = true.

(** An entity of a level is present without a single sample. *)
Definition damage_entity_unsampled (combat_meta : gmap string CritterMeta)
    (item : string * float) : Prop :=
  ∃ entity_metadata,
    combat_meta !! item.1 = Some entity_metadata
    ∧ cm_hull_values entity_metadata = [].

(** The rational number a binary64 value stands for; [None] for an
    infinity and for [nan]. *)
Definition exact (x : float) : option Q :=
  match Prim2SF x with
  | S754_zero _ => Some 0%Q
  | S754_finite s m e =>
      Some ((if s then - inject_Z (Z.pos m) else inject_Z (Z.pos m))
            * (if (e <? 0)%Z then / inject_Z (2 ^ (- e)) else inject_Z (2 ^ e)))%Q
  | S754_infinity _ | S754_nan => None
  end.

(** A cube with one hull sample, the binary64 value next above [2.4]. *)
Definition cube_meta : gmap string CritterMeta :=
  {[ "Cube" := mkCritterMeta "Cube" 1 [2.4000000000000004%float] ]}.

(** Three cubes and a sphere that was seen but has no sample. *)
Definition fleet_meta : gmap string CritterMeta :=
  {[ "Cube" := mkCritterMeta "Cube" 3 [900; 850; 810]%float;
     "Sphere" := mkCritterMeta "Sphere" 1 [] ]}.

End Binary64.

(** * Properties *)

(** ** Death-count check *)

Lemma deaths_valid_positive (r c : Z) :
  0 < r → deaths_valid r c = true ↔ c = r.
Proof.
  intros Hr. unfold deaths_valid.
  destruct (Z.ltb_spec 0 r); [| lia].
  rewrite Z.eqb_eq. split; congruence.
Qed.

Lemma deaths_valid_zero (c : Z) : deaths_valid 0 c = true ↔ c ≠ 0.
Proof.
  unfold deaths_valid. simpl. rewrite negb_true_iff, Z.eqb_neq. reflexivity.
Qed.

Lemma deaths_step_None combat_meta entity_name r :
  deaths_step combat_meta entity_name r = None
  ↔ deaths_entity_passes combat_meta (entity_name, r).
Proof.
  unfold deaths_step, deaths_entity_passes. simpl.
  destruct (combat_meta !! entity_name) as [em|] eqn:E.
  - destruct (deaths_valid r (cm_count em)) eqn:V; split.
    + intros _. exists em. auto.
    + auto.
    + discriminate.
    + intros (em' & Hem & Hv). congruence.
  - split; [discriminate|]. intros (em' & Hem & _). discriminate.
Qed.

Lemma deaths_step_success combat_meta entity_name r d :
  deaths_step combat_meta entity_name r = Some d → di_success d = false.
Proof.
  unfold deaths_step.
  destruct (combat_meta !! entity_name) as [em|].
  - destruct (deaths_valid r (cm_count em)); [discriminate|].
    intros [= <-]. reflexivity.
  - intros [= <-]. reflexivity.
Qed.

Lemma deaths_loop_None combat_meta items :
  deaths_loop combat_meta items = None
  ↔ Forall (deaths_entity_passes combat_meta) items.
Proof.
  induction items as [|[e r] rest IH]; simpl.
  - split; [constructor | reflexivity].
  - destruct (deaths_step combat_meta e r) as [d|] eqn:S.
    + split; [discriminate|]. intros HF. inversion HF as [|? ? Hp _]; subst.
      apply deaths_step_None in Hp. congruence.
    + rewrite IH. split.
      * intros HF. constructor; [by apply deaths_step_None | done].
      * intros HF. by inversion HF.
Qed.

Lemma deaths_loop_success combat_meta items d :
  deaths_loop combat_meta items = Some d → di_success d = false.
Proof.
  induction items as [|[e r] rest IH]; simpl; [discriminate|].
  destruct (deaths_step combat_meta e r) as [d'|] eqn:S.
  - intros [= <-]. eapply deaths_step_success; eauto.
  - exact IH.
Qed.

Lemma deaths_loop_prefix combat_meta pre post :
  Forall (deaths_entity_passes combat_meta) pre →
  deaths_loop combat_meta (pre ++ post) = deaths_loop combat_meta post.
Proof.
  induction 1 as [|[e r] rest Hp _ IH]; simpl; [reflexivity|].
  apply deaths_step_None in Hp. rewrite Hp. exact IH.
Qed.

(** C1. [check_difficulty_deaths]: the level succeeds exactly when every
    required entity passes; the first required entity that is absent from
    the metadata (all entities before it passing) ends the scan at once
    with a failure of step "existence", whatever follows it; a present
    entity with a positive requirement [r] passes exactly on the count [r]
    (so [r - 1] and [r + 1] fail), and with requirement [0] exactly on a
    nonzero count. *)
Theorem check_difficulty_deaths_spec
    (difficulty_data : list (string * Z)) (combat_meta : gmap string CritterMeta) :
  (di_success (check_difficulty_deaths difficulty_data combat_meta) = true
     ↔ Forall (deaths_entity_passes combat_meta) difficulty_data)
  ∧ (∀ pre entity_name r post,
       difficulty_data = pre ++ (entity_name, r) :: post →
       Forall (deaths_entity_passes combat_meta) pre →
       combat_meta !! entity_name = None →
       check_difficulty_deaths difficulty_data combat_meta
       = mkDetectionInfo false (Some "difficulty") (Some [entity_name])
           None None (Some "existence") None None)
  ∧ (∀ entity_name r entity_metadata,
       combat_meta !! entity_name = Some entity_metadata →
       (deaths_entity_passes combat_meta (entity_name, r)
          ↔ deaths_valid r (cm_count entity_metadata) = true)
       ∧ (0 < r → (deaths_valid r (cm_count entity_metadata) = true
                     ↔ cm_count entity_metadata = r))
       ∧ (r = 0 → (deaths_valid r (cm_count entity_metadata) = true
                     ↔ cm_count entity_metadata ≠ 0)))
  ∧ (∀ r, 0 < r →
       deaths_valid r r = true
       ∧ deaths_valid r (r - 1) = false
       ∧ deaths_valid r (r + 1) = false)
  ∧ deaths_valid 0 0 = false.
Proof.
  split; [|split; [|split; [|split]]].
  - unfold check_difficulty_deaths.
    destruct (deaths_loop combat_meta difficulty_data) as [d|] eqn:L.
    + rewrite (deaths_loop_success _ _ _ L). split; [discriminate|].
      intros HF. apply deaths_loop_None in HF. congruence.
    + simpl. split; [|reflexivity]. intros _. by apply deaths_loop_None.
  - intros pre e r post -> Hpre Habs.
    unfold check_difficulty_deaths.
    rewrite deaths_loop_prefix by done. simpl.
    unfold deaths_step. rewrite Habs. reflexivity.
  - intros e r em Hem. split; [|split].
    + unfold deaths_entity_passes. simpl. split.
      * intros (em' & Hem' & Hv). congruence.
      * intros Hv. eauto.
    + intros Hr. by apply deaths_valid_positive.
    + intros ->. apply deaths_valid_zero.
  - intros r Hr. split; [|split].
    + by apply deaths_valid_positive.
    + apply not_true_is_false. rewrite deaths_valid_positive by done. lia.
    + apply not_true_is_false. rewrite deaths_valid_positive by done. lia.
  - reflexivity.
Qed.

(** ** Hull-damage check *)

Lemma Qltb_lt (x y : Q) : Qltb x y = true ↔ (x < y)%Q.
Proof.
  unfold Qltb. rewrite Qlt_alt.
  destruct (x ?= y)%Q; split; congruence.
Qed.

Lemma lowered_threshold (t : Q) : (t * (1 - var) == 0.8 * t)%Q.
Proof. unfold var. ring. Qed.

Example percentile_50_odd : Qred <$> percentile_50 [3; 1; 2]%Q = Some 2%Q.
Proof. reflexivity. Qed.

Example percentile_50_even :
  Qred <$> percentile_50 [4; 1; 3; 2]%Q = Some (5 # 2)%Q.
Proof. reflexivity. Qed.

Lemma damage_step_None combat_meta entity_name t :
  damage_step combat_meta entity_name t = None
  ↔ damage_entity_passes combat_meta (entity_name, t).
Proof.
  unfold damage_step, damage_entity_passes. simpl.
  destruct (combat_meta !! entity_name) as [em|] eqn:E.
  - destruct (percentile_50 (cm_hull_values em)) as [med|] eqn:P; simpl.
    + destruct (Qltb (t * (1 - var)) med) eqn:V; split.
      * intros _. exists em, med. repeat split; try done.
        apply Qltb_lt in V. rewrite lowered_threshold in V. lra.
      * done.
      * discriminate.
      * intros (em' & med' & Hem & Hp & Hlt).
        assert (em' = em) as -> by congruence.
        assert (med' = med) as -> by congruence.
        assert (Qltb (t * (1 - var)) med = true); [|congruence].
        apply Qltb_lt. rewrite lowered_threshold. lra.
    + split; [discriminate|].
      intros (em' & med' & Hem & Hp & _). congruence.
  - split; [discriminate|]. intros (em' & med' & Hem & _). discriminate.
Qed.


Lemma damage_loop_None combat_meta items :
  damage_loop combat_meta items = None
  ↔ Forall (damage_entity_passes combat_meta) items.
Proof.
  induction items as [|[e t] rest IH]; simpl.
  - split; [constructor | reflexivity].
  - destruct (damage_step combat_meta e t) as [d|] eqn:S.
    + split; [discriminate|]. intros HF. inversion HF as [|? ? Hp _]; subst.
      apply damage_step_None in Hp. congruence.
    + rewrite IH. split.
      * intros HF. constructor; [by apply damage_step_None | done].
      * intros HF. by inversion HF.
Qed.


(** ** Hull-damage check in binary64 *)

Section HullCheckBinary64.

Import Binary64.

Lemma ltb_irreflexive (x : float) : (x <? x)%float = false.
Proof.
  rewrite ltb_spec. unfold SFltb, SFcompare.
  destruct (Prim2SF x) as [[]|[]| |[] m e]; try reflexivity.
  all: rewrite Z.compare_refl, ?Pos.compare_cont_refl; reflexivity.
Qed.

Lemma length_insert_sorted x l :
  length (Binary64.insert_sorted x l) = S (length l).
Proof.
  induction l as [|y l IH]; [done|]. simpl.
  destruct (x <=? y)%float; simpl; by rewrite ?IH.
Qed.

Lemma length_sort_samples l : length (Binary64.sort_samples l) = length l.
Proof.
  induction l as [|x l IH]; [done|]. simpl.
  by rewrite length_insert_sorted, IH.
Qed.

Lemma insert_sorted_samples x l : Binary64.insert_sorted x l ≡ₚ x :: l.
Proof.
  induction l as [|y l IH]; [done|]. simpl.
  destruct (x <=? y)%float; [done|]. rewrite IH. apply Permutation_swap.
Qed.

Lemma sort_samples_samples l : Binary64.sort_samples l ≡ₚ l.
Proof.
  induction l as [|x l IH]; [done|]. simpl.
  by rewrite insert_sorted_samples, IH.
Qed.

(** [numpy.percentile] raises on the empty list only; on a list without
    [nan] it interpolates between two of the samples. *)
Lemma percentile_50_raises (values : list float) (e : exn) :
  Binary64.percentile_50 values = Raised e ↔ e = IndexError ∧ values = [].
Proof.
  destruct values as [|x rest]; simpl.
  - split.
    + intros H. by injection H as <-.
    + by intros [-> _].
  - split; [|intros [_ ?]; discriminate].
    destruct (is_nan x || existsb is_nan rest); [discriminate|].
    pose proof (length_sort_samples (x :: rest)) as Hlen. simpl in Hlen.
    revert Hlen.
    generalize (Binary64.insert_sorted x (Binary64.sort_samples rest)).
    intros arr Hlen.
    remember (Z.of_nat (length arr)) as n eqn:Hn.
    assert (1 ≤ n)%Z as Hpos by lia.
    assert (0 ≤ (n - 1) / 2)%Z as Hhalf by (apply Z.div_pos; lia).
    destruct (Z.leb_spec (n - 1) ((n - 1) / 2)) as [Hone|Hmore].
    + destruct (lookup_lt_is_Some_2 arr (Z.to_nat (n - 1))) as [a Ha]; [lia|].
      rewrite Ha. discriminate.
    + assert ((n - 1) / 2 < n - 1)%Z as Hlt by (apply Z.div_lt_upper_bound; lia).
      destruct (lookup_lt_is_Some_2 arr (Z.to_nat ((n - 1) / 2))) as [a Ha]; [lia|].
      destruct (lookup_lt_is_Some_2 arr (Z.to_nat ((n - 1) / 2 + 1))) as [b Hb]; [lia|].
      rewrite Ha, Hb. discriminate.
Qed.

Lemma percentile_50_between_samples (values : list float) (med : float) :
  Binary64.percentile_50 values = Returned med →
  existsb is_nan values = false →
  ∃ a b t, a ∈ values ∧ b ∈ values ∧ med = Binary64.lerp a b t.
Proof.
  destruct values as [|x rest]; [discriminate|].
  unfold Binary64.percentile_50. intros Hmed Hnan. rewrite Hnan in Hmed.
  cbv zeta in Hmed.
  destruct (Binary64.sort_samples (x :: rest) !! _) as [a|] eqn:Ha; [|discriminate].
  destruct (Binary64.sort_samples (x :: rest) !! _) as [b|] eqn:Hb in Hmed;
    [|discriminate].
  injection Hmed as <-.
  apply list_elem_of_lookup_2 in Ha, Hb.
  rewrite sort_samples_samples in Ha, Hb.
  eexists a, b, _. split; [done|]. split; [done|]. reflexivity.
Qed.

Lemma binary64_step_Continue combat_meta entity_name t :
  Binary64.damage_step combat_meta entity_name t = Continue
  ↔ Binary64.damage_entity_passes combat_meta (entity_name, t).
Proof.
  unfold Binary64.damage_step, Binary64.damage_entity_passes. cbn [fst snd].
  destruct (combat_meta !! entity_name) as [em|] eqn:E.
  - destruct (Binary64.percentile_50 (cm_hull_values em)) as [med|e] eqn:P.
    + cbv zeta. destruct (t * (1 - var) <? med)%float eqn:V; cbn [negb].
      * split; [|done]. intros _. by exists em, med.
      * split; [discriminate|]. intros (em' & med' & Hem & Hp & Hlt).
        injection Hem as <-. rewrite P in Hp. injection Hp as <-. congruence.
    + split; [discriminate|]. intros (em' & med' & Hem & Hp & _).
      injection Hem as <-. congruence.
  - split; [discriminate|]. intros (em' & med' & ? & _). discriminate.
Qed.

Lemma binary64_step_Return combat_meta entity_name t r :
  Binary64.damage_step combat_meta entity_name t = Return r → di_success r = false.
Proof.
  unfold Binary64.damage_step.
  destruct (combat_meta !! entity_name) as [em|]; [|by intros [= <-]].
  destruct (Binary64.percentile_50 _) as [med|e]; [|discriminate].
  cbv zeta. destruct (negb _); [by intros [= <-] | discriminate].
Qed.

Lemma binary64_step_Raise combat_meta entity_name t e :
  Binary64.damage_step combat_meta entity_name t = Raise e
  ↔ e = IndexError ∧ Binary64.damage_entity_unsampled combat_meta (entity_name, t).
Proof.
  unfold Binary64.damage_step, Binary64.damage_entity_unsampled. cbn [fst snd].
  destruct (combat_meta !! entity_name) as [em|] eqn:E.
  - destruct (Binary64.percentile_50 (cm_hull_values em)) as [med|e'] eqn:P.
    + cbv zeta. split.
      * destruct (negb _); discriminate.
      * intros (-> & em' & Hem & Hnil). injection Hem as <-.
        rewrite Hnil in P. discriminate.
    + apply percentile_50_raises in P as [-> Hnil]. split.
      * intros H. injection H as <-. eauto.
      * by intros [-> _].
  - split; [discriminate|]. intros (_ & em' & ? & _). discriminate.
Qed.

Lemma binary64_loop_prefix combat_meta pre post :
  Forall (Binary64.damage_entity_passes combat_meta) pre →
  Binary64.damage_loop combat_meta (pre ++ post) = Binary64.damage_loop combat_meta post.
Proof.
  induction 1 as [|[e t] rest Hp _ IH]; simpl; [reflexivity|].
  apply binary64_step_Continue in Hp. rewrite Hp. exact IH.
Qed.

Lemma binary64_loop_Continue combat_meta items :
  Binary64.damage_loop combat_meta items = Continue
  ↔ Forall (Binary64.damage_entity_passes combat_meta) items.
Proof.
  induction items as [|[e t] rest IH]; simpl.
  - split; [constructor | reflexivity].
  - destruct (Binary64.damage_step combat_meta e t) as [|r|ex] eqn:S.
    + rewrite IH. split.
      * intros HF. constructor; [by apply binary64_step_Continue | done].
      * intros HF. by inversion HF.
    + split; [discriminate|]. intros HF. inversion HF as [|? ? Hp _]; subst.
      apply binary64_step_Continue in Hp. congruence.
    + split; [discriminate|]. intros HF. inversion HF as [|? ? Hp _]; subst.
      apply binary64_step_Continue in Hp. congruence.
Qed.

Lemma binary64_loop_Return combat_meta items r :
  Binary64.damage_loop combat_meta items = Return r → di_success r = false.
Proof.
  induction items as [|[e t] rest IH]; simpl; [discriminate|].
  destruct (Binary64.damage_step combat_meta e t) as [|r'|ex] eqn:S.
  - exact IH.
  - intros [= <-]. by eapply binary64_step_Return.
  - discriminate.
Qed.

Lemma binary64_loop_Raise combat_meta items e :
  Binary64.damage_loop combat_meta items = Raise e
  ↔ e = IndexError
    ∧ ∃ pre item post,
        items = pre ++ item :: post
        ∧ Forall (Binary64.damage_entity_passes combat_meta) pre
        ∧ Binary64.damage_entity_unsampled combat_meta item.
Proof.
  split.
  - induction items as [|[n t] rest IH]; simpl; [discriminate|].
    destruct (Binary64.damage_step combat_meta n t) as [|r'|ex] eqn:S.
    + intros Hrest. destruct (IH Hrest) as (-> & pre & item & post & -> & Hpre & Hitem).
      split; [done|]. exists ((n, t) :: pre), item, post.
      split; [done|]. split; [|done].
      constructor; [by apply binary64_step_Continue | done].
    + discriminate.
    + intros [= <-]. apply binary64_step_Raise in S as [-> Hitem].
      split; [done|]. exists [], (n, t), rest. by repeat split.
  - intros (-> & pre & [n t] & post & -> & Hpre & Hitem).
    rewrite binary64_loop_prefix by done. simpl.
    assert (Binary64.damage_step combat_meta n t = Raise IndexError) as ->
      by (by apply binary64_step_Raise).
    reflexivity.
Qed.

(** C2 (amended). [check_difficulty_damage] in the arithmetic of the
    code.  The level succeeds exactly when every required entity passes.
    The first required entity absent from the metadata ends the scan at
    once with a failure of step "damage".  A present entity with
    threshold [t] passes exactly when [low < med], where [med] is the
    50th percentile of its samples and [low] the binary64 product of [t]
    and [1 - 0.20], which is the binary64 number [0.8]; otherwise the scan
    ends with a failure that carries [low] and [med].  A median equal to
    [low] fails.  The call raises exactly when the first required entity
    that does not pass is present without a sample, and then it raises
    the [IndexError] of [numpy.percentile]; it returns when every entity
    of the metadata has a sample. *)
Theorem check_difficulty_damage_binary64
    (difficulty_data : list (string * float)) (combat_meta : gmap string CritterMeta) :
  ((∃ r, check_difficulty_damage difficulty_data combat_meta = Returned r
         ∧ di_success r = true)
   ↔ Forall (damage_entity_passes combat_meta) difficulty_data)
  ∧ (∀ pre entity_name t post,
       difficulty_data = pre ++ (entity_name, t) :: post →
       Forall (damage_entity_passes combat_meta) pre →
       combat_meta !! entity_name = None →
       check_difficulty_damage difficulty_data combat_meta
       = Returned (mkDetectionInfo false (Some "difficulty") None None None
                     (Some "damage") None None))
  ∧ (∀ entity_name t entity_metadata,
       combat_meta !! entity_name = Some entity_metadata →
       damage_entity_passes combat_meta (entity_name, t)
       ↔ ∃ med, percentile_50 (cm_hull_values entity_metadata) = Returned med
                ∧ (t * 0.8 <? med)%float = true)
  ∧ (∀ pre entity_name t post entity_metadata med,
       difficulty_data = pre ++ (entity_name, t) :: post →
       Forall (damage_entity_passes combat_meta) pre →
       combat_meta !! entity_name = Some entity_metadata →
       percentile_50 (cm_hull_values entity_metadata) = Returned med →
       (t * 0.8 <? med)%float = false →
       check_difficulty_damage difficulty_data combat_meta
       = Returned (mkDetectionInfo false (Some "difficulty") (Some [entity_name])
                     (Some (t * 0.8)%float) (Some med) (Some "damage") None None))
  ∧ (1 - var = 0.8)%float
  ∧ (∀ t : float, (t * 0.8 <? t * 0.8)%float = false)
  ∧ (∀ e,
       check_difficulty_damage difficulty_data combat_meta = Raised e
       ↔ e = IndexError
         ∧ ∃ pre item post,
             difficulty_data = pre ++ item :: post
             ∧ Forall (damage_entity_passes combat_meta) pre
             ∧ damage_entity_unsampled combat_meta item)
  ∧ ((∀ entity_name entity_metadata,
        combat_meta !! entity_name = Some entity_metadata →
        cm_hull_values entity_metadata ≠ []) →
     ∃ r, check_difficulty_damage difficulty_data combat_meta = Returned r).
Proof.
  assert ((1 - var = 0.8)%float) as Hvar by reflexivity.
  split; [|split; [|split; [|split; [|split; [|split; [|split]]]]]].
  - unfold check_difficulty_damage.
    destruct (damage_loop combat_meta difficulty_data) as [|r|e] eqn:L.
    + split; [intros _; by apply binary64_loop_Continue | eauto].
    + split.
      * intros (r' & [= <-] & Hs).
        rewrite (binary64_loop_Return _ _ _ L) in Hs. discriminate.
      * intros HF. apply binary64_loop_Continue in HF. congruence.
    + split; [intros (r' & ? & _); discriminate|].
      intros HF. apply binary64_loop_Continue in HF. congruence.
  - intros pre n t post -> Hpre Habs. unfold check_difficulty_damage.
    rewrite binary64_loop_prefix by done. simpl.
    unfold damage_step. rewrite Habs. reflexivity.
  - intros n t em Hem. unfold damage_entity_passes. cbn [fst snd]. rewrite Hvar. split.
    + intros (em' & med & Hem' & Hp & Hlt).
      assert (em' = em) as -> by congruence. eauto.
    + intros (med & Hp & Hlt). eauto.
  - intros pre n t post em med -> Hpre Hem Hp Hlow. unfold check_difficulty_damage.
    rewrite binary64_loop_prefix by done. simpl.
    unfold damage_step. rewrite Hem, Hp, Hvar, Hlow. reflexivity.
  - exact Hvar.
  - intros t. apply ltb_irreflexive.
  - intros e. unfold check_difficulty_damage.
    destruct (damage_loop combat_meta difficulty_data) as [|r|e'] eqn:L.
    + split; [discriminate|]. intros He. apply binary64_loop_Raise in He. congruence.
    + split; [discriminate|]. intros He. apply binary64_loop_Raise in He. congruence.
    + split.
      * intros [= <-]. by apply binary64_loop_Raise.
      * intros He. apply binary64_loop_Raise in He. congruence.
  - intros Hsampled. unfold check_difficulty_damage.
    destruct (damage_loop combat_meta difficulty_data) as [|r|e] eqn:L; eauto.
    apply binary64_loop_Raise in L as (_ & pre & item & post & _ & _ & em & Hem & Hnil).
    by destruct (Hsampled _ _ Hem).
Qed.

(** C2, as stated, fails.  The one sample of the cube, and so its median,
    is the binary64 number next above [2.4]: it is strictly greater than
    [0.8 * 3].  The product of [3] and [1 - 0.20] rounds to that same
    number, so [low < med] is false and the level fails. *)
Lemma median_above_threshold_fails :
  percentile_50 [2.4000000000000004%float] = Returned 2.4000000000000004%float
  ∧ (∃ t med,
       exact 3 = Some t ∧ exact 2.4000000000000004 = Some med ∧ (0.8 * t < med)%Q)
  ∧ check_difficulty_damage [("Cube", 3%float)] cube_meta
    = Returned (mkDetectionInfo false (Some "difficulty") (Some ["Cube"])
                  (Some 2.4000000000000004%float) (Some 2.4000000000000004%float)
                  (Some "damage") None None).
Proof.
  split; [vm_compute; reflexivity|]. split.
  - eexists _, _. split; [vm_compute; reflexivity|].
    split; [vm_compute; reflexivity|]. vm_compute. reflexivity.
  - vm_compute. reflexivity.
Qed.

(** Medians as numpy computes them, a level that passes, a level at whose
    computed threshold the median lies, and a level with an entity that
    has no sample. *)
Example check_difficulty_damage_binary64_runs :
  percentile_50 [3; 1; 2]%float = Returned 2%float
  ∧ percentile_50 [4; 1; 3; 2]%float = Returned 2.5%float
  ∧ percentile_50 [] = Raised IndexError
  ∧ di_success <$> option_of (check_difficulty_damage [("Cube", 1000%float)] fleet_meta)
    = Some true
  ∧ di_success <$> option_of (check_difficulty_damage [("Cube", 1062.5%float)] fleet_meta)
    = Some false
  ∧ di_success <$> option_of (check_difficulty_damage [("Cube", 1062%float)] fleet_meta)
    = Some true
  ∧ check_difficulty_damage [("Cube", 1000%float); ("Sphere", 10%float)] fleet_meta
    = Raised IndexError
  ∧ di_success <$> option_of (check_difficulty_damage [("Probe", 10%float); ("Sphere", 10%float)] fleet_meta)
    = Some false.
Proof. repeat split; vm_compute; reflexivity. Qed.

End HullCheckBinary64.

Example check_difficulty_deaths_runs :
  let meta : gmap string CritterMeta :=
    {[ "Cube" := mkCritterMeta "Cube" 3 [900; 800; 700]%Q ]} in
  di_success (check_difficulty_deaths [("Cube", 3)] meta) = true
  ∧ di_success (check_difficulty_deaths [("Cube", 2)] meta) = false
  ∧ di_success (check_difficulty_deaths [("Cube", 0)] meta) = true
  ∧ di_step (check_difficulty_deaths [("Cube", 3); ("Sphere", 1); ("Cube", 9)] meta)
    = Some "existence".
Proof. repeat split; vm_compute; reflexivity. Qed.

(** ** Map and difficulty detection *)

Section DetectionProperties.

Variable get_entity_name : string → string.
Variable MAP_IDENTIFIERS_EXISTENCE : gmap string MapData.
Variable MAP_DIFFICULTY_ENTITY_DEATH_COUNTS :
  gmap string (list (string * list (string * Z))).
Variable MAP_DIFFICULTY_ENTITY_HULL_COUNTS :
  gmap string (list (string * list (string * Q))).
Variable set_iteration : gset string → list string.

Local Abbreviation critters_of := (build_critters get_entity_name).
Local Abbreviation instances := (instances_of get_entity_name).
Local Abbreviation aggregate := (aggregate_of get_entity_name).
Local Abbreviation detect :=
  (detect_map get_entity_name MAP_IDENTIFIERS_EXISTENCE
     MAP_DIFFICULTY_ENTITY_DEATH_COUNTS MAP_DIFFICULTY_ENTITY_HULL_COUNTS
     set_iteration).

(** The canonical name of a non-player row. *)
Local Abbreviation canonical entity := (get_entity_name (npc_id entity)).

Lemma build_critters_snoc children entity :
  critters_of (children ++ [entity])
  = critters_step get_entity_name (critters_of children) entity.
Proof. unfold build_critters. by rewrite foldl_app. Qed.

Lemma instances_of_snoc n children entity :
  instances n (children ++ [entity])
  = instances n children ++ (if decide (canonical entity = n) then [entity] else []).
Proof.
  unfold instances_of. rewrite filter_app. f_equal.
Qed.

Lemma build_critters_lookup children n :
  critters_of children !! n = aggregate n children.
Proof.
  induction children as [|entity children IH] using rev_ind.
  - reflexivity.
  - rewrite build_critters_snoc. unfold critters_step, aggregate_of.
    rewrite instances_of_snoc.
    destruct (decide (canonical entity = n)) as [Heq|Hne].
    + rewrite Heq, IH. unfold aggregate_of.
      destruct (instances n children) as [|row rows] eqn:E.
      * rewrite lookup_insert_eq. reflexivity.
      * rewrite lookup_insert_eq. unfold add_critter. simpl.
        rewrite fmap_app. simpl. rewrite !length_app. simpl.
        repeat f_equal. lia.
    + rewrite app_nil_r.
      destruct (critters_of children !! canonical entity);
        rewrite lookup_insert_ne by done; exact IH.
Qed.

Lemma build_critters_dom children n :
  n ∈ dom (critters_of children) ↔ ∃ entity, entity ∈ children ∧ canonical entity = n.
Proof.
  rewrite elem_of_dom, build_critters_lookup. unfold aggregate_of.
  destruct (instances n children) as [|row rows] eqn:E.
  - split; [intros [? ?]; discriminate|].
    intros (entity & Hin & Hn).
    assert (entity ∈ instances n children) as Hi
      by (unfold instances_of; apply list_elem_of_filter; done).
    rewrite E in Hi. by apply not_elem_of_nil in Hi.
  - split; [|eauto]. intros _.
    assert (row ∈ instances n children) as Hi by (rewrite E; left).
    unfold instances_of in Hi. apply list_elem_of_filter in Hi as [? ?]. eauto.
Qed.


(** With no candidate the intersection of the two key sets is empty. *)
Lemma no_candidate_size children :
  (∀ entity, entity ∈ children → canonical entity ∉ dom MAP_IDENTIFIERS_EXISTENCE) →
  size (dom (critters_of children) ∩ dom MAP_IDENTIFIERS_EXISTENCE) = 0%nat.
Proof.
  intros Hno. apply size_empty_iff, elem_of_equiv_empty. intros n Hn.
  apply elem_of_intersection in Hn as [Hc Ht].
  apply build_critters_dom in Hc as (entity & Hin & <-).
  by apply (Hno entity).
Qed.

(** C3. When no canonical name of a non-player entity of the
    damage-received tree is a key of the existence table, [detect_map]
    returns with map "Combat", difficulty [None] and a detection info of
    exactly one failed result of step "existence", and it has made no
    death-count or hull-damage check. *)
Theorem detect_map_no_candidate (self : Combat.t) (damage_in : TreeModel) :
  Combat.damage_in self = Some damage_in →
  (∀ entity, entity ∈ tm_npc_children damage_in →
             canonical entity ∉ dom MAP_IDENTIFIERS_EXISTENCE) →
  run_outcome (detect self) = Returned tt
  ∧ Combat.map (run_self (detect self)) = Some "Combat"
  ∧ Combat.difficulty (run_self (detect self)) = None
  ∧ detection_info (Combat.meta (run_self (detect self)))
    = Some [mkDetectionInfo false None None None None (Some "existence")
              None None]
  ∧ run_checks (detect self) = [].
Proof.
  intros Hin Hno. unfold detect_map. simpl. rewrite Hin.
  rewrite (no_candidate_size _ Hno).
  destruct (decide (0 < 1)%nat) as [_|Hlt]; [|lia].
  simpl. repeat split.
Qed.

Hypothesis set_iteration_perm : ∀ X, set_iteration X ≡ₚ elements X.

(** The identification loop returns from inside at the first
    identificator, in iteration order, whose entry fixes the difficulty. *)
Lemma scan_identificators_fixed identificators map last :
  (∀ i, i ∈ identificators → is_Some (MAP_IDENTIFIERS_EXISTENCE !! i)) →
  (∃ i map_data, i ∈ identificators
     ∧ MAP_IDENTIFIERS_EXISTENCE !! i = Some map_data
     ∧ fixed_difficulty map_data) →
  ∃ i map_data pre post,
    identificators = pre ++ i :: post
    ∧ MAP_IDENTIFIERS_EXISTENCE !! i = Some map_data
    ∧ fixed_difficulty map_data
    ∧ (∀ j map_data', j ∈ pre → MAP_IDENTIFIERS_EXISTENCE !! j = Some map_data' →
                      ¬ fixed_difficulty map_data')
    ∧ scan_identificators MAP_IDENTIFIERS_EXISTENCE identificators map last
      = ScanFixed i map_data.
Proof.
  revert map last.
  induction identificators as [|i0 rest IH]; intros map last Hall Hex.
  - destruct Hex as (i & ? & Hi & _). by apply not_elem_of_nil in Hi.
  - simpl. destruct (Hall i0) as [md0 Hmd0]; [left|]. rewrite Hmd0.
    destruct (decide (md_difficulty md0 ≠ Some "Any")) as [Hfix|Hany].
    + exists i0, md0, [], rest. repeat split; try done.
      intros j ? Hj. by apply not_elem_of_nil in Hj.
    + destruct (IH (md_map md0) i0) as (i & md & pre & post & -> & Hi & Hf & Hpre & Hscan).
      * intros j Hj. apply Hall. by right.
      * destruct Hex as (i & md & Hi & Hmd & Hf).
        apply elem_of_cons in Hi as [->|Hi].
        -- assert (md = md0) as -> by congruence. contradiction.
        -- eauto.
      * exists i, md, (i0 :: pre), post. repeat split; try done.
        intros j mdj Hj Hmdj. apply elem_of_cons in Hj as [->|Hj].
        -- assert (mdj = md0) as -> by congruence. done.
        -- eauto.
Qed.


Lemma candidates_iterated children i :
  i ∈ set_iteration (dom (critters_of children) ∩ dom MAP_IDENTIFIERS_EXISTENCE)
  ↔ i ∈ dom (critters_of children) ∧ i ∈ dom MAP_IDENTIFIERS_EXISTENCE.
Proof.
  rewrite set_iteration_perm, elem_of_elements, elem_of_intersection. reflexivity.
Qed.

(** C4. When some candidate (a canonical entity name of the tree that is
    a key of the existence table) has an entry with a fixed difficulty,
    [detect_map] returns with map and difficulty taken from the entry of
    such a candidate (the first one in iteration order, hence the given
    one when it is the only one), with a detection info of exactly one
    successful result of category "both" and step "existence", and it
    has made no death-count or hull-damage check. *)
Theorem detect_map_fixed_difficulty
    (self : Combat.t) (damage_in : TreeModel) (candidate : string) (entry : MapData) :
  Combat.damage_in self = Some damage_in →
  candidate ∈ dom (critters_of (tm_npc_children damage_in)) →
  MAP_IDENTIFIERS_EXISTENCE !! candidate = Some entry →
  fixed_difficulty entry →
  ∃ identificator map_data,
    identificator ∈ dom (critters_of (tm_npc_children damage_in))
    ∧ MAP_IDENTIFIERS_EXISTENCE !! identificator = Some map_data
    ∧ fixed_difficulty map_data
    ∧ ((∀ other other_entry,
          other ∈ dom (critters_of (tm_npc_children damage_in)) →
          MAP_IDENTIFIERS_EXISTENCE !! other = Some other_entry →
          fixed_difficulty other_entry → other = candidate) →
       identificator = candidate ∧ map_data = entry)
    ∧ run_outcome (detect self) = Returned tt
    ∧ Combat.map (run_self (detect self)) = Some (md_map map_data)
    ∧ Combat.difficulty (run_self (detect self)) = md_difficulty map_data
    ∧ detection_info (Combat.meta (run_self (detect self)))
      = Some [mkDetectionInfo true (Some "both") (Some [identificator])
                None None (Some "existence") (Some (md_map map_data))
                (md_difficulty map_data)]
    ∧ run_checks (detect self) = [].
Proof.
  intros Hin Hcand Hentry Hfixed.
  set (children := tm_npc_children damage_in) in *.
  set (ids := dom (critters_of children) ∩ dom MAP_IDENTIFIERS_EXISTENCE).
  assert (candidate ∈ ids) as Hids.
  { apply elem_of_intersection. split; [done|]. apply elem_of_dom. eauto. }
  destruct (scan_identificators_fixed (set_iteration ids) "" "")
    as (i & md & pre & post & Hsplit & Hi & Hf & _ & Hscan).
  { intros j Hj. apply candidates_iterated in Hj as [_ Hj].
    by apply elem_of_dom. }
  { exists candidate, entry. split; [|done].
    apply candidates_iterated. by apply elem_of_intersection in Hids. }
  assert (i ∈ dom (critters_of children)) as Hic.
  { assert (i ∈ set_iteration ids) as Hmem
      by (rewrite Hsplit; apply elem_of_app; right; left).
    by apply candidates_iterated in Hmem as [? _]. }
  exists i, md. split; [done|]. split; [done|]. split; [done|]. split.
  { intros Huniq. assert (i = candidate) as -> by eauto.
    split; [done | congruence]. }
  unfold detect_map. simpl. rewrite Hin. fold children. fold ids.
  destruct (decide (size ids < 1)%nat) as [Hsmall|_].
  { assert (size ids = 0%nat) as Hz by lia.
    apply size_empty_iff in Hz. rewrite elem_of_equiv_empty in Hz.
    by destruct (Hz candidate). }
  rewrite Hscan. simpl. repeat split.
Qed.

Ltac frame_fields := unfold same_outside_detection; simpl; repeat split.

(** C5 (amended). [detect_map] writes [map], [difficulty] and
    [meta['detection_info']] and nothing else: every other field of the
    record, [critter_meta] among them, is left as it was.  The aggregate
    of the non-player entities is built in the local dictionary
    [critters], which after the scan maps each canonical name found in
    the damage-received tree to its instance count and its per-instance
    hull-damage samples. *)
Theorem detect_map_frame (self : Combat.t) :
  same_outside_detection self (run_self (detect self))
  ∧ Combat.critter_meta (run_self (detect self)) = Combat.critter_meta self
  ∧ ∀ damage_in,
      Combat.damage_in self = Some damage_in →
      ∀ n, run_critters (detect self) !! n
           = aggregate n (tm_npc_children damage_in).
Proof.
  assert (same_outside_detection self (run_self (detect self))) as Hframe.
  { unfold detect_map. simpl.
    destruct (Combat.damage_in self) as [damage_in|]; [|frame_fields].
    destruct (decide _); [frame_fields|].
    destruct (scan_identificators _ _ _ _) as [i md|m i|];
      [frame_fields| |frame_fields].
    destruct (run_stage _ _ _ _ _) as [[d info] checks]. frame_fields. }
  split; [exact Hframe|]. split.
  { apply Hframe. }
  intros damage_in Hin n. unfold detect_map. simpl. rewrite Hin.
  destruct (decide _); [apply build_critters_lookup|].
  destruct (scan_identificators _ _ _ _) as [i md|m i|]; simpl;
    [apply build_critters_lookup| |apply build_critters_lookup].
  destruct (run_stage _ _ _ _ _) as [[d info] checks].
  apply build_critters_lookup.
Qed.

End DetectionProperties.

Lemma detect_map_no_candidate_witness :
  run_outcome (sample_detect probe_combat) = Returned tt
  ∧ Combat.map (run_self (sample_detect probe_combat)) = Some "Combat"
  ∧ Combat.difficulty (run_self (sample_detect probe_combat)) = None
  ∧ detection_info (Combat.meta (run_self (sample_detect probe_combat)))
    = Some [mkDetectionInfo false None None None None (Some "existence")
              None None]
  ∧ run_checks (sample_detect probe_combat) = [].
Proof.
  apply (detect_map_no_candidate sample_entity_name sample_existence
           sample_death_counts sample_hull_counts elements probe_combat
           (mkTreeModel [] [mkNpcItem "Probe 1" 3%Q])).
  - reflexivity.
  - intros entity Hin. simpl in Hin.
    inversion Hin as [|? ? ? Hnil]; subst; [|inversion Hnil].
    apply not_elem_of_dom. reflexivity.
Defined.

Lemma detect_map_fixed_difficulty_witness :
  ∃ identificator map_data,
    identificator
      ∈ dom (build_critters sample_entity_name
               [mkNpcItem "Cube 1" 900%Q; mkNpcItem "Queen 1" 5000%Q])
    ∧ sample_existence !! identificator = Some map_data
    ∧ fixed_difficulty map_data
    ∧ ((∀ other other_entry,
          other ∈ dom (build_critters sample_entity_name
                         [mkNpcItem "Cube 1" 900%Q; mkNpcItem "Queen 1" 5000%Q]) →
          sample_existence !! other = Some other_entry →
          fixed_difficulty other_entry → other = "Queen") →
       identificator = "Queen" ∧ map_data = mkMapData "Hive Space" (Some "Elite"))
    ∧ run_outcome (sample_detect queen_combat) = Returned tt
    ∧ Combat.map (run_self (sample_detect queen_combat)) = Some (md_map map_data)
    ∧ Combat.difficulty (run_self (sample_detect queen_combat))
      = md_difficulty map_data
    ∧ detection_info (Combat.meta (run_self (sample_detect queen_combat)))
      = Some [mkDetectionInfo true (Some "both") (Some [identificator])
                None None (Some "existence") (Some (md_map map_data))
                (md_difficulty map_data)]
    ∧ run_checks (sample_detect queen_combat) = [].
Proof.
  apply (detect_map_fixed_difficulty sample_entity_name sample_existence
           sample_death_counts sample_hull_counts elements
           (λ X, reflexivity (elements X)) queen_combat
           (mkTreeModel [] [mkNpcItem "Cube 1" 900%Q; mkNpcItem "Queen 1" 5000%Q])
           "Queen" (mkMapData "Hive Space" (Some "Elite"))).
  - reflexivity.
  - apply elem_of_dom. eexists. vm_compute. reflexivity.
  - reflexivity.
  - unfold fixed_difficulty. simpl. discriminate.
Defined.

(** The sample runs, evaluated. *)
Example detect_map_queen_run :
  Combat.map (run_self (sample_detect queen_combat)) = Some "Hive Space"
  ∧ Combat.difficulty (run_self (sample_detect queen_combat)) = Some "Elite".
Proof. split; vm_compute; reflexivity. Qed.

Example detect_map_cube_run :
  Combat.map (run_self (sample_detect cube_combat)) = Some "Infected Space"
  ∧ Combat.difficulty (run_self (sample_detect cube_combat)) = Some "Elite"
  ∧ run_checks (sample_detect cube_combat)
    = [DeathsCheck "Normal"; DeathsCheck "Elite"; DamageCheck "Elite"]
  ∧ run_critters (sample_detect cube_combat) !! "Cube"
    = Some (mkCritterMeta "Cube" 2 [900; 950]%Q).
Proof. repeat split; vm_compute; reflexivity. Qed.

(** C5, as stated, fails: after [detect_map] has returned on the combat
    with two cubes and a probe, the record's [critter_meta] has no entry
    for the canonical name "Cube", although that name is found in the
    damage-received tree. *)
Lemma detect_map_critter_meta_not_rebuilt :
  ¬ (∀ (get_entity_name : string → string) existence death_counts hull_counts
       set_iteration (self : Combat.t) (damage_in : TreeModel) (entity : NpcItem),
       Combat.damage_in self = Some damage_in →
       entity ∈ tm_npc_children damage_in →
       Combat.critter_meta
         (run_self (detect_map get_entity_name existence death_counts hull_counts
                      set_iteration self))
         !! get_entity_name (npc_id entity)
       = aggregate_of get_entity_name (get_entity_name (npc_id entity))
           (tm_npc_children damage_in)).
Proof.
  intros Hclaim.
  specialize (Hclaim sample_entity_name sample_existence sample_death_counts
                sample_hull_counts elements cube_combat
                (mkTreeModel [] [mkNpcItem "Cube 1" 900%Q; mkNpcItem "Cube 2" 950%Q;
                                 mkNpcItem "Probe 1" 3%Q])
                (mkNpcItem "Cube 1" 900%Q) eq_refl).
  assert (mkNpcItem "Cube 1" 900%Q
            ∈ [mkNpcItem "Cube 1" 900%Q; mkNpcItem "Cube 2" 950%Q;
               mkNpcItem "Probe 1" 3%Q]) as Hin by left.
  specialize (Hclaim Hin). vm_compute in Hclaim. discriminate.
Qed.

(** ** Numbers and arrays *)

Lemma try_div_zero (x y : Q) (f : Q → Q) : (y == 0)%Q → try_div x y f = 0%Q.
Proof.
  intros Hy. unfold try_div, py_truediv.
  apply Qeq_bool_iff in Hy. rewrite Hy. reflexivity.
Qed.

Lemma np_truediv_nonzero (x y : Q) : ¬ (y == 0)%Q → np_truediv x y = Some (x / y)%Q.
Proof.
  intros Hy. unfold np_truediv.
  destruct (Qeq_bool y 0) eqn:E; [|reflexivity].
  apply Qeq_bool_iff in E. contradiction.
Qed.

Lemma length_cumsum_from acc l : length (cumsum_from acc l) = length l.
Proof. revert acc. induction l as [|x l IH]; intros acc; simpl; [done|]. by rewrite IH. Qed.

Lemma length_cumsum l : length (cumsum l) = length l.
Proof. apply length_cumsum_from. Qed.

Lemma length_linspace start stop num : length (linspace start stop num) = num.
Proof.
  destruct num as [|[|n]]; simpl; try reflexivity.
  rewrite length_fmap, length_seq. reflexivity.
Qed.

Lemma np_divide_aligned xs ys :
  length xs = length ys →
  np_divide xs ys = Returned (zip_with np_truediv xs ys).
Proof. intros H. unfold np_divide. destruct (decide _); [done|contradiction]. Qed.


(** The points of [linspace]: the first is [start] and consecutive points
    lie [(stop - start) / (num - 1)] apart. *)
Lemma linspace_lookup (start stop : Q) (num i : nat) :
  (i < num)%nat →
  ∃ t, linspace start stop num !! i = Some t
       ∧ ((num = 1%nat ∧ t = start)
          ∨ ((2 ≤ num)%nat
             ∧ t = (start + inject_Z (Z.of_nat i)
                            * ((stop - start) / inject_Z (Z.of_nat (num - 1))))%Q)).
Proof.
  intros Hi. destruct num as [|[|n]]; [lia| |].
  - assert (i = 0%nat) as -> by lia. exists start. simpl. auto.
  - eexists. split.
    + unfold linspace. rewrite list_lookup_fmap, lookup_seq_lt by lia.
      simpl. reflexivity.
    + right. split; [lia|]. repeat f_equal.
Qed.

Local Open Scope Q_scope.




(** ** Player statistics, first pass *)

Lemma create_overview_graphs_aligned self player interval player' :
  create_overview_graphs self player interval = Returned player' →
  graphs_aligned player'.
Proof.
  unfold create_overview_graphs.
  destruct (Combat.overview_graphs self !! handle player) as [graph|]; [|discriminate].
  intros [= <-]. unfold graphs_aligned. simpl.
  rewrite length_linspace, length_zip_with, length_cumsum, length_fmap, length_linspace.
  split; [reflexivity | lia].
Qed.

Lemma overview_player_aligned self combat_duration intervals player_item player :
  overview_player self combat_duration intervals player_item = Returned player →
  graphs_aligned player.
Proof.
  unfold overview_player.
  destruct (py_truediv _ _) as [share|]; [|discriminate].
  destruct (Combat.damage_in self) as [damage_in|]; [|discriminate].
  destruct (Combat.heals_out self) as [heals_out|]; [|discriminate].
  simpl. destruct (intervals !! pi_handle player_item) as [interval|].
  - apply create_overview_graphs_aligned.
  - intros [= <-]. split; reflexivity.
Qed.

(** The keys of the first loop: those there before and those of the rows
    with a positive combat duration, all of them when the loop returns. *)
Lemma overview_loop_keys self combat_duration intervals rows players totals k :
  k ∈ dom (overview_loop self combat_duration intervals rows players totals).1.1 →
  k ∈ dom players
  ∨ ∃ player_item, player_item ∈ rows
      ∧ 0 < pi_data player_item 19%nat
      ∧ player_key player_item = k.
Proof.
  revert players totals.
  induction rows as [|row rows IH]; intros players totals; simpl; [auto|].
  destruct (Qle_bool (pi_data row 19%nat) 0) eqn:Hle.
  - intros Hk. destruct (IH _ _ Hk) as [?|(r & Hr & ? & ?)]; [auto|].
    right. exists r. split; [by right | done].
  - assert (0 < pi_data row 19%nat) as Hpos.
    { apply Qnot_le_lt. intros H. apply Qle_bool_iff in H. congruence. }
    destruct (overview_player self combat_duration intervals row) as [player|e];
      simpl; [|auto].
    intros Hk. destruct (IH _ _ Hk) as [Hin|(r & Hr & ? & ?)].
    + rewrite dom_insert in Hin. apply elem_of_union in Hin as [Hin|Hin]; [|auto].
      apply elem_of_singleton in Hin. right. exists row. split; [left|]. split; done.
    + right. exists r. split; [by right | done].
Qed.

Lemma overview_loop_returned_keys self combat_duration intervals rows players totals :
  (overview_loop self combat_duration intervals rows players totals).2 = Returned tt →
  ∀ k, (k ∈ dom players
        ∨ ∃ player_item, player_item ∈ rows
            ∧ 0 < pi_data player_item 19%nat
            ∧ player_key player_item = k) →
       k ∈ dom (overview_loop self combat_duration intervals rows players totals).1.1.
Proof.
  revert players totals.
  induction rows as [|row rows IH]; intros players totals; simpl.
  - intros _ k [?|(r & Hr & _)]; [done|]. by apply not_elem_of_nil in Hr.
  - destruct (Qle_bool (pi_data row 19%nat) 0) eqn:Hle.
    + intros Hret k [Hk|(r & Hr & Hpos & Hkey)]; apply IH; auto.
      apply elem_of_cons in Hr as [->|Hr]; [|right; eauto].
      apply Qle_bool_iff in Hle. lra.
    + destruct (overview_player self combat_duration intervals row) as [player|e];
        simpl; [|discriminate].
      intros Hret k Hk. apply IH; [done|].
      destruct Hk as [Hk|(r & Hr & Hpos & Hkey)].
      * left. rewrite dom_insert. apply elem_of_union. by right.
      * apply elem_of_cons in Hr as [->|Hr]; [|right; eauto].
        left. rewrite dom_insert. apply elem_of_union. left.
        apply elem_of_singleton. done.
Qed.

Lemma overview_loop_aligned self combat_duration intervals rows players totals :
  (∀ k p, players !! k = Some p → graphs_aligned p) →
  ∀ k p, (overview_loop self combat_duration intervals rows players totals).1.1 !! k
         = Some p → graphs_aligned p.
Proof.
  revert players totals.
  induction rows as [|row rows IH]; intros players totals Hinv; simpl; [exact Hinv|].
  destruct (Qle_bool (pi_data row 19%nat) 0); [by apply IH|].
  destruct (overview_player self combat_duration intervals row) as [player|e] eqn:E;
    simpl; [|exact Hinv].
  apply IH. intros k p Hk.
  destruct (decide (pi_name row +:+ pi_handle row = k)) as [Heq|Hne].
  - subst k. rewrite lookup_insert_eq in Hk. injection Hk as <-.
    eapply overview_player_aligned; eauto.
  - rewrite lookup_insert_ne in Hk by done. eauto.
Qed.

Lemma overview_shares_aligned totals player :
  graphs_aligned player → graphs_aligned (overview_shares totals player).
Proof. intros H. exact H. Qed.

(** What [create_overview] leaves in [self.players]. *)
Lemma create_overview_players self intervals :
  (∃ end_time start_time damage_out,
     Combat.end_time self = Some end_time
     ∧ Combat.start_time self = Some start_time
     ∧ Combat.damage_out self = Some damage_out
     ∧ let loop := overview_loop self (end_time - start_time) intervals
                     (tm_player_children damage_out) (Combat.players self)
                     (mkTotals 0 0 0 0) in
       (create_overview self intervals).2 = loop.2
       ∧ Combat.players (create_overview self intervals).1
         = match loop.2 with
           | Returned _ => overview_shares loop.1.2 <$> loop.1.1
           | Raised _ => loop.1.1
           end)
  ∨ (Combat.players (create_overview self intervals).1 = Combat.players self
     ∧ raises (create_overview self intervals).2 = true
     ∧ (Combat.end_time self = None ∨ Combat.start_time self = None
        ∨ Combat.damage_out self = None)).
Proof.
  unfold create_overview.
  destruct (Combat.end_time self) as [end_time|]; [|right; auto].
  destruct (Combat.start_time self) as [start_time|]; [|right; auto].
  destruct (Combat.damage_out self) as [damage_out|]; [|right; simpl; auto 6].
  left. exists end_time, start_time, damage_out. repeat split.
  - destruct (overview_loop _ _ _ _ _ _) as [[players totals] [[]|e]]; reflexivity.
  - destruct (overview_loop _ _ _ _ _ _) as [[players totals] [[]|e]]; reflexivity.
Qed.

(** ** Player statistics, second pass *)

Section AnalyzePlayersProperties.

Variable BUILD_DETECTION_ABILITIES : list (string * string).

Local Abbreviation analyze_one := (analyze_player BUILD_DETECTION_ABILITIES).
Local Abbreviation analyze := (analyze_players BUILD_DETECTION_ABILITIES).

(** The players the head of [analyze_players] keeps. *)
Local Abbreviation kept self :=
  (filter (λ kv : string * OverviewTableRow, has_combat_time kv.2 = true)
     (Combat.players self)).

Lemma has_combat_time_spec player :
  has_combat_time player = true
  ↔ combat_interval player ≠ None ∧ events player ≠ None.
Proof.
  unfold has_combat_time.
  rewrite andb_true_iff, !bool_decide_eq_true. reflexivity.
Qed.

(** No player's update raises exactly when the scan for a raise finds
    none. *)
Lemma no_raise_scan totals (players : gmap string OverviewTableRow) :
  map_fold (λ _ player (acc : option exn),
              match analyze_one totals player with
              | Raised e => Some e
              | Returned _ => acc
              end) None players = None
  ↔ ∀ k p, players !! k = Some p → ∃ p', analyze_one totals p = Returned p'.
Proof.
  apply (map_fold_weak_ind
           (λ r m, r = None
                   ↔ ∀ k p, m !! k = Some p → ∃ p', analyze_one totals p = Returned p')).
  - split; [|done]. intros _ k p Hk. by rewrite lookup_empty in Hk.
  - intros i x m r Hfresh IH.
    destruct (analyze_one totals x) as [x'|e] eqn:E.
    + rewrite IH. split.
      * intros Hall k p Hk.
        destruct (decide (i = k)) as [->|Hne].
        -- rewrite lookup_insert_eq in Hk. injection Hk as <-. eauto.
        -- rewrite lookup_insert_ne in Hk by done. eauto.
      * intros Hall k p Hk. apply (Hall k).
        rewrite lookup_insert_ne; [done|]. intros ->. congruence.
    + split; [discriminate|]. intros Hall.
      destruct (Hall i x) as [p' Hp']; [apply lookup_insert_eq|]. congruence.
Qed.

(** The players after a returning [analyze_players]. *)
Lemma analyze_players_lookup self self' k p' :
  analyze self = Returned self' →
  Combat.players self' !! k = Some p'
  ↔ ∃ p, Combat.players self !! k = Some p
         ∧ has_combat_time p = true
         ∧ analyze_one (analyze_totals (kept self)) p = Returned p'.
Proof.
  unfold analyze_players.
  destruct (map_fold _ _ _) as [e|] eqn:Hscan; [discriminate|].
  intros [= <-]. simpl. rewrite lookup_omap_Some. split.
  - intros (p & Hp' & Hp). apply map_lookup_filter_Some in Hp as [Hp Hkeep].
    exists p. repeat split; try done.
    unfold analyzed in Hp'. destruct (analyze_one _ p); congruence.
  - intros (p & Hp & Hkeep & Hp'). exists p. split.
    + unfold analyzed. by rewrite Hp'.
    + by apply map_lookup_filter_Some.
Qed.

Lemma analyze_players_returned_all self self' k p :
  analyze self = Returned self' →
  Combat.players self !! k = Some p → has_combat_time p = true →
  ∃ p', analyze_one (analyze_totals (kept self)) p = Returned p'.
Proof.
  unfold analyze_players.
  destruct (map_fold _ _ _) as [e|] eqn:Hscan; [discriminate|].
  intros _ Hp Hkeep. eapply no_raise_scan; [exact Hscan|].
  by apply map_lookup_filter_Some.
Qed.

(** With graph time and damage graph of equal length the update of a
    kept player returns. *)
Lemma analyze_player_returns totals p :
  has_combat_time p = true →
  length (graph_time p) = length (DMG_graph_data p) →
  ∃ p', analyze_one totals p = Returned p'.
Proof.
  intros Hkeep Hlen. apply has_combat_time_spec in Hkeep as [Hi He].
  unfold analyze_player.
  destruct (combat_interval p) as [interval|]; [|done].
  destruct (events p) as [player_events|]; [|done].
  rewrite np_divide_aligned; [eauto|].
  rewrite length_cumsum, length_fmap. done.
Qed.

Lemma analyze_players_returns self :
  (∀ k p, Combat.players self !! k = Some p → has_combat_time p = true →
          length (graph_time p) = length (DMG_graph_data p)) →
  ∃ self', analyze self = Returned self'.
Proof.
  intros Hlen. unfold analyze_players.
  destruct (map_fold _ _ _) as [e|] eqn:Hscan; [|eauto].
  assert (Some e = None); [|discriminate].
  rewrite <- Hscan. apply no_raise_scan. intros k p Hp.
  apply map_lookup_filter_Some in Hp as [Hp Hkeep].
  apply analyze_player_returns; eauto.
Qed.


(** The metrics the update of one player computes. *)
Lemma analyze_player_metrics totals p p' :
  analyze_one totals p = Returned p' →
  (base_damage p' == 0 → debuff p' = 0)
  ∧ (combat_time p' == 0 → DPS p' = 0)
  ∧ (hull_attacks p' - misses p' == 0 → crit_chance p' = 0)
  ∧ (heal_num p' == 0 → heal_crit_chance p' = 0)
  ∧ (totals_damage_out totals == 0 → damage_share p' = 0)
  ∧ (totals_damage_in totals == 0 → taken_damage_share p' = 0)
  ∧ (totals_attacks_in totals == 0 → attacks_in_share p' = 0)
  ∧ (totals_heals totals == 0 → heal_share p' = 0).
Proof.
  unfold analyze_player.
  destruct (combat_interval p) as [interval|]; [|discriminate].
  destruct (events p) as [player_events|]; [|discriminate].
  destruct (np_divide _ _) as [dps|e]; [|discriminate].
  intros [= <-]. simpl.
  repeat split; intros Hz; try (by apply try_div_zero).
  destruct (Qltb 0 (hull_attacks p - misses p)) eqn:E; [|reflexivity].
  apply Qltb_lt in E. lra.
Qed.

Lemma analyze_player_no_division_fault totals p :
  analyze_one totals p ≠ Raised ZeroDivisionError.
Proof.
  unfold analyze_player.
  destruct (combat_interval p) as [interval|]; [|discriminate].
  destruct (events p) as [player_events|]; [|discriminate].
  unfold np_divide. destruct (decide _); [discriminate|].
  destruct (cumsum (DMG_graph_data p)) as [|x [|x' xs]];
    destruct (py_round1 <$> graph_time p) as [|y [|y' ys]]; discriminate.
Qed.

(** The one unguarded division of the first pass, [combat_time_share]:
    on a combat of duration zero the first row with a positive combat
    duration raises. *)
Lemma overview_loop_zero_duration self combat_duration intervals pre row post
    players totals :
  combat_duration == 0 →
  Forall (λ r, pi_data r 19%nat <= 0) pre →
  0 < pi_data row 19%nat →
  (overview_loop self combat_duration intervals (pre ++ row :: post) players totals).2
  = Raised ZeroDivisionError.
Proof.
  intros Hzero Hpre Hrow. induction Hpre as [|r pre Hr _ IH]; simpl.
  - destruct (Qle_bool (pi_data row 19%nat) 0) eqn:E.
    + apply Qle_bool_iff in E. lra.
    + unfold overview_player, py_truediv.
      apply Qeq_bool_iff in Hzero. rewrite Hzero. reflexivity.
  - apply Qle_bool_iff in Hr. rewrite Hr. exact IH.
Qed.

(** The points of the DPS graph of the second pass: a point whose graph
    time rounds to [0.0] is an infinity or [nan], every other point is a
    number. *)
Lemma analyze_player_graph_points totals p p' (i : nat) (t : Q) :
  analyze_one totals p = Returned p' →
  length (graph_time p) = length (DMG_graph_data p) →
  graph_time p !! i = Some t →
  (py_round1 t == 0 → DPS_graph_data p' !! i = Some None)
  ∧ (¬ py_round1 t == 0 → ∃ q, DPS_graph_data p' !! i = Some (Some q)).
Proof.
  intros Hrun Hlen Ht. unfold analyze_player in Hrun.
  destruct (combat_interval p) as [interval|]; [|discriminate].
  destruct (events p) as [player_events|]; [|discriminate].
  rewrite np_divide_aligned in Hrun by (by rewrite length_cumsum, length_fmap).
  injection Hrun as <-. simpl.
  destruct (lookup_lt_is_Some_2 (cumsum (DMG_graph_data p)) i) as [c Hc].
  { rewrite length_cumsum, <- Hlen. by eapply lookup_lt_Some. }
  rewrite lookup_zip_with, Hc. simpl. rewrite list_lookup_fmap, Ht. simpl.
  split.
  - intros Hz. unfold np_truediv. apply Qeq_bool_iff in Hz. by rewrite Hz.
  - intros Hnz. rewrite np_truediv_nonzero by done. eauto.
Qed.

(** C6 (amended). Every guarded ratio of the two passes is exactly [0]
    when its denominator is zero, for every player a returning pass
    leaves: in the first pass the four shares, against the totals of the
    first loop; in the second pass the four shares, against the totals of
    the kept players, and debuff, DPS, crit chance and heal crit chance,
    against base damage, combat time, successful attacks and heal count.
    The second pass never raises a [ZeroDivisionError], and the first
    pass returns once its first loop has returned.  Division faults and
    infinities are not excluded: the first loop divides by the duration
    of the combat without a guard and raises a [ZeroDivisionError] on a
    combat of duration zero at the first row with a positive combat
    duration; and a point of the DPS graph of the second pass whose graph
    time rounds to [0.0] is an infinity or [nan], while every other point
    is a number. *)
Theorem zero_denominator_metrics :
  (∀ self intervals self' k p,
     create_overview self intervals = (self', Returned tt) →
     Combat.players self' !! k = Some p →
     (totals_damage_out (overview_totals self intervals) == 0 → damage_share p = 0)
     ∧ (totals_damage_in (overview_totals self intervals) == 0 →
        taken_damage_share p = 0)
     ∧ (totals_attacks_in (overview_totals self intervals) == 0 →
        attacks_in_share p = 0)
     ∧ (totals_heals (overview_totals self intervals) == 0 → heal_share p = 0))
  ∧ (∀ self self' k p,
       analyze self = Returned self' →
       Combat.players self' !! k = Some p →
       (base_damage p == 0 → debuff p = 0)
       ∧ (combat_time p == 0 → DPS p = 0)
       ∧ (hull_attacks p - misses p == 0 → crit_chance p = 0)
       ∧ (heal_num p == 0 → heal_crit_chance p = 0)
       ∧ (totals_damage_out (analyze_totals (kept self)) == 0 → damage_share p = 0)
       ∧ (totals_damage_in (analyze_totals (kept self)) == 0 →
          taken_damage_share p = 0)
       ∧ (totals_attacks_in (analyze_totals (kept self)) == 0 →
          attacks_in_share p = 0)
       ∧ (totals_heals (analyze_totals (kept self)) == 0 → heal_share p = 0))
  ∧ (∀ self, analyze self ≠ Raised ZeroDivisionError)
  ∧ (∀ self intervals end_time start_time damage_out,
       Combat.end_time self = Some end_time →
       Combat.start_time self = Some start_time →
       Combat.damage_out self = Some damage_out →
       (overview_loop self (end_time - start_time) intervals
          (tm_player_children damage_out) (Combat.players self)
          (mkTotals 0 0 0 0)).2 = Returned tt →
       (create_overview self intervals).2 = Returned tt)
  ∧ (∀ x y f, y == 0 → try_div x y f = 0)
  ∧ (∀ self intervals end_time start_time damage_out pre row post,
       Combat.end_time self = Some end_time →
       Combat.start_time self = Some start_time →
       end_time - start_time == 0 →
       Combat.damage_out self = Some damage_out →
       tm_player_children damage_out = pre ++ row :: post →
       Forall (λ r, pi_data r 19%nat <= 0) pre →
       0 < pi_data row 19%nat →
       (create_overview self intervals).2 = Raised ZeroDivisionError)
  ∧ (∀ self self' k p p' i t,
       analyze self = Returned self' →
       Combat.players self !! k = Some p →
       Combat.players self' !! k = Some p' →
       length (graph_time p) = length (DMG_graph_data p) →
       graph_time p !! i = Some t →
       (py_round1 t == 0 → DPS_graph_data p' !! i = Some None)
       ∧ (¬ py_round1 t == 0 → ∃ q, DPS_graph_data p' !! i = Some (Some q))).
Proof.
  split; [|split; [|split; [|split; [|split; [|split]]]]].
  - intros self intervals self' k p Hrun Hp.
    unfold create_overview in Hrun. unfold overview_totals.
    destruct (Combat.end_time self) as [end_time|]; [|discriminate].
    destruct (Combat.start_time self) as [start_time|]; [|discriminate].
    destruct (Combat.damage_out self) as [damage_out|]; [|discriminate].
    destruct (overview_loop _ _ _ _ _ _) as [[players totals] [[]|e]];
      [|discriminate].
    injection Hrun as <-. simpl in Hp.
    rewrite lookup_fmap in Hp.
    destruct (players !! k) as [p0|]; [|discriminate].
    injection Hp as <-. simpl.
    repeat split; intros Hz; by apply try_div_zero.
  - intros self self' k p Hrun Hp.
    apply (analyze_players_lookup _ _ _ _ Hrun) in Hp as (p0 & _ & _ & Hp).
    by apply analyze_player_metrics in Hp.
  - intros self. unfold analyze_players.
    destruct (map_fold _ _ _) as [e|] eqn:Hscan; [|discriminate].
    intros [= ->]. revert Hscan.
    apply (map_fold_weak_ind (λ r _, r ≠ Some ZeroDivisionError)); [discriminate|].
    intros i x m r _ IH.
    destruct (analyze_one _ x) as [x'|e] eqn:E; [exact IH|].
    intros [= ->]. by apply analyze_player_no_division_fault in E.
  - intros self intervals end_time start_time damage_out He Hs Hd Hloop.
    unfold create_overview. rewrite He, Hs, Hd.
    destruct (overview_loop _ _ _ _ _ _) as [[players totals] [[]|e]];
      [reflexivity | discriminate].
  - apply try_div_zero.
  - intros self intervals end_time start_time damage_out pre row post
      He Hs Hzero Hd Hrows Hpre Hrow.
    pose proof (overview_loop_zero_duration self (end_time - start_time) intervals
                  pre row post (Combat.players self) (mkTotals 0 0 0 0)
                  Hzero Hpre Hrow) as Hloop.
    unfold create_overview. rewrite He, Hs, Hd, Hrows.
    destruct (overview_loop _ _ _ _ _ _) as [[players totals] [[]|e]];
      simpl in Hloop; [discriminate|]. by injection Hloop as ->.
  - intros self self' k p p' i t Hrun Hp Hp' Hlen Ht.
    apply (analyze_players_lookup _ _ _ _ Hrun) in Hp' as (p0 & Hp0 & _ & Hone).
    assert (p0 = p) as -> by congruence.
    by apply (analyze_player_graph_points _ _ _ _ _ Hone Hlen Ht).
Qed.

(** C7 (amended). A returning [analyze_players] keeps exactly the
    players whose combat interval is not [None] and whose event list is
    not [None], an empty event list included; every other player is
    gone from [self.players].  It returns whenever graph time and
    damage graph of every kept player have the same length.  A key is in
    [self.players] after [create_overview] only if it was there before
    or is the key of a row of the damage-dealt tree with a positive
    combat duration, so a row with duration [<= 0] adds no player. *)
Theorem analyze_players_keeps :
  (∀ self self' k,
     analyze self = Returned self' →
     k ∈ dom (Combat.players self')
     ↔ ∃ p, Combat.players self !! k = Some p
            ∧ combat_interval p ≠ None ∧ events p ≠ None)
  ∧ (∀ self,
       (∀ k p, Combat.players self !! k = Some p → has_combat_time p = true →
               length (graph_time p) = length (DMG_graph_data p)) →
       ∃ self', analyze self = Returned self')
  ∧ (∀ self intervals k,
       k ∈ dom (Combat.players (create_overview self intervals).1) →
       k ∈ dom (Combat.players self)
       ∨ ∃ damage_out player_item,
           Combat.damage_out self = Some damage_out
           ∧ player_item ∈ tm_player_children damage_out
           ∧ 0 < pi_data player_item 19%nat
           ∧ player_key player_item = k).
Proof.
  split; [|split].
  - intros self self' k Hrun. rewrite elem_of_dom. split.
    + intros [p' Hp'].
      apply (analyze_players_lookup _ _ _ _ Hrun) in Hp' as (p & Hp & Hkeep & _).
      exists p. split; [done|]. by apply has_combat_time_spec.
    + intros (p & Hp & Hi & He).
      assert (has_combat_time p = true) as Hkeep by (by apply has_combat_time_spec).
      destruct (analyze_players_returned_all _ _ _ _ Hrun Hp Hkeep) as [p' Hp'].
      exists p'. apply (analyze_players_lookup _ _ _ _ Hrun). eauto.
  - apply analyze_players_returns.
  - intros self intervals k.
    destruct (create_overview_players self intervals)
      as [(end_time & start_time & damage_out & _ & _ & Hdo & _ & Hplayers)
         |(Hsame & _)].
    + rewrite Hplayers. intros Hk.
      assert (k ∈ dom (overview_loop self (end_time - start_time) intervals
                         (tm_player_children damage_out) (Combat.players self)
                         (mkTotals 0 0 0 0)).1.1) as Hloop.
      { destruct (overview_loop _ _ _ _ _ _) as [[players totals] [[]|e]];
          simpl in *; [|done].
        by rewrite dom_fmap in Hk. }
      apply overview_loop_keys in Hloop as [?|(row & ? & ? & ?)]; [auto|].
      right. exists damage_out, row. done.
    + rewrite Hsame. auto.
Qed.

End AnalyzePlayersProperties.

Lemma analyze_player_aligned build_table totals p p' :
  graphs_aligned p →
  analyze_player build_table totals p = Returned p' →
  graphs_aligned p'.
Proof.
  intros [Hgt Hdps]. unfold analyze_player.
  destruct (combat_interval p) as [interval|]; [|discriminate].
  destruct (events p) as [player_events|]; [|discriminate].
  rewrite np_divide_aligned by (rewrite length_cumsum, length_fmap; done).
  intros [= <-]. unfold graphs_aligned. simpl.
  rewrite length_fmap, length_zip_with, length_cumsum, length_fmap.
  split; [done | lia].
Qed.

(** C9. The equality of the lengths of graph time, damage graph and DPS
    graph is kept by both passes: when it holds for every player of the
    record, it holds for every player in [self.players] after
    [create_overview], which builds the three sequences of a new player
    with one length, and [analyze_players] returns and it holds for every
    player that remains, whose graph time is rounded point by point and
    whose DPS graph is recomputed point by point. *)
Theorem graphs_aligned_invariant
    (build_table : list (string * string)) (self : Combat.t)
    (intervals : gmap string (Z * Z)) :
  (∀ k p, Combat.players self !! k = Some p → graphs_aligned p) →
  (∀ k p, Combat.players (create_overview self intervals).1 !! k = Some p →
          graphs_aligned p)
  ∧ ∃ self', analyze_players build_table self = Returned self'
             ∧ ∀ k p, Combat.players self' !! k = Some p → graphs_aligned p.
Proof.
  intros Hinv. split.
  - intros k p.
    destruct (create_overview_players self intervals)
      as [(end_time & start_time & damage_out & _ & _ & _ & _ & Hplayers)
         |(Hsame & _)].
    + rewrite Hplayers.
      pose proof (overview_loop_aligned self (end_time - start_time) intervals
                    (tm_player_children damage_out) (Combat.players self)
                    (mkTotals 0 0 0 0) Hinv) as Hloop.
      destruct (overview_loop _ _ _ _ _ _) as [[players totals] [[]|e]];
        simpl in *; [|by apply Hloop].
      rewrite lookup_fmap. intros Hp.
      destruct (players !! k) as [p0|] eqn:Hp0; [|discriminate].
      injection Hp as <-. apply overview_shares_aligned. eauto.
    + rewrite Hsame. apply Hinv.
  - destruct (analyze_players_returns build_table self) as [self' Hrun].
    { intros k p Hp _. by destruct (Hinv k p Hp). }
    exists self'. split; [exact Hrun|]. intros k p' Hp'.
    apply (analyze_players_lookup _ _ _ _ _ Hrun) in Hp' as (p & Hp & _ & Hone).
    eapply analyze_player_aligned; eauto.
Qed.

Lemma busy_combat_aligned k p :
  Combat.players busy_combat !! k = Some p → graphs_aligned p.
Proof.
  intros Hp. unfold busy_combat in Hp. simpl in Hp.
  apply lookup_singleton_Some in Hp as [_ <-]. split; reflexivity.
Defined.

Lemma graphs_aligned_invariant_witness :
  (∀ k p, Combat.players (create_overview busy_combat busy_intervals).1 !! k = Some p →
          graphs_aligned p)
  ∧ ∃ self', analyze_players [("Torpedo", "Torpedo boat")] busy_combat = Returned self'
             ∧ ∀ k p, Combat.players self' !! k = Some p → graphs_aligned p.
Proof.
  apply (graphs_aligned_invariant [("Torpedo", "Torpedo boat")] busy_combat
           busy_intervals busy_combat_aligned).
Defined.


(** The graphs of the interval [[2, 5]] at resolution [0.2], evaluated on
    the series [10, 20, ..., 70]. *)
Example create_overview_graphs_run :
  match create_overview_graphs busy_combat (new_row "Ann" "@ann") (2, 5)%Z with
  | Returned player' =>
      List.map Qred (graph_time player') = [3 # 5; 4 # 5; 1; 6 # 5]
      ∧ DMG_graph_data player' = [30; 40; 50; 60]
      ∧ List.map (option_map Qred) (DPS_graph_data player')
        = [Some 150; Some 175; Some 200; Some 225]
  | Raised _ => False
  end.
Proof. vm_compute. repeat split. Qed.

(** A series shorter than the interval gives as many points as the slice
    has. *)
Example create_overview_graphs_short_series :
  match create_overview_graphs busy_combat (new_row "Ann" "@ann") (5, 9)%Z with
  | Returned player' =>
      List.map Qred (graph_time player') = [6 # 5; 2]
      ∧ DMG_graph_data player' = [60; 70]
  | Raised _ => False
  end.
Proof. vm_compute. repeat split. Qed.


(** The first pass on [busy_combat]: Bob's row, of duration 0, adds no
    player; Ann's does; all shares but Ann's damage share have a zero
    total and are 0. *)
Example create_overview_run :
  (create_overview busy_combat busy_intervals).2 = Returned tt
  ∧ Combat.players (create_overview busy_combat busy_intervals).1 !! "Bob@bob" = None
  ∧ (damage_share <$>
       Combat.players (create_overview busy_combat busy_intervals).1 !! "Ann@ann")
    = Some (600 / 600)
  ∧ (heal_share <$>
       Combat.players (create_overview busy_combat busy_intervals).1 !! "Ann@ann")
    = Some 0.
Proof. repeat split; vm_compute; reflexivity. Qed.

(** The division of the first loop, [combat_time_share], is not one of
    the guarded ratios: on a record whose duration is 0 while a row of the
    damage-dealt tree has a positive combat duration, the first pass
    raises before any player is stored. *)
Example create_overview_zero_duration :
  (create_overview instant_combat busy_intervals).2 = Raised ZeroDivisionError
  ∧ Combat.players (create_overview instant_combat busy_intervals).1 = ∅.
Proof. split; vm_compute; reflexivity. Qed.

(** The second pass on [busy_combat]: Ann's combat time is 0 and so is
    her DPS. *)
Example analyze_players_run :
  match analyze_players [("Torpedo", "Torpedo boat")] busy_combat with
  | Returned self' =>
      (DPS <$> Combat.players self' !! "Ann@ann") = Some 0
      ∧ (debuff <$> Combat.players self' !! "Ann@ann") = Some 0
      ∧ option_map Qred (damage_share <$> Combat.players self' !! "Ann@ann")
        = Some 100
  | Raised _ => False
  end.
Proof. vm_compute. repeat split. Qed.

(** C6, as stated, fails, on both counts.  The first pass raises a
    division fault on a combat whose duration is zero.  The second pass
    returns for a player whose one graph point lies at [0.04]: the time
    rounds to [0.0] and the point of the DPS graph is an infinity. *)
Lemma division_fault_and_infinity :
  (create_overview instant_combat busy_intervals).2 = Raised ZeroDivisionError
  ∧ ∃ self',
      analyze_players [] early_combat = Returned self'
      ∧ (graph_time <$> Combat.players early_combat !! "Ann@ann") = Some [1 # 25]
      ∧ (List.map Qred <$> (graph_time <$> Combat.players self' !! "Ann@ann"))
        = Some [0]
      ∧ (DPS_graph_data <$> Combat.players self' !! "Ann@ann") = Some [None].
Proof.
  split; [vm_compute; reflexivity|].
  destruct (analyze_players [] early_combat) as [self'|e] eqn:Hrun;
    [|vm_compute in Hrun; discriminate].
  exists self'. split; [reflexivity|].
  vm_compute in Hrun. injection Hrun as <-.
  repeat split; vm_compute; reflexivity.
Qed.

(** C7, as stated, fails: the player of [quiet_combat] has an interval
    and an event list that exists but is empty, and the second pass keeps
    it. *)
Lemma analyze_players_keeps_empty_events :
  ¬ (∀ build_table (self self' : Combat.t) k,
       analyze_players build_table self = Returned self' →
       k ∈ dom (Combat.players self')
       ↔ ∃ p player_events,
           Combat.players self !! k = Some p
           ∧ combat_interval p ≠ None
           ∧ events p = Some player_events
           ∧ player_events ≠ []).
Proof.
  intros Hclaim.
  destruct (analyze_players [] quiet_combat) as [self'|e] eqn:Hrun;
    [|vm_compute in Hrun; discriminate].
  destruct (Hclaim [] quiet_combat self' "Cy@cy" Hrun) as [Hkept _].
  destruct Hkept as (p & player_events & Hp & _ & Hev & Hne).
  - apply elem_of_dom.
    vm_compute in Hrun. injection Hrun as <-. eexists. vm_compute. reflexivity.
  - unfold quiet_combat in Hp. simpl in Hp.
    apply lookup_singleton_Some in Hp as [_ <-]. simpl in Hev.
    injection Hev as <-. contradiction.
Qed.

(** ** Raised failures *)

Section RaisedFailures.

Variable isabs : string → bool.
Variable writable : string → bool.

(** C10 (amended). The two contract violations always raise: [>]
    against a value that is no combat raises a type error, and
    [extract_bytes] raises, before it touches a file, when its source or
    its target path is not absolute.  They are not the only failures:
    with absolute paths [extract_bytes] also raises, leaving the files as
    they were, when the source file does not exist, when the start
    position is negative, and when the target cannot be opened for
    writing; it returns, with the target written, when the source
    exists, the positions are a byte range of the source and the target
    can be written.  Ordering two combats neither of whose end times is a
    [datetime] does not raise and falls through, giving no ordering; with
    two [datetime] end times it returns their comparison. *)
Theorem raised_failures :
  (∀ self class_name, Combat_gt self (OtherObject class_name) = Raised TypeError)
  ∧ (∀ self other,
       Combat.end_time self = None → Combat.end_time other = None →
       Combat_gt self (CombatObject other) = Returned None)
  ∧ (∀ self other t u,
       Combat.end_time self = Some t → Combat.end_time other = Some u →
       Combat_gt self (CombatObject other) = Returned (Some (Qltb u t)))
  ∧ (∀ fs source_path target_path start_pos end_pos,
       isabs source_path = false ∨ isabs target_path = false →
       extract_bytes isabs writable fs source_path target_path start_pos end_pos
       = (fs, Raised AttributeError))
  ∧ (∀ fs source_path target_path start_pos end_pos,
       isabs source_path = true → isabs target_path = true →
       fs !! source_path = None →
       extract_bytes isabs writable fs source_path target_path start_pos end_pos
       = (fs, Raised FileNotFoundError))
  ∧ (∀ fs source_path target_path start_pos end_pos content,
       isabs source_path = true → isabs target_path = true →
       fs !! source_path = Some content →
       (start_pos < 0)%Z →
       extract_bytes isabs writable fs source_path target_path start_pos end_pos
       = (fs, Raised OSError))
  ∧ (∀ fs source_path target_path start_pos end_pos content,
       isabs source_path = true → isabs target_path = true →
       fs !! source_path = Some content →
       (0 ≤ start_pos)%Z → (start_pos ≤ end_pos)%Z →
       (end_pos ≤ Z.of_nat (length content))%Z →
       writable target_path = false →
       extract_bytes isabs writable fs source_path target_path start_pos end_pos
       = (fs, Raised OSError))
  ∧ (∀ fs source_path target_path start_pos end_pos content,
       isabs source_path = true → isabs target_path = true →
       fs !! source_path = Some content →
       (0 ≤ start_pos)%Z → (start_pos ≤ end_pos)%Z →
       (end_pos ≤ Z.of_nat (length content))%Z →
       writable target_path = true →
       extract_bytes isabs writable fs source_path target_path start_pos end_pos
       = (<[target_path := take (Z.to_nat (end_pos - start_pos))
                             (drop (Z.to_nat start_pos) content)]> fs,
          Returned tt)).
Proof.
  assert (∀ (content : list Byte.byte) start_pos end_pos,
            (0 ≤ start_pos)%Z → (start_pos ≤ end_pos)%Z →
            seek_read content start_pos (end_pos - start_pos)
            = Returned (take (Z.to_nat (end_pos - start_pos))
                          (drop (Z.to_nat start_pos) content))) as Hread.
  { intros content start_pos end_pos Hs He. unfold seek_read.
    destruct (Z.ltb_spec start_pos 0); [lia|].
    destruct (Z.ltb_spec (end_pos - start_pos) (-1)); [lia|].
    destruct (Z.eqb_spec (end_pos - start_pos) (-1)); [lia|]. reflexivity. }
  split; [done|]. split; [|split; [|split; [|split; [|split; [|split]]]]].
  - intros self other Hend _. unfold Combat_gt, date_time. rewrite Hend.
    reflexivity.
  - intros self other t u Ht Hu. unfold Combat_gt, date_time.
    rewrite Ht, Hu. reflexivity.
  - intros fs source_path target_path start_pos end_pos [Hs|Ht];
      unfold extract_bytes.
    + rewrite Hs. reflexivity.
    + rewrite Ht. destruct (isabs source_path); reflexivity.
  - intros fs source_path target_path start_pos end_pos Hs Ht Hsrc.
    unfold extract_bytes. rewrite Hs, Ht, Hsrc. reflexivity.
  - intros fs source_path target_path start_pos end_pos content Hs Ht Hsrc Hneg.
    unfold extract_bytes, seek_read. rewrite Hs, Ht, Hsrc. simpl.
    destruct (Z.ltb_spec start_pos 0); [reflexivity | lia].
  - intros fs source_path target_path start_pos end_pos content
      Hs Ht Hsrc Hstart Hend _ Hw.
    unfold extract_bytes. rewrite Hs, Ht, Hsrc, Hread, Hw by done. reflexivity.
  - intros fs source_path target_path start_pos end_pos content
      Hs Ht Hsrc Hstart Hend _ Hw.
    unfold extract_bytes. rewrite Hs, Ht, Hsrc, Hread, Hw by done. reflexivity.
Qed.

End RaisedFailures.

(** C10, as stated, fails: neither call below violates one of the two
    contracts, and both raise.  The first orders a combat that has ended
    against a combat whose end time was never set; the second extracts
    from an absolute path at which there is no file. *)
Lemma raise_without_contract_violation :
  ¬ (∀ self other,
       raises (Combat_gt self other) = true ↔ ∃ class_name, other = OtherObject class_name)
  ∧ ¬ (∀ fs source_path target_path start_pos end_pos,
         raises (extract_bytes posix_isabs logs_writable fs source_path target_path
                   start_pos end_pos).2 = true
         ↔ posix_isabs source_path = false ∨ posix_isabs target_path = false).
Proof.
  split.
  - intros Hclaim.
    destruct (Hclaim dated_combat (CombatObject undated_combat)) as [Hraise _].
    destruct Hraise as [class_name Habs]; [reflexivity | discriminate].
  - intros Hclaim.
    destruct (Hclaim ∅ "/logs/combat.log" "/logs/extract.log" 0%Z 10%Z) as [Hraise _].
    destruct Hraise as [Habs|Habs]; [reflexivity | discriminate..].
Qed.

Example Combat_gt_runs :
  Combat_gt dated_combat (CombatObject undated_combat) = Raised TypeError
  ∧ Combat_gt undated_combat (CombatObject dated_combat) = Returned None
  ∧ Combat_gt undated_combat (CombatObject undated_combat) = Returned None
  ∧ Combat_gt dated_combat (CombatObject dated_combat) = Returned (Some false)
  ∧ Combat_gt dated_combat (OtherObject "int") = Raised TypeError.
Proof. repeat split. Qed.

(** * Further properties *)

(** ** Difficulty stages of the detection *)

Lemma last_passing_snoc {A : Type}
    (check : list (string * A) → gmap string CritterMeta → DetectionInfo)
    critters levels level :
  last_passing check critters (levels ++ [level])
  = if di_success (check level.2 critters)
    then Some level.1
    else last_passing check critters levels.
Proof.
  unfold last_passing. rewrite filter_app, filter_cons, filter_nil. simpl.
  case_decide as E.
  - rewrite E, last_snoc. reflexivity.
  - rewrite app_nil_r. by destruct (di_success (check level.2 critters)).
Qed.

(** What a stage makes of the difficulty, the detection info and the
    record of checks it starts from. *)
Lemma run_stage_spec {A : Type}
    (check : list (string * A) → gmap string CritterMeta → DetectionInfo)
    call critters levels difficulty detection_info checks :
  run_stage check call critters levels (difficulty, detection_info, checks)
  = (or_else (last_passing check critters levels) difficulty,
     detection_info ++ level_results check critters levels,
     checks ++ (call <$> levels.*1)).
Proof.
  induction levels as [|level levels IH] using rev_ind.
  - simpl. unfold level_results. simpl. by rewrite !app_nil_r.
  - unfold run_stage in *. rewrite foldl_app, IH. simpl.
    destruct level as [diffic meta]. simpl.
    rewrite last_passing_snoc. unfold level_results, di_bool.
    rewrite !fmap_app. simpl. rewrite !app_assoc.
    destruct (di_success (check meta critters)); reflexivity.
Qed.

Section DetectionStages.

Variable get_entity_name : string → string.
Variable MAP_IDENTIFIERS_EXISTENCE : gmap string MapData.
Variable MAP_DIFFICULTY_ENTITY_DEATH_COUNTS :
  gmap string (list (string * list (string * Z))).
Variable MAP_DIFFICULTY_ENTITY_HULL_COUNTS :
  gmap string (list (string * list (string * Q))).
Variable set_iteration : gset string → list string.

Local Abbreviation critters_of := (build_critters get_entity_name).
Local Abbreviation detect :=
  (detect_map get_entity_name MAP_IDENTIFIERS_EXISTENCE
     MAP_DIFFICULTY_ENTITY_DEATH_COUNTS MAP_DIFFICULTY_ENTITY_HULL_COUNTS
     set_iteration).


Hypothesis set_iteration_perm : ∀ X, set_iteration X ≡ₚ elements X.


End DetectionStages.


(** The sample combat with two cubes: the map comes from the cube, the
    death-count level Elite passes (two cubes) and so does the hull level
    (median 925 above 800). *)
Example cube_stages_run :
  Combat.map (run_self (sample_detect cube_combat)) = Some "Infected Space"
  ∧ Combat.difficulty (run_self (sample_detect cube_combat)) = Some "Elite"
  ∧ run_checks (sample_detect cube_combat)
    = [DeathsCheck "Normal"; DeathsCheck "Elite"; DamageCheck "Elite"].
Proof. repeat split; vm_compute; reflexivity. Qed.

Section DetectionRerun.

Variable get_entity_name : string → string.
Variable MAP_IDENTIFIERS_EXISTENCE : gmap string MapData.
Variable MAP_DIFFICULTY_ENTITY_DEATH_COUNTS :
  gmap string (list (string * list (string * Z))).
Variable MAP_DIFFICULTY_ENTITY_HULL_COUNTS :
  gmap string (list (string * list (string * Q))).
Variable set_iteration : gset string → list string.

Local Abbreviation detect :=
  (detect_map get_entity_name MAP_IDENTIFIERS_EXISTENCE
     MAP_DIFFICULTY_ENTITY_DEATH_COUNTS MAP_DIFFICULTY_ENTITY_HULL_COUNTS
     set_iteration).

Lemma or_else_settled {A : Type} (x y z : option A) :
  or_else x (or_else y (or_else x (or_else y z))) = or_else x (or_else y z).
Proof. destruct x, y; reflexivity. Qed.

(** X2. Running the detection again on the record it left changes nothing:
    the second run ends like the first, with the same record (map,
    difficulty and detection info included), the same local aggregate and
    the same checks.  The difficulty a first run settled on is the one a
    stage without a passing level falls back to in the second. *)
Theorem detect_map_rerun (self : Combat.t) :
  detect (run_self (detect self)) = detect self.
Proof.
  unfold detect_map. simpl.
  destruct (Combat.damage_in self) as [damage_in|] eqn:Hin; simpl.
  - destruct (decide _) as [Hsmall|Hbig]; simpl.
    + rewrite Hin. destruct (decide _); [|contradiction].
      destruct self; reflexivity.
    + destruct (scan_identificators _ _ _ _) as [i md|m i|] eqn:Hscan; simpl.
      * rewrite Hin. destruct (decide _); [contradiction|]. rewrite Hscan.
        destruct self; reflexivity.
      * rewrite !run_stage_spec. simpl. rewrite Hin.
        destruct (decide _); [contradiction|]. rewrite Hscan.
        rewrite !run_stage_spec. simpl. rewrite or_else_settled.
        destruct self; reflexivity.
      * rewrite Hin. destruct (decide _); [contradiction|]. rewrite Hscan.
        destruct self; reflexivity.
  - rewrite Hin. destruct self; reflexivity.
Qed.

End DetectionRerun.

(** ** The median of the hull-damage samples *)

Lemma insert_sorted_perm x l : insert_sorted x l ≡ₚ x :: l.
Proof.
  induction l as [|y l IH]; simpl; [done|].
  destruct (Qle_bool x y); [done|]. rewrite IH. apply Permutation_swap.
Qed.

Lemma sort_samples_perm l : sort_samples l ≡ₚ l.
Proof.
  induction l as [|x l IH]; simpl; [done|].
  unfold sort_samples in *. simpl. rewrite insert_sorted_perm. by rewrite IH.
Qed.

Lemma insert_sorted_sorted x l :
  ascending l → ascending (insert_sorted x l).
Proof.
  induction 1 as [|y l Hy Hl IH]; simpl.
  - repeat constructor.
  - destruct (Qle_bool x y) eqn:E.
    + apply Qle_bool_iff in E. constructor; [|by constructor].
      constructor; [done|]. eapply Forall_impl; [exact Hy|].
      intros z Hz. simpl in Hz. lra.
    + assert (y <= x) as Hyx.
      { apply Qlt_le_weak, Qnot_le_lt. intros H. apply Qle_bool_iff in H. congruence. }
      constructor; [|done].
      rewrite insert_sorted_perm. by constructor.
Qed.

Lemma sort_samples_sorted l : ascending (sort_samples l).
Proof.
  induction l as [|x l IH]; [constructor|].
  unfold sort_samples in *. simpl. by apply insert_sorted_sorted.
Qed.

Lemma sorted_lookup_le (l : list Q) i j x y :
  ascending l → (i ≤ j)%nat → l !! i = Some x → l !! j = Some y → x <= y.
Proof.
  intros Hs. revert i j. induction Hs as [|z l Hz Hl IH]; intros i j Hij Hi Hj.
  - by rewrite lookup_nil in Hi.
  - destruct i as [|i], j as [|j]; simpl in *.
    + assert (x = y) as -> by congruence. lra.
    + injection Hi as ->. rewrite Forall_forall in Hz. apply Hz.
      by eapply list_elem_of_lookup_2.
    + lia.
    + eapply (IH i j); [lia|done..].
Qed.

(** The median exists for every non-empty sample list, and then lies
    between two of the samples. *)
Lemma percentile_50_between (values : list Q) :
  values ≠ [] →
  ∃ med a b, percentile_50 values = Some med
             ∧ a ∈ values ∧ b ∈ values ∧ a <= med ∧ med <= b.
Proof.
  intros Hne. unfold percentile_50.
  pose proof (sort_samples_perm values) as Hperm.
  pose proof (sort_samples_sorted values) as Hsorted.
  set (sorted := sort_samples values) in *.
  assert (length sorted ≠ 0%nat) as Hlen.
  { rewrite Hperm. by destruct values. }
  set (n := Z.of_nat (length sorted)).
  assert (1 ≤ n)%Z as Hn by (unfold n; lia).
  destruct (Z.eqb_spec n 0) as [|_]; [lia|].
  set (v := inject_Z (n - 1) * (1 # 2)).
  assert (0 <= v) as Hv0.
  { unfold v. assert (0 <= inject_Z (n - 1)).
    { change 0 with (inject_Z 0). rewrite <- Zle_Qle. lia. }
    lra. }
  assert (v <= inject_Z (n - 1)) as Hv1.
  { unfold v. assert (0 <= inject_Z (n - 1)).
    { change 0 with (inject_Z 0). rewrite <- Zle_Qle. lia. }
    lra. }
  pose proof (Qfloor_le v) as Hfl. pose proof (Qlt_floor v) as Hfu.
  set (lo := Qfloor v) in *.
  assert (0 ≤ lo)%Z as Hlo0.
  { unfold lo. change 0%Z with (Qfloor 0). by apply Qfloor_resp_le. }
  assert (lo ≤ n - 1)%Z as Hlo1.
  { rewrite Zle_Qle. lra. }
  set (hi := Z.min (lo + 1) (n - 1)).
  destruct (lookup_lt_is_Some_2 sorted (Z.to_nat lo)) as [a Ha]; [unfold n in *; lia|].
  destruct (lookup_lt_is_Some_2 sorted (Z.to_nat hi)) as [b Hb];
    [unfold hi, n in *; lia|].
  rewrite Ha, Hb.
  assert (a <= b) as Hab.
  { eapply (sorted_lookup_le sorted (Z.to_nat lo) (Z.to_nat hi)); eauto.
    unfold hi. lia. }
  set (gamma := v - inject_Z lo).
  assert (0 <= gamma) as Hg0 by (unfold gamma; lra).
  assert (gamma <= 1) as Hg1.
  { unfold gamma. rewrite inject_Z_plus in Hfu. change (inject_Z 1) with 1 in Hfu. lra. }
  exists (a + (b - a) * gamma), a, b. split; [reflexivity|].
  split; [rewrite <- Hperm; by eapply list_elem_of_lookup_2|].
  split; [rewrite <- Hperm; by eapply list_elem_of_lookup_2|].
  split; nra.
Qed.

Section CritterAggregates.

Variable get_entity_name : string → string.

(** X4. The aggregates of the detection.  An entry of the dictionary
    [critters] built from the non-player rows carries its own key as name,
    counts exactly the rows of that canonical name, holds one hull sample
    per counted row, so at least one, and therefore always has a median. *)
Theorem build_critters_aggregate
    (children : list NpcItem) (n : string) (entity_metadata : CritterMeta) :
  build_critters get_entity_name children !! n = Some entity_metadata →
  cm_name entity_metadata = n
  ∧ cm_count entity_metadata
    = Z.of_nat (length (instances_of get_entity_name n children))
  ∧ cm_hull_values entity_metadata
    = npc_data2 <$> instances_of get_entity_name n children
  ∧ (1 ≤ cm_count entity_metadata)%Z
  ∧ ∃ med, percentile_50 (cm_hull_values entity_metadata) = Some med.
Proof.
  rewrite build_critters_lookup. unfold aggregate_of.
  destruct (instances_of get_entity_name n children) as [|row rows] eqn:E;
    [discriminate|].
  intros [= <-]. simpl. repeat split; [lia|].
  destruct (percentile_50_between (npc_data2 row :: (npc_data2 <$> rows)))
    as (med & _ & _ & Hmed & _); [done|]. eauto.
Qed.

End CritterAggregates.

Lemma build_critters_aggregate_witness :
  cm_name (mkCritterMeta "Cube" 2 [900; 950]%Q) = "Cube"
  ∧ cm_count (mkCritterMeta "Cube" 2 [900; 950]%Q)
    = Z.of_nat (length (instances_of sample_entity_name "Cube"
                          [mkNpcItem "Cube 1" 900%Q; mkNpcItem "Cube 2" 950%Q;
                           mkNpcItem "Probe 1" 3%Q]))
  ∧ cm_hull_values (mkCritterMeta "Cube" 2 [900; 950]%Q)
    = npc_data2 <$> instances_of sample_entity_name "Cube"
                      [mkNpcItem "Cube 1" 900%Q; mkNpcItem "Cube 2" 950%Q;
                       mkNpcItem "Probe 1" 3%Q]
  ∧ (1 ≤ cm_count (mkCritterMeta "Cube" 2 [900; 950]%Q))%Z
  ∧ ∃ med, percentile_50 (cm_hull_values (mkCritterMeta "Cube" 2 [900; 950]%Q))
           = Some med.
Proof.
  apply (build_critters_aggregate sample_entity_name
           [mkNpcItem "Cube 1" 900%Q; mkNpcItem "Cube 2" 950%Q;
            mkNpcItem "Probe 1" 3%Q] "Cube").
  vm_compute. reflexivity.
Defined.

(** ** What the two checks report *)

Lemma deaths_loop_Some combat_meta items d :
  deaths_loop combat_meta items = Some d →
  ∃ pre entity_name r post,
    items = pre ++ (entity_name, r) :: post
    ∧ Forall (deaths_entity_passes combat_meta) pre
    ∧ deaths_step combat_meta entity_name r = Some d.
Proof.
  induction items as [|[e r] rest IH]; simpl; [discriminate|].
  destruct (deaths_step combat_meta e r) as [d'|] eqn:S.
  - intros [= <-]. exists [], e, r, rest. repeat split; [constructor | done].
  - intros Hrest. destruct (IH Hrest) as (pre & e' & r' & post & -> & Hpre & Hstep).
    exists ((e, r) :: pre), e', r', post. repeat split; [|done].
    constructor; [by apply deaths_step_None | done].
Qed.

(** X5. The report of the death-count check.  A passing level is reported
    with all its entity names, in table order.  A failing level is
    reported with the first entity, in table order, that does not pass,
    all entities before it passing: as a failure of step "existence"
    without values when that entity is absent from the metadata, and as a
    failure of step "deaths" carrying the required and the observed count
    when its count does not meet the requirement. *)
Theorem check_difficulty_deaths_report
    (difficulty_data : list (string * Z)) (combat_meta : gmap string CritterMeta) :
  (di_success (check_difficulty_deaths difficulty_data combat_meta) = true →
   check_difficulty_deaths difficulty_data combat_meta
   = mkDetectionInfo true (Some "difficulty") (Some (difficulty_data.*1))
       None None (Some "deaths") None None)
  ∧ (di_success (check_difficulty_deaths difficulty_data combat_meta) = false →
     ∃ pre entity_name r post,
       difficulty_data = pre ++ (entity_name, r) :: post
       ∧ Forall (deaths_entity_passes combat_meta) pre
       ∧ match combat_meta !! entity_name with
         | None =>
             check_difficulty_deaths difficulty_data combat_meta
             = mkDetectionInfo false (Some "difficulty") (Some [entity_name])
                 None None (Some "existence") None None
         | Some entity_metadata =>
             deaths_valid r (cm_count entity_metadata) = false
             ∧ check_difficulty_deaths difficulty_data combat_meta
               = mkDetectionInfo false (Some "difficulty") (Some [entity_name])
                   (Some (inject_Z r))
                   (Some (inject_Z (cm_count entity_metadata)))
                   (Some "deaths") None None
         end).
Proof.
  unfold check_difficulty_deaths.
  destruct (deaths_loop combat_meta difficulty_data) as [d|] eqn:L.
  - split.
    + rewrite (deaths_loop_success _ _ _ L). discriminate.
    + intros _. destruct (deaths_loop_Some _ _ _ L) as (pre & e & r & post & -> & Hpre & Hstep).
      exists pre, e, r, post. split; [done|]. split; [done|].
      unfold deaths_step in Hstep.
      destruct (combat_meta !! e) as [em|].
      * destruct (deaths_valid r (cm_count em)) eqn:V; [discriminate|].
        injection Hstep as <-. done.
      * by injection Hstep as <-.
  - split; [done | discriminate].
Qed.



(** ** Detection from the last log line *)

Section AnalyzeLastLineProperties.

Variable detect_line : string → option string * option string.

Local Abbreviation analyze_line := (analyze_last_line detect_line).

(** The effect of a call that gets as far as the log line. *)
Lemma analyze_last_line_unfold (self : Combat.t) :
  analyze_line self
  = if map_known self && bool_decide (Combat.difficulty self ≠ None) then Some self
    else match Combat.log_data self with
         | [] => None
         | line :: _ =>
             Some (set_difficulty
                     (set_map self
                        (if map_known self then Combat.map self
                         else (detect_line line).1))
                     (if bool_decide (Combat.difficulty self ≠ None)
                      then Combat.difficulty self
                      else (detect_line line).2))
         end.
Proof.
  unfold analyze_last_line, map_known.
  destruct self as [log id m d st et fp lf meta pl cr cmeta gr og dout din hout hin].
  simpl. destruct log as [|line rest].
  - reflexivity.
  - destruct (detect_line line) as [_map _difficulty]. simpl.
    destruct m as [m|], d as [d|]; simpl; try reflexivity;
      (destruct (decide (m = "Combat")) as [->|Hne]; simpl; [reflexivity|]);
      rewrite (bool_decide_eq_true_2 (Some m ≠ Some "Combat")) by congruence;
      rewrite ?(bool_decide_eq_false_2 (Some m = Some "Combat")) by congruence;
      simpl; reflexivity.
Qed.

(** X7. [analyze_last_line] only fills gaps.  It raises exactly when the log
    is empty while the map or the difficulty is still open.  When it
    returns, a map that was known and a difficulty that was set are still
    there, an open map and an open difficulty hold what [detect_line]
    read off the first entry of [log_data], no other field has changed,
    and a second call changes nothing more. *)
Theorem analyze_last_line_fills_gaps (self : Combat.t) :
  (analyze_line self = None
   ↔ Combat.log_data self = []
     ∧ (map_known self = false ∨ Combat.difficulty self = None))
  ∧ ∀ self',
      analyze_line self = Some self' →
      (map_known self = true → Combat.map self' = Combat.map self)
      ∧ (Combat.difficulty self ≠ None →
         Combat.difficulty self' = Combat.difficulty self)
      ∧ (∀ line rest,
           Combat.log_data self = line :: rest →
           (map_known self = false → Combat.map self' = (detect_line line).1)
           ∧ (Combat.difficulty self = None →
              Combat.difficulty self' = (detect_line line).2))
      ∧ same_outside_detection self self'
      ∧ Combat.meta self' = Combat.meta self
      ∧ analyze_line self' = Some self'.
Proof.
  rewrite analyze_last_line_unfold. split.
  - destruct (map_known self) eqn:Hm; case_bool_decide as Hd; simpl;
      destruct (Combat.log_data self); simpl;
      intuition (discriminate || congruence).
  - intros self' Hrun.
    assert (∀ s : Combat.t, set_difficulty (set_map s (Combat.map s)) (Combat.difficulty s) = s)
      as Hid by (by intros []).
    assert (same_outside_detection self self' ∧ Combat.meta self' = Combat.meta self
            ∧ Combat.log_data self' = Combat.log_data self
            ∧ Combat.map self'
              = (if map_known self then Combat.map self
                 else match Combat.log_data self with
                      | [] => Combat.map self
                      | line :: _ => (detect_line line).1
                      end)
            ∧ Combat.difficulty self'
              = (if bool_decide (Combat.difficulty self ≠ None)
                 then Combat.difficulty self
                 else match Combat.log_data self with
                      | [] => Combat.difficulty self
                      | line :: _ => (detect_line line).2
                      end)) as (Hframe & Hmeta & Hlog & Hmap & Hdiff).
    { destruct (map_known self) eqn:Hm; case_bool_decide as Hd; simpl in Hrun;
        try (injection Hrun as <-; unfold same_outside_detection;
             rewrite ?Hm; repeat split; destruct (Combat.log_data self); done);
        destruct (Combat.log_data self) as [|line rest] eqn:Hl; try discriminate;
        injection Hrun as <-; unfold same_outside_detection; simpl;
        repeat split; done. }
    split; [intros Hk; by rewrite Hmap, Hk|].
    split; [intros Hd; rewrite Hdiff; by rewrite bool_decide_eq_true_2|].
    split.
    { intros line rest Hl. rewrite Hmap, Hdiff, Hl. split.
      - by intros ->.
      - intros Hd. rewrite bool_decide_eq_false_2; [done|].
        intros Hn. by apply Hn. }
    split; [done|]. split; [done|].
    rewrite analyze_last_line_unfold.
    destruct (map_known self' && bool_decide (Combat.difficulty self' ≠ None))
      eqn:Hc'; [done|].
    rewrite Hlog. destruct (Combat.log_data self) as [|line rest] eqn:Hl.
    + destruct (map_known self && bool_decide (Combat.difficulty self ≠ None))
        eqn:Hc; [|discriminate].
      injection Hrun as <-. congruence.
    + assert ((if map_known self' then Combat.map self' else (detect_line line).1)
              = Combat.map self') as ->.
      { destruct (map_known self') eqn:Hm'; [done|].
        rewrite Hmap. destruct (map_known self) eqn:Hm; [|done].
        unfold map_known in Hm, Hm'. rewrite Hmap, Hm in Hm'. discriminate. }
      assert ((if bool_decide (Combat.difficulty self' ≠ None)
               then Combat.difficulty self' else (detect_line line).2)
              = Combat.difficulty self') as ->.
      { case_bool_decide as Hd'; [done|].
        rewrite Hd' in Hdiff. rewrite Hd'.
        destruct (bool_decide (Combat.difficulty self ≠ None)) eqn:Hd; [|done].
        apply bool_decide_eq_true in Hd. congruence. }
      by rewrite Hid.
Qed.

End AnalyzeLastLineProperties.

(** ** Ordering of combats that have ended *)

(** X8. On combats whose end times are set, [>] never raises and is the
    strict order of the end times: no combat is greater than itself, two
    combats are never greater than each other, the relation is
    transitive, and of two combats with different end times one is
    greater than the other. *)
Theorem Combat_gt_strict_order (a b c : Combat.t) (ta tb tc : Q) :
  Combat.end_time a = Some ta →
  Combat.end_time b = Some tb →
  Combat.end_time c = Some tc →
  (∃ r, Combat_gt a (CombatObject b) = Returned (Some r) ∧ (r = true ↔ tb < ta))
  ∧ Combat_gt a (CombatObject a) = Returned (Some false)
  ∧ (Combat_gt a (CombatObject b) = Returned (Some true) →
     Combat_gt b (CombatObject a) = Returned (Some false))
  ∧ (Combat_gt a (CombatObject b) = Returned (Some true) →
     Combat_gt b (CombatObject c) = Returned (Some true) →
     Combat_gt a (CombatObject c) = Returned (Some true))
  ∧ (¬ ta == tb →
     Combat_gt a (CombatObject b) = Returned (Some true)
     ∨ Combat_gt b (CombatObject a) = Returned (Some true)).
Proof.
  intros Ha Hb Hc.
  assert (∀ x y tx ty, Combat.end_time x = Some tx → Combat.end_time y = Some ty →
            Combat_gt x (CombatObject y) = Returned (Some (Qltb ty tx))) as Hgt.
  { intros x y tx ty Hx Hy. unfold Combat_gt, date_time. by rewrite Hx, Hy. }
  assert (∀ x y, Qltb x y = false ↔ y <= x) as Hfalse.
  { intros x y. split.
    - intros Hf. apply Qnot_lt_le. intros Hlt. apply Qltb_lt in Hlt. congruence.
    - intros Hle. apply not_true_is_false. rewrite Qltb_lt. lra. }
  rewrite (Hgt a b ta tb), (Hgt a a ta ta), (Hgt b a tb ta), (Hgt b c tb tc),
    (Hgt a c ta tc) by done.
  split; [|split; [|split; [|split]]].
  - eexists. split; [reflexivity|]. apply Qltb_lt.
  - do 2 f_equal. apply Hfalse. lra.
  - intros [= Hab]. apply Qltb_lt in Hab. do 2 f_equal. apply Hfalse. lra.
  - intros [= Hab] [= Hbc]. apply Qltb_lt in Hab, Hbc.
    do 2 f_equal. apply Qltb_lt. lra.
  - intros Hne. destruct (Qlt_le_dec tb ta) as [Hlt|Hle].
    + left. do 2 f_equal. by apply Qltb_lt.
    + right. do 2 f_equal. apply Qltb_lt.
      destruct (Qle_lt_or_eq _ _ Hle) as [?|Heq]; [done|].
      destruct Hne. by symmetry.
Qed.

Lemma Combat_gt_strict_order_witness :
  (∃ r, Combat_gt busy_combat (CombatObject instant_combat) = Returned (Some r)
        ∧ (r = true ↔ 0 < 60))
  ∧ Combat_gt busy_combat (CombatObject busy_combat) = Returned (Some false)
  ∧ (Combat_gt busy_combat (CombatObject instant_combat) = Returned (Some true) →
     Combat_gt instant_combat (CombatObject busy_combat) = Returned (Some false))
  ∧ (Combat_gt busy_combat (CombatObject instant_combat) = Returned (Some true) →
     Combat_gt instant_combat (CombatObject instant_combat) = Returned (Some true) →
     Combat_gt busy_combat (CombatObject instant_combat) = Returned (Some true))
  ∧ (¬ 60 == 0 →
     Combat_gt busy_combat (CombatObject instant_combat) = Returned (Some true)
     ∨ Combat_gt instant_combat (CombatObject busy_combat) = Returned (Some true)).
Proof.
  apply (Combat_gt_strict_order busy_combat instant_combat instant_combat 60 0 0);
    reflexivity.
Defined.

(** ** Shares of the second pass *)

Lemma sum_over_foldr (f : OverviewTableRow → Q) (players : gmap string OverviewTableRow) :
  sum_over f players
  = foldr (λ (kv : string * OverviewTableRow) acc, acc + f kv.2) 0 (map_to_list players).
Proof.
  unfold sum_over. rewrite map_fold_foldr.
  induction (map_to_list players) as [|[k p] l IH]; simpl; [done|]. by rewrite IH.
Qed.

Lemma sum_over_fmap (f : OverviewTableRow → Q) (g : OverviewTableRow → OverviewTableRow)
    (players : gmap string OverviewTableRow) :
  sum_over f (g <$> players) = sum_over (f ∘ g) players.
Proof.
  rewrite !sum_over_foldr, map_to_list_fmap.
  induction (map_to_list players) as [|[k p] l IH]; [done|].
  rewrite fmap_cons. simpl. f_equal. exact IH.
Qed.

(** A sum of non-negative terms is non-negative and at least each term. *)
Lemma sum_over_bounds (f : OverviewTableRow → Q) (players : gmap string OverviewTableRow) :
  (∀ k p, players !! k = Some p → 0 <= f p) →
  0 <= sum_over f players
  ∧ ∀ k p, players !! k = Some p → f p <= sum_over f players.
Proof.
  rewrite sum_over_foldr. intros Hnn.
  assert (∀ kv, kv ∈ map_to_list players → 0 <= f kv.2) as Hl.
  { intros [k p] Hin. apply elem_of_map_to_list in Hin. eauto. }
  assert (∀ k p, players !! k = Some p → (k, p) ∈ map_to_list players) as Hin.
  { intros k p Hp. by apply elem_of_map_to_list. }
  revert Hl Hin. generalize (map_to_list players). clear Hnn.
  intros l Hl Hin.
  assert (0 <= foldr (λ (kv : string * OverviewTableRow) acc, acc + f kv.2) 0 l
          ∧ ∀ kv, kv ∈ l →
                  f kv.2 <= foldr (λ (kv : string * OverviewTableRow) acc, acc + f kv.2) 0 l)
    as [H0 Hle].
  { clear Hin. induction l as [|kv l IH]; simpl.
    - split; [lra|]. intros kv Hkv. by apply not_elem_of_nil in Hkv.
    - destruct IH as [IH0 IHle]; [intros; apply Hl; by right|].
      assert (0 <= f kv.2) by (apply Hl; left).
      split; [lra|]. intros kv' Hkv'. apply elem_of_cons in Hkv' as [->|Hkv'].
      + lra.
      + specialize (IHle kv' Hkv'). lra. }
  split; [done|]. intros k p Hp. apply (Hle (k, p)). by apply Hin.
Qed.

(** The percentages of the parts of a total add up to a hundred. *)
Lemma percentages_sum (f : OverviewTableRow → Q) (total : Q)
    (l : list (string * OverviewTableRow)) :
  ¬ total == 0 →
  foldr (λ (kv : string * OverviewTableRow) acc,
           acc + try_div (f kv.2) total (λ q, q * 100)) 0 l
  == foldr (λ (kv : string * OverviewTableRow) acc, acc + f kv.2) 0 l / total * 100.
Proof.
  intros Hne. induction l as [|kv l IH]; simpl.
  - field. exact Hne.
  - rewrite IH. unfold try_div, py_truediv.
    destruct (Qeq_bool total 0) eqn:E; [apply Qeq_bool_iff in E; contradiction|].
    field. exact Hne.
Qed.

Lemma percentage_bounded (x total : Q) :
  0 <= x → x <= total →
  0 <= try_div x total (λ q, q * 100) ∧ try_div x total (λ q, q * 100) <= 100.
Proof.
  intros Hx Hle. unfold try_div, py_truediv.
  destruct (Qeq_bool total 0) eqn:E; [lra|].
  assert (¬ total == 0) as Hne.
  { intros H0. apply Qeq_bool_iff in H0. congruence. }
  assert (0 < total) as Hpos by lra.
  assert (x / total * total == x) as Hq by (field; exact Hne).
  assert (0 <= x / total) as Hq0.
  { apply Qle_shift_div_l; lra. }
  assert (x / total <= 1) as Hq1.
  { apply Qle_shift_div_r; lra. }
  split; lra.
Qed.

Section SecondPassShares.

Variable BUILD_DETECTION_ABILITIES : list (string * string).

Local Abbreviation analyze_one := (analyze_player BUILD_DETECTION_ABILITIES).
Local Abbreviation analyze := (analyze_players BUILD_DETECTION_ABILITIES).
Local Abbreviation kept self :=
  (filter (λ kv : string * OverviewTableRow, has_combat_time kv.2 = true)
     (Combat.players self)).

(** The player the last loop leaves for [p]. *)
Local Abbreviation updated totals p :=
  (default p (analyzed BUILD_DETECTION_ABILITIES totals p)).

Lemma analyze_players_fmap self self' :
  analyze self = Returned self' →
  Combat.players self' = (λ p, updated (analyze_totals (kept self)) p) <$> kept self
  ∧ ∀ k p, kept self !! k = Some p →
           analyze_one (analyze_totals (kept self)) p
           = Returned (updated (analyze_totals (kept self)) p).
Proof.
  unfold analyze_players.
  destruct (map_fold _ _ _) as [e|] eqn:Hscan; [discriminate|].
  intros [= <-]. simpl.
  assert (∀ k p, kept self !! k = Some p →
            analyze_one (analyze_totals (kept self)) p
            = Returned (updated (analyze_totals (kept self)) p)) as Hall.
  { intros k p Hp.
    destruct (proj1 (no_raise_scan _ _ _) Hscan k p Hp) as [p' Hp'].
    unfold analyzed. by rewrite Hp'. }
  split; [|exact Hall].
  apply map_eq. intros k. rewrite lookup_omap, lookup_fmap.
  destruct (kept self !! k) as [p|] eqn:Hp; simpl; [|done].
  unfold analyzed at 1. by rewrite (Hall k p Hp).
Qed.

Lemma analyze_player_shares totals p p' :
  analyze_one totals p = Returned p' →
  damage_share p' = try_div (total_damage p) (totals_damage_out totals) (λ q, q * 100)
  ∧ taken_damage_share p'
    = try_div (total_damage_taken p) (totals_damage_in totals) (λ q, q * 100)
  ∧ attacks_in_share p'
    = try_div (attacks_in_num p) (totals_attacks_in totals) (λ q, q * 100)
  ∧ heal_share p' = try_div (total_heals p) (totals_heals totals) (λ q, q * 100).
Proof.
  unfold analyze_player.
  destruct (combat_interval p) as [interval|]; [|discriminate].
  destruct (events p) as [player_events|]; [|discriminate].
  destruct (np_divide _ _) as [dps|e]; [|discriminate].
  intros [= <-]. simpl. repeat split.
Qed.

Lemma sum_over_ext (f g : OverviewTableRow → Q) (players : gmap string OverviewTableRow) :
  (∀ k p, players !! k = Some p → f p = g p) →
  sum_over f players = sum_over g players.
Proof.
  intros Hext. rewrite !sum_over_foldr.
  assert (∀ kv, kv ∈ map_to_list players → f kv.2 = g kv.2) as Hl.
  { intros [k p] Hin. apply elem_of_map_to_list in Hin. eauto. }
  revert Hl. generalize (map_to_list players).
  induction l as [|kv l IH]; intros Hl; simpl; [done|].
  rewrite IH by (intros; apply Hl; by right). f_equal. apply Hl. left.
Qed.

(** The share of a field, in percent, summed over the players the second
    pass leaves. *)
Lemma share_sum self self'
    (field share : OverviewTableRow → Q) (total_of : Totals → Q) :
  analyze self = Returned self' →
  total_of (analyze_totals (kept self)) = sum_over field (kept self) →
  (∀ p p', analyze_one (analyze_totals (kept self)) p = Returned p' →
           share p' = try_div (field p) (total_of (analyze_totals (kept self)))
                        (λ q, q * 100)) →
  ¬ total_of (analyze_totals (kept self)) == 0 →
  sum_over share (Combat.players self') == 100.
Proof.
  intros Hrun Htotal Hshare Hne.
  destruct (analyze_players_fmap _ _ Hrun) as [-> Hall].
  rewrite sum_over_fmap.
  rewrite (sum_over_ext _ (λ p, try_div (field p)
                                  (total_of (analyze_totals (kept self)))
                                  (λ q, q * 100))).
  - rewrite sum_over_foldr, percentages_sum by done.
    rewrite <- sum_over_foldr, <- Htotal. field. exact Hne.
  - intros k p Hp. simpl. apply Hshare. by apply (Hall k).
Qed.

(** X9. The four shares of the second pass are percentages of the totals of
    the players it keeps.  Over the players left by a returning
    [analyze_players], each share whose total is not zero sums to a
    hundred; and when the four summed fields are non-negative for every
    kept player, each share of each player lies between 0 and 100. *)
Theorem analyze_players_shares (self self' : Combat.t) :
  analyze self = Returned self' →
  (¬ sum_over total_damage (kept self) == 0 →
   sum_over damage_share (Combat.players self') == 100)
  ∧ (¬ sum_over total_damage_taken (kept self) == 0 →
     sum_over taken_damage_share (Combat.players self') == 100)
  ∧ (¬ sum_over attacks_in_num (kept self) == 0 →
     sum_over attacks_in_share (Combat.players self') == 100)
  ∧ (¬ sum_over total_heals (kept self) == 0 →
     sum_over heal_share (Combat.players self') == 100)
  ∧ ((∀ k p, kept self !! k = Some p →
             0 <= total_damage p ∧ 0 <= total_damage_taken p
             ∧ 0 <= attacks_in_num p ∧ 0 <= total_heals p) →
     ∀ k p, Combat.players self' !! k = Some p →
            (0 <= damage_share p ∧ damage_share p <= 100)
            ∧ (0 <= taken_damage_share p ∧ taken_damage_share p <= 100)
            ∧ (0 <= attacks_in_share p ∧ attacks_in_share p <= 100)
            ∧ (0 <= heal_share p ∧ heal_share p <= 100)).
Proof.
  intros Hrun.
  split; [|split; [|split; [|split]]].
  - intros Hne.
    apply (share_sum self self' total_damage damage_share totals_damage_out);
      [done|done| |done].
    intros p p' Hp. by apply analyze_player_shares in Hp as (? & ? & ? & ?).
  - intros Hne.
    apply (share_sum self self' total_damage_taken taken_damage_share totals_damage_in);
      [done|done| |done].
    intros p p' Hp. by apply analyze_player_shares in Hp as (? & ? & ? & ?).
  - intros Hne.
    apply (share_sum self self' attacks_in_num attacks_in_share totals_attacks_in);
      [done|done| |done].
    intros p p' Hp. by apply analyze_player_shares in Hp as (? & ? & ? & ?).
  - intros Hne.
    apply (share_sum self self' total_heals heal_share totals_heals);
      [done|done| |done].
    intros p p' Hp. by apply analyze_player_shares in Hp as (? & ? & ? & ?).
  - intros Hnn k p' Hp'.
    destruct (analyze_players_fmap _ _ Hrun) as [Hplayers Hall].
    rewrite Hplayers, lookup_fmap in Hp'.
    destruct (kept self !! k) as [p|] eqn:Hp; [|discriminate].
    injection Hp' as <-.
    pose proof (Hall k p Hp) as Hone.
    apply analyze_player_shares in Hone as (-> & -> & -> & ->). simpl.
    destruct (sum_over_bounds total_damage (kept self)) as [_ H1];
      [intros; by apply (Hnn k0)|].
    destruct (sum_over_bounds total_damage_taken (kept self)) as [_ H2];
      [intros; by apply (Hnn k0)|].
    destruct (sum_over_bounds attacks_in_num (kept self)) as [_ H3];
      [intros; by apply (Hnn k0)|].
    destruct (sum_over_bounds total_heals (kept self)) as [_ H4];
      [intros; by apply (Hnn k0)|].
    destruct (Hnn k p Hp) as (? & ? & ? & ?).
    repeat split; apply percentage_bounded; eauto.
Qed.

End SecondPassShares.

Lemma analyze_players_shares_witness :
  sum_over damage_share (Combat.players busy_combat_analyzed) == 100.
Proof.
  apply (analyze_players_shares [("Torpedo", "Torpedo boat")] busy_combat
           busy_combat_analyzed).
  - vm_compute. reflexivity.
  - vm_compute. discriminate.
Defined.

(** ** Graph slicing at the ends of the series *)

Lemma py_slice_length {A : Type} (l : list A) (a b : Z) :
  (0 ≤ a)%Z → (a ≤ b)%Z →
  length (py_slice l a (b + 1))
  = Z.to_nat (Z.min (b + 1) (Z.of_nat (length l)) - Z.min a (Z.of_nat (length l))).
Proof.
  intros Ha Hab. unfold py_slice, slice_index.
  destruct (Z.ltb_spec a 0); [lia|].
  destruct (Z.ltb_spec (b + 1) 0); [lia|].
  rewrite length_take, length_drop.
  generalize (length l). intros n.
  destruct (Z.min_spec (b + 1) (Z.of_nat n)) as [[? ->]|[? ->]];
    destruct (Z.min_spec a (Z.of_nat n)) as [[? ->]|[? ->]]; lia.
Qed.

Lemma linspace_last (start stop : Q) (num : nat) :
  (2 ≤ num)%nat →
  ∃ t, linspace start stop num !! (num - 1)%nat = Some t ∧ t == stop.
Proof.
  intros Hnum.
  destruct (linspace_lookup start stop num (num - 1)) as (t & Ht & Hcase); [lia|].
  exists t. split; [done|].
  destruct Hcase as [[Hone _]|[_ ->]]; [lia|].
  assert (¬ inject_Z (Z.of_nat (num - 1)) == 0) as Hne.
  { intros H0. apply (inject_Z_injective (Z.of_nat (num - 1)) 0%Z) in H0. lia. }
  field. exact Hne.
Qed.

(** X10. [create_overview_graphs] on any interval.  Without a series for the
    player's handle it raises a [KeyError].  With one it returns: the
    three sequences have the length of the slice, which for
    [0 <= a <= b] is the number of buckets of [[a, b]] that the series
    has, so none when the series ends before [a]; the graph time starts
    at [rho * (a + 1)] and, with two points or more, still ends at
    [rho * (b + 1)] when the series is shorter than the interval; the
    fields of the player other than the three sequences are untouched. *)
Theorem create_overview_graphs_clipped
    (self : Combat.t) (player : OverviewTableRow) (a b : Z) :
  match Combat.overview_graphs self !! handle player with
  | None => create_overview_graphs self player (a, b) = Raised KeyError
  | Some graph =>
      ∃ player',
        create_overview_graphs self player (a, b) = Returned player'
        ∧ length (graph_time player') = length (py_slice graph a (b + 1))
        ∧ length (DMG_graph_data player') = length (py_slice graph a (b + 1))
        ∧ length (DPS_graph_data player') = length (py_slice graph a (b + 1))
        ∧ ((0 ≤ a)%Z → (a ≤ b)%Z →
           length (py_slice graph a (b + 1))
           = Z.to_nat (Z.min (b + 1) (Z.of_nat (length graph))
                       - Z.min a (Z.of_nat (length graph))))
        ∧ ((0 ≤ a)%Z → (a ≤ b)%Z → (Z.of_nat (length graph) ≤ a)%Z →
           graph_time player' = [] ∧ DMG_graph_data player' = []
           ∧ DPS_graph_data player' = [])
        ∧ ((1 ≤ length (py_slice graph a (b + 1)))%nat →
           ∃ t, graph_time player' !! 0%nat = Some t
                ∧ t == Combat.graph_resolution self * inject_Z (a + 1))
        ∧ ((2 ≤ length (py_slice graph a (b + 1)))%nat →
           ∃ t, last (graph_time player') = Some t
                ∧ t == Combat.graph_resolution self * inject_Z (b + 1))
        ∧ set_graphs player' (graph_time player) (DMG_graph_data player)
            (DPS_graph_data player) = player
  end.
Proof.
  unfold create_overview_graphs.
  destruct (Combat.overview_graphs self !! handle player) as [graph|]; [|done].
  eexists. split; [reflexivity|]. simpl.
  set (dmg := py_slice graph a (b + 1)).
  split; [by rewrite length_linspace|]. split; [done|]. split.
  { rewrite length_zip_with, length_cumsum, length_fmap, length_linspace. lia. }
  split; [apply py_slice_length|]. split.
  { intros Ha Hab Hshort.
    assert (length dmg = 0%nat) as Hz.
    { unfold dmg. rewrite py_slice_length by done. lia. }
    destruct dmg; [done | discriminate]. }
  split.
  { intros Hone.
    destruct (linspace_lookup (Combat.graph_resolution self * inject_Z (a + 1))
                (Combat.graph_resolution self * inject_Z (b + 1)) (length dmg) 0)
      as (t & Ht & Hcase); [lia|].
    exists t. split; [done|].
    destruct Hcase as [[_ ->]|[_ ->]]; [done|].
    change (inject_Z (Z.of_nat 0)) with 0. rewrite Qmult_0_l. ring. }
  split.
  { intros Htwo.
    destruct (linspace_last (Combat.graph_resolution self * inject_Z (a + 1))
                (Combat.graph_resolution self * inject_Z (b + 1)) (length dmg) Htwo)
      as (t & Ht & Heq).
    exists t. split; [|done]. rewrite last_lookup, length_linspace.
    replace (Nat.pred (length dmg)) with (length dmg - 1)%nat by lia. done. }
  by destruct player.
Qed.

(** ** What the first pass stores *)

(** [get_player_item] finds the first row of the identity, if any. *)
Lemma get_player_item_spec (model : TreeModel) (name_and_handle : string * string * string) :
  match get_player_item model name_and_handle with
  | Some r =>
      ∃ before after,
        tm_player_children model = before ++ r :: after
        ∧ pi_name_handle_id r = name_and_handle
        ∧ ∀ r', r' ∈ before → pi_name_handle_id r' ≠ name_and_handle
  | None => ∀ r, r ∈ tm_player_children model → pi_name_handle_id r ≠ name_and_handle
  end.
Proof.
  unfold get_player_item.
  induction (tm_player_children model) as [|r0 rows IH]; simpl.
  - intros r Hr. by apply not_elem_of_nil in Hr.
  - case_bool_decide as Hid.
    + exists [], rows. repeat split; [done|]. intros r' Hr'. by apply not_elem_of_nil in Hr'.
    + destruct (find _ rows) as [r|].
      * destruct IH as (before & after & -> & Hr & Hbefore).
        exists (r0 :: before), after. repeat split; [done|].
        intros r' Hr'. apply elem_of_cons in Hr' as [->|Hr']; eauto.
      * intros r Hr. apply elem_of_cons in Hr as [->|Hr]; eauto.
Qed.

Lemma get_player_item_first (model : TreeModel) name_and_handle before r after :
  tm_player_children model = before ++ r :: after →
  pi_name_handle_id r = name_and_handle →
  (∀ r', r' ∈ before → pi_name_handle_id r' ≠ name_and_handle) →
  get_player_item model name_and_handle = Some r.
Proof.
  unfold get_player_item. intros -> Hr Hbefore.
  induction before as [|r0 before IH]; simpl.
  - by rewrite bool_decide_eq_true_2.
  - rewrite bool_decide_eq_false_2 by (apply Hbefore; left).
    apply IH. intros r' Hr'. apply Hbefore. by right.
Qed.

Lemma get_player_item_none (model : TreeModel) name_and_handle :
  (∀ r, r ∈ tm_player_children model → pi_name_handle_id r ≠ name_and_handle) →
  get_player_item model name_and_handle = None.
Proof.
  intros Hnone. pose proof (get_player_item_spec model name_and_handle) as Hspec.
  destruct (get_player_item model name_and_handle) as [r|]; [|done].
  destruct Hspec as (before & after & Hsplit & Hr & _).
  destruct (Hnone r); [|done]. rewrite Hsplit. apply elem_of_app. right. left.
Qed.

(** Rows that store nothing under [k] leave the entry of [k] alone. *)
Lemma overview_loop_other_keys self combat_duration intervals rows players totals k :
  (∀ r, r ∈ rows → 0 < pi_data r 19%nat → player_key r ≠ k) →
  (overview_loop self combat_duration intervals rows players totals).1.1 !! k
  = players !! k.
Proof.
  revert players totals.
  induction rows as [|row rows IH]; intros players totals Hother; simpl; [done|].
  destruct (Qle_bool (pi_data row 19%nat) 0) eqn:Hle.
  - apply IH. intros r Hr. apply Hother. by right.
  - assert (0 < pi_data row 19%nat) as Hpos.
    { apply Qnot_le_lt. intros H. apply Qle_bool_iff in H. congruence. }
    destruct (overview_player self combat_duration intervals row) as [player|e];
      simpl; [|done].
    rewrite IH by (intros r Hr; apply Hother; by right).
    apply lookup_insert_ne. apply (Hother row); [left | done].
Qed.

(** The last row of a key with a positive combat duration decides the
    entry of that key. *)
Lemma overview_loop_stores self combat_duration intervals pre row post players totals :
  (overview_loop self combat_duration intervals (pre ++ row :: post) players totals).2
  = Returned tt →
  0 < pi_data row 19%nat →
  (∀ r, r ∈ post → 0 < pi_data r 19%nat → player_key r ≠ player_key row) →
  ∃ player,
    overview_player self combat_duration intervals row = Returned player
    ∧ (overview_loop self combat_duration intervals (pre ++ row :: post)
         players totals).1.1 !! player_key row = Some player.
Proof.
  revert players totals.
  induction pre as [|r0 pre IH]; intros players totals; simpl.
  - intros Hret Hpos Hlater.
    destruct (Qle_bool (pi_data row 19%nat) 0) eqn:Hle;
      [apply Qle_bool_iff in Hle; lra|].
    destruct (overview_player self combat_duration intervals row) as [player|e];
      simpl in *; [|discriminate].
    exists player. split; [done|].
    rewrite overview_loop_other_keys by done. apply lookup_insert_eq.
  - intros Hret Hpos Hlater.
    destruct (Qle_bool (pi_data r0 19%nat) 0); [by apply IH|].
    destruct (overview_player self combat_duration intervals r0) as [player0|e];
      simpl in *; [by apply IH | discriminate].
Qed.

(** X11. The player the first pass stores for a row.  When [create_overview]
    returns, a row of the damage-dealt tree with a positive combat
    duration that no later such row shares its key with is stored under
    that key as a player carrying the row's name and handle and the
    fields read off the row, with the combat-time share the quotient of
    the row's duration and the (non-zero) duration of the combat.  The
    damage-taken fields are those of the first row of the same identity
    in the damage-received tree, and zero when there is none; likewise
    the heal fields and the heal-dealt tree.  The damage share is the
    player's total damage over the total of the loop, or [0]. *)
Theorem create_overview_stores
    (self : Combat.t) (intervals : gmap string (Z * Z)) (end_time start_time : Q)
    (damage_out damage_in heals_out : TreeModel)
    (pre post : list PlayerItem) (row : PlayerItem) :
  Combat.end_time self = Some end_time →
  Combat.start_time self = Some start_time →
  Combat.damage_out self = Some damage_out →
  Combat.damage_in self = Some damage_in →
  Combat.heals_out self = Some heals_out →
  tm_player_children damage_out = pre ++ row :: post →
  0 < pi_data row 19%nat →
  (∀ r, r ∈ post → 0 < pi_data r 19%nat → player_key r ≠ player_key row) →
  (create_overview self intervals).2 = Returned tt →
  ∃ p,
    Combat.players (create_overview self intervals).1 !! player_key row = Some p
    ∧ name p = pi_name row ∧ handle p = pi_handle row
    ∧ DPS p = pi_data row 1%nat
    ∧ total_damage p = pi_data row 2%nat
    ∧ debuff p = pi_data row 3%nat
    ∧ max_one_hit p = pi_data row 4%nat
    ∧ crit_chance p = pi_data row 5%nat
    ∧ total_attacks p = pi_data row 9%nat
    ∧ misses p = pi_data row 10%nat
    ∧ crit_num p = pi_data row 11%nat
    ∧ combat_time p = pi_data row 19%nat
    ∧ hull_attacks p = pi_data row 20%nat
    ∧ ¬ end_time - start_time == 0
    ∧ combat_time_share p = pi_data row 19%nat / (end_time - start_time)
    ∧ damage_share p
      = try_div (pi_data row 2%nat)
          (totals_damage_out (overview_totals self intervals)) (λ q, q)
    ∧ ((∀ r, r ∈ tm_player_children damage_in →
             pi_name_handle_id r ≠ pi_name_handle_id row) →
       deaths p = 0 ∧ total_damage_taken p = 0 ∧ total_hull_damage_taken p = 0
       ∧ total_shield_damage_taken p = 0 ∧ attacks_in_num p = 0)
    ∧ (∀ before r after,
         tm_player_children damage_in = before ++ r :: after →
         pi_name_handle_id r = pi_name_handle_id row →
         (∀ r', r' ∈ before → pi_name_handle_id r' ≠ pi_name_handle_id row) →
         deaths p = pi_data r 8%nat ∧ total_damage_taken p = pi_data r 2%nat
         ∧ total_hull_damage_taken p = pi_data r 15%nat
         ∧ total_shield_damage_taken p = pi_data r 13%nat
         ∧ attacks_in_num p = pi_data r 9%nat)
    ∧ ((∀ r, r ∈ tm_player_children heals_out →
             pi_name_handle_id r ≠ pi_name_handle_id row) →
       total_heals p = 0 ∧ heal_crit_chance p = 0 ∧ heal_crit_num p = 0
       ∧ heal_num p = 0)
    ∧ (∀ before r after,
         tm_player_children heals_out = before ++ r :: after →
         pi_name_handle_id r = pi_name_handle_id row →
         (∀ r', r' ∈ before → pi_name_handle_id r' ≠ pi_name_handle_id row) →
         total_heals p = pi_data r 2%nat ∧ heal_crit_chance p = pi_data r 8%nat
         ∧ heal_num p = pi_data r 9%nat ∧ heal_crit_num p = pi_data r 10%nat).
Proof.
  intros He Hs Hdo Hdi Hho Hrows Hpos Hlater Hret.
  unfold create_overview, overview_totals in *. rewrite He, Hs, Hdo in *.
  rewrite Hrows in *.
  destruct (overview_loop self (end_time - start_time) intervals (pre ++ row :: post)
              (Combat.players self) (mkTotals 0 0 0 0))
    as [[players totals] [[]|e]] eqn:Hloop; [|discriminate].
  destruct (overview_loop_stores self (end_time - start_time) intervals pre row post
              (Combat.players self) (mkTotals 0 0 0 0)) as (p0 & Hp0 & Hlookup);
    [by rewrite Hloop|done|done|].
  rewrite Hloop in Hlookup. simpl in Hlookup |- *.
  exists (overview_shares totals p0). split; [by rewrite lookup_fmap, Hlookup|].
  unfold overview_player in Hp0.
  unfold py_truediv in Hp0.
  destruct (Qeq_bool (end_time - start_time) 0) eqn:Hzero; [discriminate|].
  assert (¬ end_time - start_time == 0) as Hne.
  { intros H0. apply Qeq_bool_iff in H0. congruence. }
  rewrite Hdi, Hho in Hp0. simpl in Hp0.
  assert (∃ gt dmg dps,
            p0 = set_graphs
                   {| name := pi_name row;
                      handle := pi_handle row;
                      DPS := pi_data row 1%nat;
                      combat_time := pi_data row 19%nat;
                      combat_time_share := pi_data row 19%nat / (end_time - start_time);
                      total_damage := pi_data row 2%nat;
                      debuff := pi_data row 3%nat;
                      max_one_hit := pi_data row 4%nat;
                      crit_chance := pi_data row 5%nat;
                      total_attacks := pi_data row 9%nat;
                      hull_attacks := pi_data row 20%nat;
                      crit_num := pi_data row 11%nat;
                      misses := pi_data row 10%nat;
                      deaths :=
                        row_field (get_player_item damage_in (pi_name_handle_id row)) 8;
                      total_damage_taken :=
                        row_field (get_player_item damage_in (pi_name_handle_id row)) 2;
                      total_hull_damage_taken :=
                        row_field (get_player_item damage_in (pi_name_handle_id row)) 15;
                      total_shield_damage_taken :=
                        row_field (get_player_item damage_in (pi_name_handle_id row)) 13;
                      attacks_in_num :=
                        row_field (get_player_item damage_in (pi_name_handle_id row)) 9;
                      total_heals :=
                        row_field (get_player_item heals_out (pi_name_handle_id row)) 2;
                      heal_crit_chance :=
                        row_field (get_player_item heals_out (pi_name_handle_id row)) 8;
                      heal_crit_num :=
                        row_field (get_player_item heals_out (pi_name_handle_id row)) 10;
                      heal_num :=
                        row_field (get_player_item heals_out (pi_name_handle_id row)) 9;
                      heal_share := 0;
                      attacks_in_share := 0;
                      taken_damage_share := 0;
                      damage_share := 0;
                      base_damage := 0;
                      combat_interval := None;
                      events := None;
                      build := None;
                      graph_time := [];
                      DMG_graph_data := [];
                      DPS_graph_data := [] |} gt dmg dps) as (gt & dmg & dps & ->).
  { destruct (intervals !! pi_handle row) as [interval|].
    - unfold create_overview_graphs in Hp0. simpl in Hp0.
      destruct (Combat.overview_graphs self !! pi_handle row); [|discriminate].
      injection Hp0 as <-. eauto.
    - injection Hp0 as <-. exists [], [], []. reflexivity. }
  simpl. repeat split; try done.
  all: first
    [ by rewrite (get_player_item_none damage_in) by done
    | by rewrite (get_player_item_none heals_out) by done
    | by erewrite (get_player_item_first damage_in) by eauto
    | by erewrite (get_player_item_first heals_out) by eauto ].
Qed.

Lemma create_overview_stores_witness :
  ∃ p,
    Combat.players (create_overview busy_combat busy_intervals).1 !! player_key ann_row
    = Some p
    ∧ name p = "Ann" ∧ total_damage p = 600 ∧ combat_time_share p = 30 / (60 - 0)
    ∧ total_damage_taken p = 0.
Proof.
  destruct (create_overview_stores busy_combat busy_intervals 60 0
              (mkTreeModel [idle_row; ann_row] []) (mkTreeModel [] [])
              (mkTreeModel [] []) [idle_row] [] ann_row)
    as (p & Hp & Hname & _ & _ & Htotal & _ & _ & _ & _ & _ & _ & _ & _ & _
        & Hshare & _ & Hnone & _); try reflexivity.
  - intros r Hr. inversion Hr.
  - exists p. split; [exact Hp|]. split; [exact Hname|]. split; [exact Htotal|].
    split; [exact Hshare|]. apply Hnone. intros r Hr. inversion Hr.
Defined.

(** ** Build detection *)

Lemma append_cons (c : Ascii.ascii) (a b : string) :
  String c a +:+ b = String c (a +:+ b).
Proof. reflexivity. Qed.

Lemma append_nil (b : string) : "" +:+ b = b.
Proof. reflexivity. Qed.

Lemma prefix_spec (k s : string) :
  String.prefix k s = true ↔ ∃ b, s = k +:+ b.
Proof.
  revert s. induction k as [|c k IH]; intros s.
  - destruct s; simpl; (split; [|done]); intros _; eexists; reflexivity.
  - destruct s as [|c' s]; simpl.
    + split; [discriminate|]. intros [b Hb]. rewrite append_cons in Hb. discriminate.
    + destruct (Ascii.ascii_dec c c') as [->|Hne].
      * rewrite IH. split; intros [b Hb]; exists b; rewrite append_cons in *; congruence.
      * split; [discriminate|]. intros [b Hb]. rewrite append_cons in Hb. congruence.
Qed.

(** [k in event] holds exactly when [event] is [a + k + b]. *)
Lemma py_in_spec (k event : string) :
  py_in k event = true ↔ ∃ a b, event = a +:+ k +:+ b.
Proof.
  induction event as [|c event IH].
  - change (py_in k "") with (String.prefix k "" || false).
    rewrite orb_false_r, prefix_spec. split.
    + intros [b Hb]. exists "", b. done.
    + intros (a & b & Hab). destruct a as [|c a].
      * rewrite append_nil in Hab. eauto.
      * rewrite append_cons in Hab. discriminate.
  - change (py_in k (String c event))
      with (String.prefix k (String c event) || py_in k event).
    rewrite orb_true_iff, prefix_spec, IH. split.
    + intros [[b Hb]|(a & b & Hab)].
      * exists "", b. done.
      * exists (String c a), b. rewrite append_cons. by rewrite Hab.
    + intros (a & b & Hab). destruct a as [|c' a].
      * rewrite append_nil in Hab. left. eauto.
      * rewrite append_cons in Hab. right. injection Hab as -> Hab. eauto.
Qed.

Lemma existsb_py_in (k : string) (player_events : list string) :
  existsb (py_in k) player_events = true ↔ occurs_in k player_events.
Proof.
  unfold occurs_in. rewrite existsb_exists. split.
  - intros (event & Hin & Hk). apply py_in_spec in Hk as (a & b & Hab).
    exists event, a, b. split; [by apply list_elem_of_In | done].
  - intros (event & a & b & Hin & Hab). exists event.
    split; [by apply list_elem_of_In|]. apply py_in_spec. eauto.
Qed.

(** X12. The build of a player.  The loop over the build table ends its scan
    of the events at the first event that holds a marker but goes on to
    the next marker, so the label that stays is that of the last marker,
    in table order, that occurs in some event; when no marker occurs the
    build is left as it was. *)
Theorem detect_build_last_marker
    (build_table : list (string * string)) (player_events : list string)
    (build : option string) :
  ((∀ k v, (k, v) ∈ build_table → ¬ occurs_in k player_events) →
   detect_build build_table player_events build = build)
  ∧ (∀ pre k v post,
       build_table = pre ++ (k, v) :: post →
       occurs_in k player_events →
       (∀ k' v', (k', v') ∈ post → ¬ occurs_in k' player_events) →
       detect_build build_table player_events build = Some v).
Proof.
  assert (∀ table b,
            (∀ k v, (k, v) ∈ table → ¬ occurs_in k player_events) →
            detect_build table player_events b = b) as Hnone.
  { unfold detect_build. induction table as [|[k v] table IH]; intros b Hno; [done|].
    simpl. destruct (existsb (py_in k) player_events) eqn:E.
    - apply existsb_py_in in E. destruct (Hno k v); [left | done].
    - apply IH. intros k' v' Hin. apply (Hno k' v'). by right. }
  split; [apply Hnone|].
  intros pre k v post -> Hk Hpost.
  unfold detect_build in *. rewrite foldl_app. simpl.
  apply existsb_py_in in Hk. rewrite Hk. by apply Hnone.
Qed.

Example detect_build_run :
  detect_build [("Torpedo", "Torpedo boat"); ("Beam", "Beam boat"); ("Mine", "Miner")]
    ["Photon Torpedo"; "Phaser Beam Array"] None = Some "Beam boat".
Proof. reflexivity. Qed.

(** ** Timestamps *)

Lemma append_empty (a : string) : a +:+ "" = a.
Proof. induction a as [|c a IH]; [done|]. by rewrite append_cons, IH. Qed.

Lemma replace_char_zero old new s : replace_char old new 0 s = s.
Proof. by destruct s. Qed.

Lemma replace_char_free old new count a b :
  char_free old a = true →
  replace_char old new count (a +:+ b) = a +:+ replace_char old new count b.
Proof.
  induction a as [|c a IH]; intros Hfree.
  - by rewrite !append_nil.
  - rewrite !append_cons. simpl in Hfree. apply andb_true_iff in Hfree as [Hc Ha].
    apply negb_true_iff in Hc. simpl. rewrite Hc.
    destruct count as [|n]; [by rewrite replace_char_zero | by rewrite IH].
Qed.

Lemma replace_char_hit old new n b :
  replace_char old new (S n) (String old b) = String new (replace_char old new n b).
Proof. simpl. by rewrite Ascii.eqb_refl. Qed.

Lemma before_char_free sep a b :
  char_free sep a = true →
  before_char sep (a +:+ b) = a +:+ before_char sep b.
Proof.
  induction a as [|c a IH]; intros Hfree.
  - by rewrite !append_nil.
  - rewrite !append_cons. simpl in Hfree. apply andb_true_iff in Hfree as [Hc Ha].
    apply negb_true_iff in Hc. simpl. rewrite Hc. by rewrite IH.
Qed.

Lemma before_char_all sep a :
  char_free sep a = true → before_char sep a = a.
Proof.
  induction a as [|c a IH]; intros Hfree; [done|].
  simpl in *. apply andb_true_iff in Hfree as [Hc Ha].
  apply negb_true_iff in Hc. rewrite Hc. by rewrite IH.
Qed.

Lemma before_char_is_free sep s : char_free sep (before_char sep s) = true.
Proof.
  induction s as [|c s IH]; [done|]. simpl.
  destruct (Ascii.eqb c sep) eqn:E; [done|]. simpl. by rewrite E.
Qed.

(** X13. [format_timestamp] on a timestamp of the log.  A timestamp made of a
    year, a month and a day, a time of day and possibly a fraction, as in
    ['24:01:13:04:37:45.7'], becomes the date with dashes, an underscore
    and the time of day with its colons, as in ['24-01-13_04:37:45']: the
    fraction is dropped.  Whatever the input, the result holds no dot. *)
Theorem format_timestamp_spec (year month day time_of_day : string) :
  char_free ":"%char year = true → char_free "."%char year = true →
  char_free ":"%char month = true → char_free "."%char month = true →
  char_free ":"%char day = true → char_free "."%char day = true →
  char_free "."%char time_of_day = true →
  format_timestamp (year +:+ ":" +:+ month +:+ ":" +:+ day +:+ ":" +:+ time_of_day)
  = year +:+ "-" +:+ month +:+ "-" +:+ day +:+ "_" +:+ time_of_day
  ∧ (∀ fraction,
       format_timestamp
         (year +:+ ":" +:+ month +:+ ":" +:+ day +:+ ":" +:+ time_of_day
          +:+ "." +:+ fraction)
       = year +:+ "-" +:+ month +:+ "-" +:+ day +:+ "_" +:+ time_of_day)
  ∧ ∀ timestamp, char_free "."%char (format_timestamp timestamp) = true.
Proof.
  intros Hy Hy' Hm Hm' Hd Hd' Ht.
  assert (∀ tail,
            format_timestamp
              (year +:+ ":" +:+ month +:+ ":" +:+ day +:+ ":" +:+ tail)
            = year +:+ "-" +:+ month +:+ "-" +:+ day +:+ "_" +:+ before_char "."%char tail)
    as Hgen.
  { intros tail. unfold format_timestamp.
    rewrite (replace_char_free ":"%char "-" 2 year) by done.
    rewrite append_cons, append_nil, replace_char_hit.
    rewrite (replace_char_free ":"%char "-" 1 month) by done.
    rewrite append_cons, append_nil, replace_char_hit, replace_char_zero.
    rewrite (replace_char_free ":"%char "_" 1 year) by done.
    change (replace_char ":"%char "_"%char 1 (String "-"%char ?s)) with (String "-"%char (replace_char ":"%char "_"%char 1 s)).
    rewrite (replace_char_free ":"%char "_" 1 month) by done.
    change (replace_char ":"%char "_"%char 1 (String "-"%char ?s)) with (String "-"%char (replace_char ":"%char "_"%char 1 s)).
    rewrite (replace_char_free ":"%char "_" 1 day) by done.
    rewrite append_cons, append_nil, replace_char_hit, replace_char_zero.
    rewrite (before_char_free "."%char%char year) by done.
    change (before_char "."%char (String "-"%char ?s)) with (String "-"%char (before_char "."%char s)).
    rewrite (before_char_free "."%char%char month) by done.
    change (before_char "."%char (String "-"%char ?s)) with (String "-"%char (before_char "."%char s)).
    rewrite (before_char_free "."%char%char day) by done.
    change (before_char "."%char (String "_"%char ?s)) with (String "_"%char (before_char "."%char s)).
    reflexivity. }
  split; [|split].
  - rewrite Hgen. by rewrite before_char_all.
  - intros fraction. rewrite Hgen. rewrite before_char_free by done.
    rewrite append_cons, append_nil. simpl. by rewrite append_empty.
  - intros timestamp. apply before_char_is_free.
Qed.

Lemma format_timestamp_spec_witness :
  format_timestamp "24:01:13:04:37:45.7" = "24-01-13_04:37:45".
Proof.
  exact (proj1 (proj2 (format_timestamp_spec "24" "01" "13" "04:37:45"
                         eq_refl eq_refl eq_refl eq_refl eq_refl eq_refl eq_refl))
           "7").
Defined.

(** ** Byte ranges and log files *)

Lemma seek_read_range (content : list Byte.byte) (start_pos end_pos : Z) :
  (0 ≤ start_pos)%Z → (start_pos ≤ end_pos)%Z →
  seek_read content start_pos (end_pos - start_pos)
  = Returned (take (Z.to_nat (end_pos - start_pos)) (drop (Z.to_nat start_pos) content)).
Proof.
  intros Hs He. unfold seek_read.
  destruct (Z.ltb_spec start_pos 0); [lia|].
  destruct (Z.ltb_spec (end_pos - start_pos) (-1)); [lia|].
  destruct (Z.eqb_spec (end_pos - start_pos) (-1)); [lia|]. reflexivity.
Qed.

Section ExtractBytesProperties.

Variable isabs : string → bool.
Variable writable : string → bool.

(** X14. What [extract_bytes] writes.  With absolute paths, an existing
    source, a target that can be written and positions that are a byte
    range of the source, [0 <= start_pos <= end_pos <= len(source)], the
    call returns and the target holds the bytes of the source from
    [start_pos] up to, not including, [end_pos]: it has
    [end_pos - start_pos] bytes, byte [i] of the target is byte
    [start_pos + i] of the source, and the range from 0 to the length
    copies the file.  Every path other than the target keeps its file. *)
Theorem extract_bytes_writes
    (fs : gmap string (list Byte.byte)) (source_path target_path : string)
    (start_pos end_pos : Z) (content : list Byte.byte) :
  isabs source_path = true → isabs target_path = true →
  fs !! source_path = Some content →
  writable target_path = true →
  (0 ≤ start_pos)%Z → (start_pos ≤ end_pos)%Z →
  (end_pos ≤ Z.of_nat (length content))%Z →
  ∃ written,
    extract_bytes isabs writable fs source_path target_path start_pos end_pos
    = (<[target_path := written]> fs, Returned tt)
    ∧ length written = Z.to_nat (end_pos - start_pos)
    ∧ (∀ i, written !! i
            = if decide (Z.of_nat i < end_pos - start_pos)%Z
              then content !! (Z.to_nat start_pos + i)%nat
              else None)
    ∧ (start_pos = 0%Z → end_pos = Z.of_nat (length content) → written = content)
    ∧ ∀ other, other ≠ target_path →
               (extract_bytes isabs writable fs source_path target_path
                  start_pos end_pos).1 !! other = fs !! other.
Proof.
  intros Hs Ht Hsrc Hw Hstart Hend Hlen.
  exists (take (Z.to_nat (end_pos - start_pos)) (drop (Z.to_nat start_pos) content)).
  assert (extract_bytes isabs writable fs source_path target_path start_pos end_pos
          = (<[target_path :=
                 take (Z.to_nat (end_pos - start_pos))
                   (drop (Z.to_nat start_pos) content)]> fs, Returned tt)) as Hrun.
  { unfold extract_bytes. rewrite Hs, Ht, Hsrc. simpl.
    by rewrite seek_read_range, Hw. }
  split; [exact Hrun|]. split; [|split; [|split]].
  - rewrite length_take, length_drop. lia.
  - intros i. case_decide as Hi.
    + rewrite lookup_take_lt by lia. by rewrite lookup_drop.
    + apply lookup_take_ge. lia.
  - intros -> ->. simpl. rewrite drop_0. apply take_ge. lia.
  - intros other Hother. rewrite Hrun. simpl. by apply lookup_insert_ne.
Qed.

End ExtractBytesProperties.

Lemma extract_bytes_writes_witness :
  ∃ written,
    extract_bytes posix_isabs logs_writable sample_fs
      "/logs/combat.log" "/logs/part.log" 5 8
    = (<[ "/logs/part.log" := written ]> sample_fs, Returned tt)
    ∧ length written = Z.to_nat (8 - 5)
    ∧ (∀ i, written !! i
            = if decide (Z.of_nat i < 8 - 5)%Z
              then sample_log !! (Z.to_nat 5 + i)%nat
              else None)
    ∧ (5%Z = 0%Z → 8%Z = Z.of_nat (length sample_log) → written = sample_log)
    ∧ ∀ other, other ≠ "/logs/part.log" →
               (extract_bytes posix_isabs logs_writable sample_fs
                  "/logs/combat.log" "/logs/part.log" 5 8).1 !! other
               = sample_fs !! other.
Proof.
  apply (extract_bytes_writes posix_isabs logs_writable sample_fs "/logs/combat.log"
           "/logs/part.log" 5 8 sample_log).
  - reflexivity.
  - reflexivity.
  - reflexivity.
  - reflexivity.
  - lia.
  - lia.
  - vm_compute. discriminate.
Defined.

(** The three bytes the extraction above copies, and an extraction to a
    path that cannot be written. *)
Example extract_bytes_runs :
  (extract_bytes posix_isabs logs_writable sample_fs
     "/logs/combat.log" "/logs/part.log" 5 8).1 !! "/logs/part.log"
  = Some (String.list_byte_of_string "one")
  ∧ extract_bytes posix_isabs logs_writable sample_fs
      "/logs/combat.log" "/readonly/part.log" 5 8
    = (sample_fs, Raised OSError).
Proof. split; vm_compute; reflexivity. Qed.

Section LogFileProperties.

Variable stamp : string.
Variable writable : string → bool.

Local Abbreviation temp folder := (tempfile_path stamp folder).
Local Abbreviation compose := (compose_logfile stamp writable).
Local Abbreviation repair := (repair_logfile stamp writable).

Lemma within_readable content interval : within content interval → readable interval.
Proof. intros (? & ? & _). by split. Qed.

Lemma compose_loop_readable content intervals written :
  Forall readable intervals →
  compose_loop content intervals written
  = (written ++ concat (byte_range content <$> intervals), Returned tt).
Proof.
  intros Hall. revert written.
  induction Hall as [|[s e] intervals [Hs He] _ IH]; intros written; simpl.
  - by rewrite app_nil_r.
  - simpl in Hs, He. rewrite seek_read_range by done. rewrite IH.
    by rewrite app_assoc.
Qed.

(** X15. What [compose_logfile] writes.  When the source exists, the
    temporary file is neither the source nor the target, both the
    temporary file and the target can be written, and every interval is a
    byte range of the source, the call returns; the target then holds the
    byte ranges of the source, one after the other in the order of the
    intervals, the temporary file is left behind with the same content,
    and every other path keeps its file.  For a single interval the
    target is what [extract_bytes] writes for it. *)
Theorem compose_logfile_writes
    (fs : gmap string (list Byte.byte)) (source_path target_path : string)
    (intervals : list (Z * Z)) (templog_folder_path : string)
    (content : list Byte.byte) :
  fs !! source_path = Some content →
  temp templog_folder_path ≠ source_path →
  temp templog_folder_path ≠ target_path →
  writable (temp templog_folder_path) = true →
  writable target_path = true →
  Forall (within content) intervals →
  compose_logfile stamp writable fs source_path target_path intervals
    templog_folder_path
  = (<[target_path := concat (byte_range content <$> intervals)]>
       (<[temp templog_folder_path := concat (byte_range content <$> intervals)]> fs),
     Returned tt)
  ∧ (∀ other, other ≠ target_path → other ≠ temp templog_folder_path →
       (compose_logfile stamp writable fs source_path target_path intervals
          templog_folder_path).1 !! other = fs !! other)
  ∧ (∀ isabs start_pos end_pos,
       intervals = [(start_pos, end_pos)] →
       isabs source_path = true → isabs target_path = true →
       (compose_logfile stamp writable fs source_path target_path intervals
          templog_folder_path).1 !! target_path
       = (extract_bytes isabs writable fs source_path target_path
            start_pos end_pos).1 !! target_path).
Proof.
  intros Hsrc Hts Htt Hwt Hw Hall.
  assert (Forall readable intervals) as Hread.
  { eapply Forall_impl; [exact Hall|]. apply within_readable. }
  assert (compose_logfile stamp writable fs source_path target_path intervals
            templog_folder_path
          = (<[target_path := concat (byte_range content <$> intervals)]>
               (<[temp templog_folder_path
                  := concat (byte_range content <$> intervals)]> fs),
             Returned tt)) as Hrun.
  { unfold compose_logfile. rewrite Hsrc, Hwt. cbn [negb].
    rewrite lookup_insert_ne by done. rewrite Hsrc. simpl.
    rewrite compose_loop_readable by done. simpl.
    rewrite decide_False by done. by rewrite Hw, insert_insert_eq. }
  split; [exact Hrun|]. split.
  - intros other Ho1 Ho2. rewrite Hrun. simpl.
    by rewrite !lookup_insert_ne.
  - intros isabs start_pos end_pos -> Habs1 Habs2.
    rewrite Hrun. simpl. rewrite lookup_insert_eq.
    inversion Hread as [|? ? [Hs He] _]; subst. simpl in Hs, He.
    unfold extract_bytes. rewrite Habs1, Habs2, Hsrc. simpl.
    rewrite seek_read_range by done. rewrite Hw. simpl. rewrite lookup_insert_eq.
    by rewrite app_nil_r.
Qed.



(** The lines of a file: put together they are the file; none is empty;
    a newline occurs in a line only as its last byte; and every line but
    the last ends with one. *)
Lemma lines_of_spec (content : list Byte.byte) :
  concat (lines_of content) = content
  ∧ Forall (λ line, line ≠ [] ∧ newline ∉ removelast line) (lines_of content)
  ∧ ∀ i line,
      lines_of content !! i = Some line →
      (S i < length (lines_of content))%nat →
      last line = Some newline.
Proof.
  induction content as [|b rest (IHconcat & IHlines & IHlast)]; simpl.
  - split; [done|]. split; [constructor|]. intros i line Hi. by destruct i.
  - destruct (Byte.eqb b Byte.x0a) eqn:E.
    + apply Byte.byte_dec_bl in E as ->. split; [simpl; by rewrite IHconcat|]. split.
      * constructor; [|done]. split; [done|]. simpl. apply not_elem_of_nil.
      * intros [|i] line Hi Hlen; simpl in *.
        -- by injection Hi as <-.
        -- apply (IHlast i); [done | lia].
    + assert (b ≠ newline) as Hb.
      { intros ->. unfold newline in E. by rewrite (Byte.byte_dec_lb (eq_refl Byte.x0a)) in E. }
      destruct (lines_of rest) as [|line0 lines] eqn:Hrest.
      * simpl in IHconcat. subst rest. split; [done|]. split.
        -- constructor; [|done]. split; [done|]. simpl. apply not_elem_of_nil.
        -- intros [|i] line Hi Hlen; simpl in *; lia.
      * apply Forall_cons in IHlines as [[Hne Hfree] Hothers].
        split; [simpl in *; by rewrite IHconcat|]. split.
        -- constructor; [|done]. split; [done|].
           destruct line0 as [|x line0]; [done|].
           change (removelast (b :: x :: line0)) with (b :: removelast (x :: line0)).
           rewrite elem_of_cons. intros [Heq|Hin]; [by destruct Hb | by destruct Hfree].
        -- intros [|i] line Hi Hlen; simpl in *.
           ++ injection Hi as <-.
              destruct line0 as [|x line0]; [done|].
              change (last (b :: x :: line0)) with (last (x :: line0)).
              apply (IHlast 0%nat); [done | simpl; lia].
           ++ apply (IHlast (S i)); [done | simpl; lia].
Qed.

Lemma repair_line_unbroken (line : list Byte.byte) :
  contains_bytes broken_string line = false →
  repair_line line = if is_blank line then [] else line.
Proof.
  intros Hno. unfold repair_line, patches. simpl.
  destruct (is_blank line); [done|].
  change (String.list_byte_of_string "Rehona, Sister of the Qowat Milat")
    with broken_string.
  rewrite Hno. by rewrite app_nil_r.
Qed.

(** X17. [repair_logfile] on a log without the broken string.  When the
    log exists, the temporary file is not the log itself, both can be
    written and no line holds the broken string, the call returns and the
    log, like the temporary file left behind, holds its lines that are
    not blank, in order and byte for byte; blank lines, those of white
    space only, are gone.  A log without blank lines is therefore left as
    it was, and a log of blank lines only becomes empty. *)
Theorem repair_logfile_unbroken
    (fs : gmap string (list Byte.byte)) (path templog_folder_path : string)
    (content : list Byte.byte) :
  fs !! path = Some content →
  temp templog_folder_path ≠ path →
  writable (temp templog_folder_path) = true →
  writable path = true →
  (∀ line, line ∈ lines_of content → contains_bytes broken_string line = false) →
  repair_logfile stamp writable fs path templog_folder_path
  = (<[path := concat (filter (λ line, is_blank line = false) (lines_of content))]>
       (<[temp templog_folder_path
          := concat (filter (λ line, is_blank line = false) (lines_of content))]> fs),
     Returned tt)
  ∧ ((∀ line, line ∈ lines_of content → is_blank line = false) →
     repair_logfile stamp writable fs path templog_folder_path
     = (<[temp templog_folder_path := content]> fs, Returned tt))
  ∧ ((∀ line, line ∈ lines_of content → is_blank line = true) →
     (repair_logfile stamp writable fs path templog_folder_path).1 !! path = Some []).
Proof.
  intros Hsrc Htemp Hwt Hw Hno.
  assert (∀ lines,
            (∀ line, line ∈ lines → contains_bytes broken_string line = false) →
            flat_map repair_line lines
            = concat (filter (λ line, is_blank line = false) lines)) as Hlines.
  { induction lines as [|line lines IH]; intros Hl; [done|]. simpl.
    rewrite repair_line_unbroken by (apply Hl; left).
    rewrite IH by (intros; apply Hl; by right).
    rewrite filter_cons. destruct (is_blank line) eqn:E.
    - by rewrite decide_False.
    - by rewrite decide_True. }
  assert (repair_logfile stamp writable fs path templog_folder_path
          = (<[path := concat (filter (λ line, is_blank line = false)
                                 (lines_of content))]>
               (<[temp templog_folder_path
                  := concat (filter (λ line, is_blank line = false)
                               (lines_of content))]> fs),
             Returned tt)) as Hrun.
  { unfold repair_logfile. rewrite Hsrc, Hwt. cbn [negb]. cbv zeta.
    rewrite lookup_insert_ne by done.
    rewrite Hsrc. simpl. rewrite decide_False by done.
    rewrite Hw, insert_insert_eq. by rewrite Hlines. }
  split; [exact Hrun|]. split.
  - intros Hnonblank. rewrite Hrun.
    assert (filter (λ line, is_blank line = false) (lines_of content) = lines_of content)
      as ->.
    { revert Hnonblank. generalize (lines_of content).
      induction l as [|line lines IH]; intros Hl; [done|].
      rewrite filter_cons, decide_True by (apply Hl; left).
      f_equal. apply IH. intros; apply Hl; by right. }
    rewrite (proj1 (lines_of_spec content)). rewrite insert_insert_ne by done.
    by rewrite (insert_id fs path content).
  - intros Hblank. rewrite Hrun. simpl. rewrite lookup_insert_eq. f_equal.
    revert Hblank. generalize (lines_of content).
    induction l as [|line lines IH]; intros Hl; [done|].
    rewrite filter_cons, decide_False by (rewrite (Hl line) by left; discriminate).
    apply IH. intros; apply Hl; by right.
Qed.

End LogFileProperties.

Lemma compose_logfile_writes_witness :
  compose_logfile "17" logs_writable sample_fs "/logs/combat.log" "/logs/out.log"
    [(0, 4); (5, 8)]%Z "/logs/tmp"
  = (<[ "/logs/out.log" := concat (byte_range sample_log <$> [(0, 4); (5, 8)]%Z) ]>
       (<[ tempfile_path "17" "/logs/tmp"
           := concat (byte_range sample_log <$> [(0, 4); (5, 8)]%Z) ]> sample_fs),
     Returned tt)
  ∧ (∀ other, other ≠ "/logs/out.log" → other ≠ tempfile_path "17" "/logs/tmp" →
       (compose_logfile "17" logs_writable sample_fs "/logs/combat.log" "/logs/out.log"
          [(0, 4); (5, 8)]%Z "/logs/tmp").1 !! other = sample_fs !! other)
  ∧ (∀ isabs start_pos end_pos,
       [(0, 4); (5, 8)]%Z = [(start_pos, end_pos)] →
       isabs "/logs/combat.log" = true → isabs "/logs/out.log" = true →
       (compose_logfile "17" logs_writable sample_fs "/logs/combat.log" "/logs/out.log"
          [(0, 4); (5, 8)]%Z "/logs/tmp").1 !! "/logs/out.log"
       = (extract_bytes isabs logs_writable sample_fs "/logs/combat.log"
            "/logs/out.log" start_pos end_pos).1 !! "/logs/out.log").
Proof.
  apply (compose_logfile_writes "17" logs_writable sample_fs "/logs/combat.log"
           "/logs/out.log" [(0, 4); (5, 8)]%Z "/logs/tmp" sample_log).
  - reflexivity.
  - discriminate.
  - discriminate.
  - reflexivity.
  - reflexivity.
  - repeat constructor; simpl; vm_compute; discriminate.
Defined.

(** The composition above, evaluated: the bytes 0 to 3 and 5 to 7 of the
    sample log. *)
Example compose_logfile_run :
  String.string_of_list_byte
    <$> (compose_logfile "17" logs_writable sample_fs "/logs/combat.log" "/logs/out.log"
           [(0, 4); (5, 8)]%Z "/logs/tmp").1 !! "/logs/out.log"
  = Some "lineone".
Proof. vm_compute. reflexivity. Qed.


Lemma repair_logfile_unbroken_witness :
  repair_logfile "17" logs_writable spaced_fs "/logs/spaced.log" "/logs/tmp"
  = (<[ "/logs/spaced.log"
        := concat (filter (λ line, is_blank line = false) (lines_of spaced_log)) ]>
       (<[ tempfile_path "17" "/logs/tmp"
           := concat (filter (λ line, is_blank line = false) (lines_of spaced_log)) ]>
          spaced_fs),
     Returned tt)
  ∧ ((∀ line, line ∈ lines_of spaced_log → is_blank line = false) →
     repair_logfile "17" logs_writable spaced_fs "/logs/spaced.log" "/logs/tmp"
     = (<[ tempfile_path "17" "/logs/tmp" := spaced_log ]> spaced_fs, Returned tt))
  ∧ ((∀ line, line ∈ lines_of spaced_log → is_blank line = true) →
     (repair_logfile "17" logs_writable spaced_fs "/logs/spaced.log" "/logs/tmp").1
       !! "/logs/spaced.log" = Some []).
Proof.
  apply (repair_logfile_unbroken "17" logs_writable spaced_fs "/logs/spaced.log"
           "/logs/tmp" spaced_log).
  - reflexivity.
  - discriminate.
  - reflexivity.
  - reflexivity.
  - intros line Hline. vm_compute in Hline.
    repeat (apply elem_of_cons in Hline as [->|Hline]; [vm_compute; reflexivity|]).
    by apply not_elem_of_nil in Hline.
Defined.

(** The repair above, evaluated: the four lines of the log, of which the
    second and the third are blank, and the two lines that are left. *)
Example repair_logfile_spaced_run :
  String.string_of_list_byte <$> lines_of spaced_log
  = ["first
"; "
"; "  
"; "second
"]
  ∧ String.string_of_list_byte
      <$> (repair_logfile "17" logs_writable spaced_fs "/logs/spaced.log" "/logs/tmp").1
            !! "/logs/spaced.log"
    = Some "first
second
".
Proof. split; vm_compute; reflexivity. Qed.

(** The sample log, repaired: the blank line is dropped and the broken
    string replaced. *)
Example repair_logfile_run :
  String.string_of_list_byte
    <$> (repair_logfile "17" logs_writable sample_fs "/logs/combat.log" "/logs/tmp").1
          !! "/logs/combat.log"
  = Some "line one
Rehona - Sister of the Qowat Milat hits
last line".
Proof. vm_compute. reflexivity. Qed.
